(** * EV-Hiredis: the libev adapter of hiredis (src/libev_adapter.h)

    A shallow embedding of [libev_adapter.h] and the properties of its
    watcher state.  The adapter is a C header: one struct
    ([redisLibevEvents]) and a dozen static functions that read and
    write it through pointers, call libev, and are called back by libev
    and by hiredis.  The embedding keeps that shape:

    - memory is an explicit store: a heap of [redisLibevEvents] blocks,
      a heap of [redisAsyncContext] objects and the event loops; a
      pointer is an [option] of an address, [None] being [NULL];
    - every C function is a computation in a state-and-fault monad [M];
      dereferencing an address that is not live is a [Fault];
    - every store, every libev call and [Safefree] is appended to a
      trace ([log]), so that the order of effects can be stated. *)

From Stdlib Require Import ZArith QArith List Lia Lqa.
From stdpp Require Import base option gmap.
Import ListNotations.

Set Default Proof Using "Type".

(** ** Addresses *)

(** Addresses of [redisLibevEvents] blocks, of [redisAsyncContext]
    objects and of [struct ev_loop] objects. *)
Abbreviation ptr := positive (only parsing).
Abbreviation ctx_ptr := positive (only parsing).
Abbreviation loop_ptr := positive (only parsing).

(** The three watchers embedded in a [redisLibevEvents]: the address of
    a watcher is the address of its block and the field it sits in
    ([&e->rev] is [(e, W_rev)]). *)
Inductive wfield := W_rev | W_wev | W_timer.

Global Instance wfield_eq_dec : EqDecision wfield.
Proof. solve_decision. Defined.

Global Instance wfield_countable : Countable wfield.
Proof.
  refine (inj_countable'
            (fun f => match f with W_rev => 0%nat | W_wev => 1%nat | W_timer => 2%nat end)
            (fun n => match n with 0%nat => W_rev | 1%nat => W_wev | _ => W_timer end) _).
  intros []; reflexivity.
Defined.

Abbreviation wptr := (positive * wfield)%type (only parsing).

(** Addresses of the static functions of the header, as they are stored
    in function-pointer slots. *)
Inductive fnptr :=
| FN_ReadEvent | FN_WriteEvent | FN_Timeout
| FN_AddRead | FN_DelRead | FN_AddWrite | FN_DelWrite
| FN_StopTimer | FN_Cleanup | FN_SetTimeout.

Global Instance fnptr_eq_dec : EqDecision fnptr.
Proof. solve_decision. Defined.

(** ** libev watchers (ev.h)

    libev is an external library; only its calls appear in the header.
    Its watchers and primitives are modelled after ev.h and ev.c.
    [ev_tstamp] is a C [double]: a finite double is the rational it
    denotes.  The header's own arithmetic (the conversion of a
    [timeval]) is computed as C computes it, see [Double]; the sums that
    libev forms with its clock are taken exactly.

    The records carry the members that the header, or a libev function
    it calls, reads or writes after initialisation.  Left out are the
    [pending] mark and the loop's pending queue (nothing below
    dispatches events), the [next] link of an [ev_io], and the members
    that EVAPI.h adds to every watcher beside [data]: no statement
    below is about them. *)

(** The common prefix [EV_WATCHER] of every watcher. *)
Record ev_watcher := Ev_watcher {
  active : bool;
  w_priority : Z;
  data : option ptr;
  cb : option fnptr
}.

Record ev_io := Ev_io {
  io_base : ev_watcher;
  fd : Z;
  events : Z
}.

Record ev_timer := Ev_timer {
  tm_base : ev_watcher;
  at_ : Q;
  repeat : Q
}.

Module Libev.

Definition EV_MINPRI : Z := -2.
Definition EV_MAXPRI : Z := 2.
Definition EV_READ : Z := 1.
Definition EV_WRITE : Z := 2.
Definition EV__IOFDSET : Z := 128.

(** [ev_init (w, cb)]: [active = pending = 0], priority 0, callback
    set; [data] is left alone. *)
Definition ev_init (f : fnptr) (w : ev_watcher) : ev_watcher :=
  {| active := false; w_priority := 0; data := data w; cb := Some f |}.

Definition ev_set_priority (pri : Z) (w : ev_watcher) : ev_watcher :=
  {| active := active w; w_priority := pri; data := data w; cb := cb w |}.

Definition set_data (v : option ptr) (w : ev_watcher) : ev_watcher :=
  {| active := active w; w_priority := w_priority w; data := v; cb := cb w |}.

(** [pri_adjust]: clamp the priority into [EV_MINPRI .. EV_MAXPRI]. *)
Definition clamp_pri (pri : Z) : Z :=
  let pri := if (pri <? EV_MINPRI)%Z then EV_MINPRI else pri in
  if (pri >? EV_MAXPRI)%Z then EV_MAXPRI else pri.

Definition pri_adjust (w : ev_watcher) : ev_watcher :=
  ev_set_priority (clamp_pri (w_priority w)) w.

(** [ev_start]: adjust the priority and mark the watcher active. *)
Definition ev_start (w : ev_watcher) : ev_watcher :=
  let w := pri_adjust w in
  {| active := true; w_priority := w_priority w; data := data w; cb := cb w |}.

(** [ev_stop]: mark the watcher inactive. *)
Definition ev_stop (w : ev_watcher) : ev_watcher :=
  {| active := false; w_priority := w_priority w; data := data w; cb := cb w |}.

(** [ev_io_set (w, fd, events)]. *)
Definition ev_io_set (fd_ events_ : Z) (w : ev_io) : ev_io :=
  {| io_base := io_base w; fd := fd_; events := Z.lor events_ EV__IOFDSET |}.

(** [w->events &= ~EV__IOFDSET], the last statement of [ev_io_start]. *)
Definition clear_fdset (w : ev_io) : ev_io :=
  {| io_base := io_base w; fd := fd w;
     events := Z.land (events w) (Z.lnot EV__IOFDSET) |}.

(** [ev_io_init (w, cb, fd, events)] is [ev_init] then [ev_io_set]. *)
Definition ev_io_init (f : fnptr) (fd_ events_ : Z) (w : ev_io) : ev_io :=
  ev_io_set fd_ events_
    {| io_base := ev_init f (io_base w); fd := fd w; events := events w |}.

Definition io_with_base (b : ev_watcher) (w : ev_io) : ev_io :=
  {| io_base := b; fd := fd w; events := events w |}.

Definition tm_with_base (b : ev_watcher) (w : ev_timer) : ev_timer :=
  {| tm_base := b; at_ := at_ w; repeat := repeat w |}.

Definition tm_with_at (a : Q) (w : ev_timer) : ev_timer :=
  {| tm_base := tm_base w; at_ := a; repeat := repeat w |}.

Definition tm_with_repeat (r : Q) (w : ev_timer) : ev_timer :=
  {| tm_base := tm_base w; at_ := at_ w; repeat := r |}.

(** C truth of an [ev_tstamp]: non-zero. *)
Definition tstamp_true (q : Q) : bool := negb (Qeq_bool q 0).

End Libev.

(** ** The adapter's struct and the client context *)

(** [struct redisLibevEvents].  The three [int] flags only ever hold 0
    or 1 and are only tested for truth: they are booleans here. *)
Record redisLibevEvents := RedisLibevEvents {
  context : option ctx_ptr;
  loop : option loop_ptr;
  reading : bool;
  writing : bool;
  timing : bool;
  rev : ev_io;
  wev : ev_io;
  timer : ev_timer;
  priority : Z
}.

(** The [ev] member of hiredis's [redisAsyncContext]: the hook table
    and its back-reference [data]. *)
Record ev_hooks := Ev_hooks {
  ev_data : option ptr;
  addRead : option fnptr;
  delRead : option fnptr;
  addWrite : option fnptr;
  delWrite : option fnptr;
  cleanup : option fnptr;
  scheduleTimer : option fnptr
}.

(** What the adapter uses of a [redisAsyncContext]: the descriptor
    [c.fd] and the hook table [ev]. *)
Record redisAsyncContext := RedisAsyncContext {
  c_fd : Z;
  ev : ev_hooks
}.

(** [struct timeval]: [tv_sec] and [tv_usec] are of the types [time_t]
    and [suseconds_t], both [long]. *)
Record timeval := Timeval { tv_sec : Z; tv_usec : Z }.

Definition REDIS_OK : Z := 0.
Definition REDIS_ERR : Z := -1.

(** ** Event loops, the store and the trace *)

(** An event loop: its cached monotonic clock and the watchers that are
    started on it (libev keeps them in [anfds] and in the timer heap). *)
Record ev_loop := Ev_loop {
  mn_now : Q;
  started : gset wptr
}.

Definition fresh_loop : ev_loop := {| mn_now := 0; started := ∅ |}.

(** The slots of the hook table that [redisLibevAttach] fills. *)
Inductive hook_slot :=
| H_addRead | H_delRead | H_addWrite | H_delWrite | H_cleanup | H_scheduleTimer.

(** One entry of the trace for each store to memory, each libev call
    and each allocator call, in program order. *)
Inductive event :=
| St_context (e : ptr) (v : option ctx_ptr)
| St_loop (e : ptr) (v : option loop_ptr)
| St_reading (e : ptr) (v : bool)
| St_writing (e : ptr) (v : bool)
| St_timing (e : ptr) (v : bool)
| St_priority (e : ptr) (v : Z)
| St_data (w : wptr) (v : option ptr)
| St_repeat (e : ptr) (v : Q)
| St_ev_data (ac : ctx_ptr) (v : option ptr)
| St_ev_hook (ac : ctx_ptr) (s : hook_slot) (f : fnptr)
| Call_ev_init (w : wptr) (f : fnptr)
| Call_ev_io_init (w : wptr) (f : fnptr) (fd_ events_ : Z)
| Call_ev_set_priority (w : wptr) (pri : Z)
| Call_ev_io_start (l : loop_ptr) (w : wptr)
| Call_ev_io_stop (l : loop_ptr) (w : wptr)
| Call_ev_timer_stop (l : loop_ptr) (w : wptr)
| Call_ev_timer_again (l : loop_ptr) (w : wptr)
| Call_Newx (e : ptr)
| Call_Safefree (e : ptr) (content : redisLibevEvents).

Record world := World {
  heap : gmap positive redisLibevEvents;
  ctxs : gmap positive redisAsyncContext;
  loops : gmap positive ev_loop;
  log : list event
}.

(** The loop at an address; an address never used before is a loop with
    no watcher started. *)
Definition loop_in (L : gmap positive ev_loop) (l : loop_ptr) : ev_loop :=
  default fresh_loop (L !! l).

Definition loop_at (w : world) (l : loop_ptr) : ev_loop :=
  loop_in (loops w) l.

(** ** The monad of C computations *)

Inductive outcome (A : Type) :=
| Done (a : A) (w : world)
| Fault.
Arguments Done {A} a w.
Arguments Fault {A}.

Definition M (A : Type) : Type := world -> outcome A.

Definition bindM {A B} (m : M A) (f : A -> M B) : M B := fun w =>
  match m w with
  | Done a w' => f a w'
  | Fault => Fault
  end.

Definition ret {A} (a : A) : M A := fun w => Done a w.

Declare Scope M_scope.
Delimit Scope M_scope with M.
Bind Scope M_scope with M.

Notation "'let*' x ':=' m 'in' k" := (bindM m (fun x => k))
  (at level 10, x name, m at level 100, k at level 200) : M_scope.
Notation "x ;; z" := (bindM x (fun _ => z))
  (at level 100, z at level 200, right associativity) : M_scope.

Open Scope M_scope.

Definition fault {A} : M A := fun _ => Fault.

Definition emit (ev_ : event) : M unit := fun w =>
  Done tt {| heap := heap w; ctxs := ctxs w; loops := loops w; log := log w ++ [ev_] |}.

(** Read a field of the block at [e]. *)
Definition load {A} (e : ptr) (f : redisLibevEvents -> A) : M A := fun w =>
  match heap w !! e with
  | Some b => Done (f b) w
  | None => Fault
  end.

(** Overwrite the block at [e] by [f] of its content. *)
Definition update (e : ptr) (f : redisLibevEvents -> redisLibevEvents) : M unit := fun w =>
  match heap w !! e with
  | Some b =>
      Done tt {| heap := <[e := f b]> (heap w); ctxs := ctxs w; loops := loops w; log := log w |}
  | None => Fault
  end.

Definition load_ctx {A} (ac : ctx_ptr) (f : redisAsyncContext -> A) : M A := fun w =>
  match ctxs w !! ac with
  | Some c => Done (f c) w
  | None => Fault
  end.

Definition update_ctx (ac : ctx_ptr) (f : redisAsyncContext -> redisAsyncContext) : M unit :=
  fun w =>
  match ctxs w !! ac with
  | Some c =>
      Done tt {| heap := heap w; ctxs := <[ac := f c]> (ctxs w); loops := loops w; log := log w |}
  | None => Fault
  end.

Definition get_loop (l : loop_ptr) : M ev_loop := fun w => Done (loop_at w l) w.

Definition put_loop (l : loop_ptr) (x : ev_loop) : M unit := fun w =>
  Done tt {| heap := heap w; ctxs := ctxs w; loops := <[l := x]> (loops w); log := log w |}.

(** ** Field updates *)

Definition set_context (v : option ctx_ptr) (b : redisLibevEvents) : redisLibevEvents :=
  {| context := v; loop := loop b; reading := reading b; writing := writing b;
     timing := timing b; rev := rev b; wev := wev b; timer := timer b;
     priority := priority b |}.

Definition set_loop (v : option loop_ptr) (b : redisLibevEvents) : redisLibevEvents :=
  {| context := context b; loop := v; reading := reading b; writing := writing b;
     timing := timing b; rev := rev b; wev := wev b; timer := timer b;
     priority := priority b |}.

Definition set_reading (v : bool) (b : redisLibevEvents) : redisLibevEvents :=
  {| context := context b; loop := loop b; reading := v; writing := writing b;
     timing := timing b; rev := rev b; wev := wev b; timer := timer b;
     priority := priority b |}.

Definition set_writing (v : bool) (b : redisLibevEvents) : redisLibevEvents :=
  {| context := context b; loop := loop b; reading := reading b; writing := v;
     timing := timing b; rev := rev b; wev := wev b; timer := timer b;
     priority := priority b |}.

Definition set_timing (v : bool) (b : redisLibevEvents) : redisLibevEvents :=
  {| context := context b; loop := loop b; reading := reading b; writing := writing b;
     timing := v; rev := rev b; wev := wev b; timer := timer b;
     priority := priority b |}.

Definition set_rev (v : ev_io) (b : redisLibevEvents) : redisLibevEvents :=
  {| context := context b; loop := loop b; reading := reading b; writing := writing b;
     timing := timing b; rev := v; wev := wev b; timer := timer b;
     priority := priority b |}.

Definition set_wev (v : ev_io) (b : redisLibevEvents) : redisLibevEvents :=
  {| context := context b; loop := loop b; reading := reading b; writing := writing b;
     timing := timing b; rev := rev b; wev := v; timer := timer b;
     priority := priority b |}.

Definition set_timer (v : ev_timer) (b : redisLibevEvents) : redisLibevEvents :=
  {| context := context b; loop := loop b; reading := reading b; writing := writing b;
     timing := timing b; rev := rev b; wev := wev b; timer := v;
     priority := priority b |}.

Definition set_priority (v : Z) (b : redisLibevEvents) : redisLibevEvents :=
  {| context := context b; loop := loop b; reading := reading b; writing := writing b;
     timing := timing b; rev := rev b; wev := wev b; timer := timer b;
     priority := v |}.

(** The [ev_watcher] prefix of the watcher in field [f]. *)
Definition base_of (f : wfield) (b : redisLibevEvents) : ev_watcher :=
  match f with
  | W_rev => io_base (rev b)
  | W_wev => io_base (wev b)
  | W_timer => tm_base (timer b)
  end.

Definition with_base (f : wfield) (x : ev_watcher) (b : redisLibevEvents) : redisLibevEvents :=
  match f with
  | W_rev => set_rev (Libev.io_with_base x (rev b)) b
  | W_wev => set_wev (Libev.io_with_base x (wev b)) b
  | W_timer => set_timer (Libev.tm_with_base x (timer b)) b
  end.

Definition map_base (f : wfield) (g : ev_watcher -> ev_watcher) (b : redisLibevEvents)
  : redisLibevEvents :=
  with_base f (g (base_of f b)) b.

Definition map_timer (g : ev_timer -> ev_timer) (b : redisLibevEvents) : redisLibevEvents :=
  set_timer (g (timer b)) b.

Definition map_io (f : wfield) (g : ev_io -> ev_io) (b : redisLibevEvents)
  : redisLibevEvents :=
  match f with
  | W_rev => set_rev (g (rev b)) b
  | W_wev => set_wev (g (wev b)) b
  | W_timer => b
  end.

Definition set_ev_data (v : option ptr) (c : redisAsyncContext) : redisAsyncContext :=
  {| c_fd := c_fd c;
     ev := {| ev_data := v; addRead := addRead (ev c); delRead := delRead (ev c);
              addWrite := addWrite (ev c); delWrite := delWrite (ev c);
              cleanup := cleanup (ev c); scheduleTimer := scheduleTimer (ev c) |} |}.

Definition slot (s : hook_slot) (h : ev_hooks) : option fnptr :=
  match s with
  | H_addRead => addRead h
  | H_delRead => delRead h
  | H_addWrite => addWrite h
  | H_delWrite => delWrite h
  | H_cleanup => cleanup h
  | H_scheduleTimer => scheduleTimer h
  end.

Definition set_slot (s : hook_slot) (f : fnptr) (c : redisAsyncContext) : redisAsyncContext :=
  let h := ev c in
  {| c_fd := c_fd c;
     ev := {| ev_data := ev_data h;
              addRead := match s with H_addRead => Some f | _ => addRead h end;
              delRead := match s with H_delRead => Some f | _ => delRead h end;
              addWrite := match s with H_addWrite => Some f | _ => addWrite h end;
              delWrite := match s with H_delWrite => Some f | _ => delWrite h end;
              cleanup := match s with H_cleanup => Some f | _ => cleanup h end;
              scheduleTimer :=
                match s with H_scheduleTimer => Some f | _ => scheduleTimer h end |} |}.

(** ** Stores, as the statements of the header perform them *)

Definition store_context (e : ptr) (v : option ctx_ptr) : M unit :=
  update e (set_context v);; emit (St_context e v).

Definition store_loop (e : ptr) (v : option loop_ptr) : M unit :=
  update e (set_loop v);; emit (St_loop e v).

Definition store_reading (e : ptr) (v : bool) : M unit :=
  update e (set_reading v);; emit (St_reading e v).

Definition store_writing (e : ptr) (v : bool) : M unit :=
  update e (set_writing v);; emit (St_writing e v).

Definition store_timing (e : ptr) (v : bool) : M unit :=
  update e (set_timing v);; emit (St_timing e v).

Definition store_priority (e : ptr) (v : Z) : M unit :=
  update e (set_priority v);; emit (St_priority e v).

(** [w->data = v]. *)
Definition store_data (w : wptr) (v : option ptr) : M unit :=
  update w.1 (map_base w.2 (Libev.set_data v));; emit (St_data w v).

(** [e->timer.repeat = v]. *)
Definition store_repeat (e : ptr) (v : Q) : M unit :=
  update e (map_timer (Libev.tm_with_repeat v));; emit (St_repeat e v).

(** [ac->ev.data = v]. *)
Definition store_ev_data (ac : ctx_ptr) (v : option ptr) : M unit :=
  update_ctx ac (set_ev_data v);; emit (St_ev_data ac v).

(** [ac->ev.<s> = f]. *)
Definition store_hook (ac : ctx_ptr) (s : hook_slot) (f : fnptr) : M unit :=
  update_ctx ac (set_slot s f);; emit (St_ev_hook ac s f).

(** [Newx (e, 1, redisLibevEvents)] when the allocator answers with the
    block at [e]: the block becomes live, its content is whatever the
    memory held ([junk]). *)
Definition Newx_block (e : ptr) (junk : redisLibevEvents) : M unit := fun w =>
  Done tt {| heap := <[e := junk]> (heap w); ctxs := ctxs w; loops := loops w;
             log := log w ++ [Call_Newx e] |}.

(** [Safefree (e)]: the block stops being live; the trace keeps what it
    held when it was released.  Releasing a block that is not live is a
    fault (double free). *)
Definition Safefree (e : ptr) : M unit := fun w =>
  match heap w !! e with
  | Some b =>
      Done tt {| heap := delete e (heap w); ctxs := ctxs w; loops := loops w;
                 log := log w ++ [Call_Safefree e b] |}
  | None => Fault
  end.

(** ** libev primitives on watchers in memory (ev.c)

    Each primitive that the header calls leaves its call in the trace
    and then does what ev.c does.  Assertions of ev.c are compiled out,
    as in a build with [NDEBUG]. *)

(** [ev_init (w, cb)]. *)
Definition ev_init (w : wptr) (f : fnptr) : M unit :=
  emit (Call_ev_init w f);;
  update w.1 (map_base w.2 (Libev.ev_init f)).

(** [ev_io_init (w, cb, fd, events)]; [w] is [&e->rev] or [&e->wev]. *)
Definition ev_io_init (w : wptr) (f : fnptr) (fd_ events_ : Z) : M unit :=
  emit (Call_ev_io_init w f fd_ events_);;
  match w.2 with
  | W_rev => update w.1 (fun b => set_rev (Libev.ev_io_init f fd_ events_ (rev b)) b)
  | W_wev => update w.1 (fun b => set_wev (Libev.ev_io_init f fd_ events_ (wev b)) b)
  | W_timer => fault
  end.

(** [ev_set_priority (w, pri)]. *)
Definition ev_set_priority (w : wptr) (pri : Z) : M unit :=
  emit (Call_ev_set_priority w pri);;
  update w.1 (map_base w.2 (Libev.ev_set_priority pri)).

Definition loop_add (l : loop_ptr) (w : wptr) : M unit :=
  let* lp := get_loop l in
  put_loop l {| mn_now := mn_now lp; started := {[w]} ∪ started lp |}.

Definition loop_del (l : loop_ptr) (w : wptr) : M unit :=
  let* lp := get_loop l in
  put_loop l {| mn_now := mn_now lp; started := started lp ∖ {[w]} |}.

(** [ev_io_start (loop, w)]: nothing when [w] is active; otherwise
    [ev_start], the watcher joins the loop, and the [EV__IOFDSET] mark
    of its [events] is cleared. *)
Definition ev_io_start (l : loop_ptr) (w : wptr) : M unit :=
  emit (Call_ev_io_start l w);;
  match w.2 with
  | W_timer => fault
  | _ =>
      let* a := load w.1 (fun b => active (base_of w.2 b)) in
      if a then ret tt
      else
        update w.1 (map_base w.2 Libev.ev_start);;
        loop_add l w;;
        update w.1 (map_io w.2 Libev.clear_fdset)
  end.

(** [ev_io_stop (loop, w)]: nothing when [w] is not active; otherwise
    the watcher leaves the loop and [ev_stop]. *)
Definition ev_io_stop (l : loop_ptr) (w : wptr) : M unit :=
  emit (Call_ev_io_stop l w);;
  match w.2 with
  | W_timer => fault
  | _ =>
      let* a := load w.1 (fun b => active (base_of w.2 b)) in
      if negb a then ret tt
      else loop_del l w;; update w.1 (map_base w.2 Libev.ev_stop)
  end.

(** The body of [ev_timer_start]: nothing when active; otherwise
    [at += mn_now], [ev_start] and the timer joins the loop. *)
Definition timer_start (l : loop_ptr) (e : ptr) : M unit :=
  let* a := load e (fun b => active (tm_base (timer b))) in
  if a then ret tt
  else
    let* lp := get_loop l in
    update e (map_timer (fun t => Libev.tm_with_at (at_ t + mn_now lp)%Q t));;
    update e (map_base W_timer Libev.ev_start);;
    loop_add l (e, W_timer).

(** The body of [ev_timer_stop]: nothing when not active; otherwise the
    timer leaves the loop, [at -= mn_now] and [ev_stop]. *)
Definition timer_stop (l : loop_ptr) (e : ptr) : M unit :=
  let* a := load e (fun b => active (tm_base (timer b))) in
  if negb a then ret tt
  else
    loop_del l (e, W_timer);;
    let* lp := get_loop l in
    update e (map_timer (fun t => Libev.tm_with_at (at_ t - mn_now lp)%Q t));;
    update e (map_base W_timer Libev.ev_stop).

(** [ev_timer_stop (loop, w)]. *)
Definition ev_timer_stop (l : loop_ptr) (w : wptr) : M unit :=
  emit (Call_ev_timer_stop l w);;
  match w.2 with
  | W_timer => timer_stop l w.1
  | _ => fault
  end.

(** [ev_timer_again (loop, w)]: an active timer with a non-zero
    [repeat] gets the deadline [mn_now + repeat], with a zero [repeat]
    it is stopped; an inactive timer with a non-zero [repeat] is
    started with [at = repeat], with a zero [repeat] nothing happens. *)
Definition ev_timer_again (l : loop_ptr) (w : wptr) : M unit :=
  emit (Call_ev_timer_again l w);;
  match w.2 with
  | W_timer =>
      let e := w.1 in
      let* a := load e (fun b => active (tm_base (timer b))) in
      let* r := load e (fun b => repeat (timer b)) in
      if a then
        if Libev.tstamp_true r then
          let* lp := get_loop l in
          update e (map_timer (Libev.tm_with_at (mn_now lp + r)%Q))
        else timer_stop l e
      else
        if Libev.tstamp_true r then
          update e (map_timer (Libev.tm_with_at r));;
          timer_start l e
        else ret tt
  | _ => fault
  end.

(** ** The adapter (libev_adapter.h)

    The header is compiled with [EV_MULTIPLICITY]: every libev call
    names its loop, and [EV_P_] is a [struct ev_loop *loop] argument. *)

Section Fired.

(** hiredis's entry points, called when a watcher fires.  They are
    external and may call back into the adapter (a handler that
    disconnects runs the cleanup hook), so they are arbitrary
    computations here. *)
Variable redisAsyncHandleRead : ctx_ptr -> M unit.
Variable redisAsyncHandleWrite : ctx_ptr -> M unit.
Variable redisAsyncHandleTimeout : ctx_ptr -> M unit.

Definition redisLibevReadEvent (loop_ : loop_ptr) (watcher : wptr) (revents : Z)
  : M unit :=
  let* e := load watcher.1 (fun b => data (base_of watcher.2 b)) in
  match e with
  | None => ret tt
  | Some e =>
      let* c := load e context in
      match c with
      | None => ret tt
      | Some c => redisAsyncHandleRead c
      end
  end.

Definition redisLibevWriteEvent (loop_ : loop_ptr) (watcher : wptr) (revents : Z)
  : M unit :=
  let* e := load watcher.1 (fun b => data (base_of watcher.2 b)) in
  match e with
  | None => ret tt
  | Some e =>
      let* c := load e context in
      match c with
      | None => ret tt
      | Some c => redisAsyncHandleWrite c
      end
  end.

Definition redisLibevTimeout (loop_ : loop_ptr) (timer_ : wptr) (revents : Z)
  : M unit :=
  let* e := load timer_.1 (fun b => data (base_of timer_.2 b)) in
  match e with
  | None => ret tt
  | Some e =>
      let* c := load e context in
      match c with
      | None => ret tt
      | Some c => redisAsyncHandleTimeout c
      end
  end.

End Fired.

Definition redisLibevAddRead (privdata : option ptr) : M unit :=
  match privdata with
  | None => ret tt
  | Some e =>
      let* loop_ := load e loop in
      match loop_ with
      | None => ret tt
      | Some l =>
          let* r := load e reading in
          if negb r then
            store_reading e true;;
            ev_io_start l (e, W_rev)
          else ret tt
      end
  end.

Definition redisLibevDelRead (privdata : option ptr) : M unit :=
  match privdata with
  | None => ret tt
  | Some e =>
      let* loop_ := load e loop in
      let* r := load e reading in
      if r then
        store_reading e false;;
        match loop_ with
        | Some l => ev_io_stop l (e, W_rev)
        | None => ret tt
        end
      else ret tt
  end.

Definition redisLibevAddWrite (privdata : option ptr) : M unit :=
  match privdata with
  | None => ret tt
  | Some e =>
      let* loop_ := load e loop in
      match loop_ with
      | None => ret tt
      | Some l =>
          let* r := load e writing in
          if negb r then
            store_writing e true;;
            ev_io_start l (e, W_wev)
          else ret tt
      end
  end.

Definition redisLibevDelWrite (privdata : option ptr) : M unit :=
  match privdata with
  | None => ret tt
  | Some e =>
      let* loop_ := load e loop in
      let* r := load e writing in
      if r then
        store_writing e false;;
        match loop_ with
        | Some l => ev_io_stop l (e, W_wev)
        | None => ret tt
        end
      else ret tt
  end.

Definition redisLibevStopTimer (privdata : option ptr) : M unit :=
  match privdata with
  | None => ret tt
  | Some e =>
      let* loop_ := load e loop in
      let* r := load e timing in
      if r then
        store_timing e false;;
        match loop_ with
        | Some l => ev_timer_stop l (e, W_timer)
        | None => ret tt
        end
      else ret tt
  end.

Definition redisLibevCleanup (privdata : option ptr) : M unit :=
  match privdata with
  | None => ret tt
  | Some e =>
      let* ctx := load e context in
      match ctx with
      | Some c => store_ev_data c None
      | None => ret tt
      end;;
      let* loop_ := load e loop in
      store_loop e None;;
      store_context e None;;
      store_data (e, W_rev) None;;
      store_data (e, W_wev) None;;
      store_data (e, W_timer) None;;
      match loop_ with
      | Some l =>
          ev_io_stop l (e, W_rev);;
          ev_io_stop l (e, W_wev);;
          ev_timer_stop l (e, W_timer)
      | None => ret tt
      end;;
      store_reading e false;;
      store_writing e false;;
      store_timing e false;;
      Safefree e
  end.

(** ** C [double] arithmetic

    IEEE 754 binary64 with the default rounding, to nearest and ties to
    even: every operation returns the double nearest to the exact
    result.  The two zeros are not told apart (the header only tests a
    double for zero), and overflow to an infinity does not arise: the
    operands below are 64-bit integers and the constant 1000000. *)
Module Double.

Definition prec : Z := 53.

(** The exponent of the smallest positive double, [2 ^ emin]. *)
Definition emin : Z := -1074.

(** [n / d] rounded to the nearest integer, ties to even, for
    [0 <= n] and [0 < d]. *)
Definition rne (n d : Z) : Z :=
  let q := (n / d)%Z in
  match (2 * (n mod d) ?= d)%Z with
  | Lt => q
  | Gt => (q + 1)%Z
  | Eq => if Z.even q then q else (q + 1)%Z
  end.

(** [floor (log2 (n / d))]. *)
Definition ilog2 (n d : positive) : Z :=
  let k := (Z.log2 (Zpos n) - Z.log2 (Zpos d))%Z in
  if (if (0 <=? k)%Z then (Zpos d * 2 ^ k <=? Zpos n)%Z
      else (Zpos d <=? Zpos n * 2 ^ (- k))%Z)
  then k else (k - 1)%Z.

(** The double nearest to [n / d]: a multiple [m * 2 ^ e] of the unit
    in the last place, with [m] of at most [prec] bits. *)
Definition round_pos (n d : positive) : Q :=
  let e := Z.max (ilog2 n d - (prec - 1)) emin in
  if (0 <=? e)%Z
  then inject_Z (rne (Zpos n) (Zpos d * 2 ^ e) * 2 ^ e)%Z
  else Qred (Qmake (rne (Zpos n * 2 ^ (- e)) (Zpos d))%Z (Z.to_pos (2 ^ (- e)))).

Definition round (x : Q) : Q :=
  match Qnum x with
  | Z0 => 0%Q
  | Zpos n => round_pos n (Qden x)
  | Zneg n => (- round_pos n (Qden x))%Q
  end.

(** The conversion of a [long] to [double]. *)
Definition of_long (z : Z) : Q := round (inject_Z z).

Definition add (a b : Q) : Q := round (a + b)%Q.

Definition div (a b : Q) : Q := round (a / b)%Q.

End Double.

(** [tv.tv_sec + tv.tv_usec / 1000000.00]: [tv_usec] is converted to
    [double] and divided by the constant, [tv_sec] is converted to
    [double] and the quotient is added to it. *)
Definition timeval_seconds (tv : timeval) : Q :=
  Double.add (Double.of_long (tv_sec tv))
    (Double.div (Double.of_long (tv_usec tv)) 1000000%Q).

Definition redisLibevSetTimeout (privdata : option ptr) (tv : timeval) : M unit :=
  match privdata with
  | None => ret tt
  | Some e =>
      let* loop_ := load e loop in
      match loop_ with
      | None => ret tt
      | Some l =>
          let* t := load e timing in
          (if negb t then
             store_timing e true;;
             ev_init (e, W_timer) FN_Timeout;;
             store_data (e, W_timer) (Some e)
           else ret tt);;
          store_repeat e (timeval_seconds tv);;
          ev_timer_again l (e, W_timer)
      end
  end.

(** [Newx_result] is the allocator's answer to [Newx]: [None] for a
    null pointer, or the address of a block and what it holds.  The
    chained assignment [e->reading = e->writing = e->timing = 0] stores
    right to left. *)
Definition redisLibevAttach (Newx_result : option (ptr * redisLibevEvents))
    (loop_ : option loop_ptr) (ac : ctx_ptr) : M Z :=
  let* d := load_ctx ac (fun c => ev_data (ev c)) in
  match d with
  | Some _ => ret REDIS_ERR
  | None =>
      match Newx_result with
      | None => ret REDIS_ERR
      | Some (e, junk) =>
          Newx_block e junk;;
          store_context e (Some ac);;
          store_loop e loop_;;
          store_timing e false;;
          store_writing e false;;
          store_reading e false;;
          store_priority e 0;;
          store_data (e, W_rev) (Some e);;
          store_data (e, W_wev) (Some e);;
          store_hook ac H_addRead FN_AddRead;;
          store_hook ac H_delRead FN_DelRead;;
          store_hook ac H_addWrite FN_AddWrite;;
          store_hook ac H_delWrite FN_DelWrite;;
          store_hook ac H_cleanup FN_Cleanup;;
          store_hook ac H_scheduleTimer FN_SetTimeout;;
          store_ev_data ac (Some e);;
          let* fd_ := load_ctx ac c_fd in
          ev_io_init (e, W_rev) FN_ReadEvent fd_ Libev.EV_READ;;
          ev_io_init (e, W_wev) FN_WriteEvent fd_ Libev.EV_WRITE;;
          ev_init (e, W_timer) FN_Timeout;;
          store_data (e, W_timer) (Some e);;
          ret REDIS_OK
      end
  end.

Definition redisLibevSetPriority (ac : ctx_ptr) (priority_ : Z) : M unit :=
  let* d := load_ctx ac (fun c => ev_data (ev c)) in
  match d with
  | None => ret tt
  | Some e =>
      let* loop_ := load e loop in
      match loop_ with
      | None => ret tt
      | Some l =>
          store_priority e priority_;;
          let* r := load e reading in
          (if r then
             ev_io_stop l (e, W_rev);;
             ev_set_priority (e, W_rev) priority_;;
             ev_io_start l (e, W_rev)
           else ev_set_priority (e, W_rev) priority_);;
          let* wr := load e writing in
          (if wr then
             ev_io_stop l (e, W_wev);;
             ev_set_priority (e, W_wev) priority_;;
             ev_io_start l (e, W_wev)
           else ev_set_priority (e, W_wev) priority_);;
          let* t := load e timing in
          if t then
            ev_timer_stop l (e, W_timer);;
            ev_set_priority (e, W_timer) priority_;;
            ev_timer_again l (e, W_timer)
          else ev_set_priority (e, W_timer) priority_
      end
  end.

(** ** hiredis's dispatch through the hook table

    hiredis calls a hook as [ac->ev.f (ac->ev.data)] when the slot [f]
    is not null (the [_EL_ADD_READ], ..., [_EL_CLEANUP] macros of
    async.c and [refreshTimeout] of async_private.h). *)

(** The static function behind a function pointer, called with the
    hook signature.  The watcher callbacks do not have that signature. *)
Definition call_fn (f : fnptr) (privdata : option ptr) (tv : timeval) : M unit :=
  match f with
  | FN_AddRead => redisLibevAddRead privdata
  | FN_DelRead => redisLibevDelRead privdata
  | FN_AddWrite => redisLibevAddWrite privdata
  | FN_DelWrite => redisLibevDelWrite privdata
  | FN_StopTimer => redisLibevStopTimer privdata
  | FN_Cleanup => redisLibevCleanup privdata
  | FN_SetTimeout => redisLibevSetTimeout privdata tv
  | FN_ReadEvent | FN_WriteEvent | FN_Timeout => fault
  end.

(** [tv] is only looked at by the [scheduleTimer] hook. *)
Definition call_hook (s : hook_slot) (ac : ctx_ptr) (tv : timeval) : M unit :=
  let* f := load_ctx ac (fun c => slot s (ev c)) in
  let* d := load_ctx ac (fun c => ev_data (ev c)) in
  match f with
  | Some f => call_fn f d tv
  | None => ret tt
  end.

(** * Characterisations used in the statements *)

(** [x] is started on the loop at [l]. *)
Definition reg (L : gmap positive ev_loop) (l : loop_ptr) (x : wptr) : Prop :=
  x ∈ started (loop_in L l).

Global Instance reg_dec L l x : Decision (reg L l x).
Proof. unfold reg. apply _. Defined.

(** ** What the libev primitives do to a block and to the loops *)

Definition loops_add (l : loop_ptr) (x : wptr) (L : gmap positive ev_loop)
  : gmap positive ev_loop :=
  <[l := {| mn_now := mn_now (loop_in L l); started := {[x]} ∪ started (loop_in L l) |}]> L.

Definition loops_del (l : loop_ptr) (x : wptr) (L : gmap positive ev_loop)
  : gmap positive ev_loop :=
  <[l := {| mn_now := mn_now (loop_in L l); started := started (loop_in L l) ∖ {[x]} |}]> L.

Definition io_start_block (f : wfield) (b : redisLibevEvents) : redisLibevEvents :=
  if active (base_of f b) then b
  else map_io f Libev.clear_fdset (map_base f Libev.ev_start b).

Definition io_start_loops (l : loop_ptr) (x : wptr) (b : redisLibevEvents)
    (L : gmap positive ev_loop) : gmap positive ev_loop :=
  if active (base_of x.2 b) then L else loops_add l x L.

Definition io_stop_block (f : wfield) (b : redisLibevEvents) : redisLibevEvents :=
  if active (base_of f b) then map_base f Libev.ev_stop b else b.

Definition io_stop_loops (l : loop_ptr) (x : wptr) (b : redisLibevEvents)
    (L : gmap positive ev_loop) : gmap positive ev_loop :=
  if active (base_of x.2 b) then loops_del l x L else L.

Definition timer_start_block (now : Q) (b : redisLibevEvents) : redisLibevEvents :=
  if active (tm_base (timer b)) then b
  else map_base W_timer Libev.ev_start
         (map_timer (fun t => Libev.tm_with_at (at_ t + now)%Q t) b).

Definition timer_stop_block (now : Q) (b : redisLibevEvents) : redisLibevEvents :=
  if active (tm_base (timer b)) then
    map_base W_timer Libev.ev_stop
      (map_timer (fun t => Libev.tm_with_at (at_ t - now)%Q t) b)
  else b.

Definition timer_again_block (now : Q) (b : redisLibevEvents) : redisLibevEvents :=
  let r := repeat (timer b) in
  if active (tm_base (timer b)) then
    if Libev.tstamp_true r then map_timer (Libev.tm_with_at (now + r)%Q) b
    else timer_stop_block now b
  else
    if Libev.tstamp_true r then
      timer_start_block now (map_timer (Libev.tm_with_at r) b)
    else b.

Definition timer_again_loops (l : loop_ptr) (x : wptr) (b : redisLibevEvents)
    (L : gmap positive ev_loop) : gmap positive ev_loop :=
  if active (tm_base (timer b)) then
    if Libev.tstamp_true (repeat (timer b)) then L else loops_del l x L
  else
    if Libev.tstamp_true (repeat (timer b)) then loops_add l x L else L.

(** ** [redisLibevCleanup], step by step *)

(** The block once [loop], [context] and the three [data] fields are
    nulled. *)
Definition cleanup_detached (b : redisLibevEvents) : redisLibevEvents :=
  map_base W_timer (Libev.set_data None)
    (map_base W_wev (Libev.set_data None)
       (map_base W_rev (Libev.set_data None)
          (set_context None (set_loop None b)))).

(** The block once the three watchers are stopped on the loop whose
    clock shows [now]. *)
Definition cleanup_stopped (now : Q) (b : redisLibevEvents) : redisLibevEvents :=
  timer_stop_block now (io_stop_block W_wev (io_stop_block W_rev (cleanup_detached b))).

(** The content of the block when it is released. *)
Definition cleanup_released (L : gmap positive ev_loop) (b : redisLibevEvents)
  : redisLibevEvents :=
  set_timing false (set_writing false (set_reading false
    match loop b with
    | Some l => cleanup_stopped (mn_now (loop_in L l)) b
    | None => cleanup_detached b
    end)).

Definition cleanup_loops (p : ptr) (b : redisLibevEvents) (L : gmap positive ev_loop)
  : gmap positive ev_loop :=
  match loop b with
  | Some l =>
      let b0 := cleanup_detached b in
      let b1 := io_stop_block W_rev b0 in
      let b2 := io_stop_block W_wev b1 in
      io_stop_loops l (p, W_timer) b2
        (io_stop_loops l (p, W_wev) b1 (io_stop_loops l (p, W_rev) b0 L))
  | None => L
  end.

Definition cleanup_ctxs (b : redisLibevEvents) (C : gmap positive redisAsyncContext)
  : gmap positive redisAsyncContext :=
  match context b with
  | Some c =>
      match C !! c with
      | Some x => <[c := set_ev_data None x]> C
      | None => C
      end
  | None => C
  end.

(** The trace of one cleanup of the block [b] at [p], in program order;
    [b'] is what the block holds when released. *)
Definition cleanup_trace (p : ptr) (b b' : redisLibevEvents) : list event :=
  match context b with
  | Some c => [St_ev_data c None]
  | None => []
  end
  ++ [St_loop p None; St_context p None;
      St_data (p, W_rev) None; St_data (p, W_wev) None; St_data (p, W_timer) None]
  ++ match loop b with
     | Some l =>
         [Call_ev_io_stop l (p, W_rev); Call_ev_io_stop l (p, W_wev);
          Call_ev_timer_stop l (p, W_timer)]
     | None => []
     end
  ++ [St_reading p false; St_writing p false; St_timing p false; Call_Safefree p b'].


(** * Vocabulary of the statements *)

(** What a computation added to the trace. *)
Definition trace_since (w w' : world) : list event :=
  drop (length (log w)) (log w').

(** A store that nulls a back-reference: [e->context], [e->loop], a
    watcher's [data], or the context's [ev.data]. *)
Definition is_backref_null (x : event) : bool :=
  match x with
  | St_context _ None | St_loop _ None | St_data _ None | St_ev_data _ None => true
  | _ => false
  end.

(** A call that unregisters a watcher from a loop. *)
Definition is_unregister (x : event) : bool :=
  match x with
  | Call_ev_io_stop _ _ | Call_ev_timer_stop _ _ => true
  | _ => false
  end.

Definition is_release (x : event) : bool :=
  match x with
  | Call_Safefree _ _ => true
  | _ => false
  end.

(** No back-reference is nulled once a watcher has been unregistered. *)
Fixpoint nulled_before_unregistered (tr : list event) : bool :=
  match tr with
  | [] => true
  | x :: tr' =>
      if is_unregister x then forallb (fun y => negb (is_backref_null y)) tr'
      else nulled_before_unregistered tr'
  end.

(** The order of the first two steps as the specification lists them:
    [state.context] is nulled, then the context's hook-table
    back-reference is cleared. *)
Definition spec_cleanup_order (w : world) (p : ptr) : Prop :=
  forall b c w',
    heap w !! p = Some b -> context b = Some c ->
    redisLibevCleanup (Some p) w = Done tt w' ->
    exists i j : nat,
      (i < j)%nat /\
      trace_since w w' !! i = Some (St_context p None) /\
      trace_since w w' !! j = Some (St_ev_data c None).

(** [n] times the same computation. *)
Fixpoint repeatM (n : nat) (m : M unit) : M unit :=
  match n with
  | O => ret tt
  | S n' => m ;; repeatM n' m
  end.

(** ** A concrete run *)

(** Storage as [Newx] may hand it out: every field holds some value. *)
Definition ex_junk : redisLibevEvents :=
  {| context := Some 99%positive; loop := Some 98%positive;
     reading := true; writing := false; timing := true;
     rev := Ev_io (Ev_watcher true 9 (Some 97%positive) None) 3 4;
     wev := Ev_io (Ev_watcher false 8 None (Some FN_Cleanup)) 5 6;
     timer := Ev_timer (Ev_watcher true 7 None None) 3 4;
     priority := 77 |}.

Definition ex_ctx : redisAsyncContext :=
  RedisAsyncContext 7 (Ev_hooks None None None None None None None).

(** One client context at address 1, nothing attached. *)
Definition ex_init : world := World ∅ {[ 1%positive := ex_ctx ]} ∅ [].

Definition after {A} (m : M A) (w : world) : world :=
  match m w with
  | Done _ w' => w'
  | Fault => w
  end.

(** The context attached to the loop at 5; the block is at 10. *)
Definition ex_attached : world :=
  after (redisLibevAttach (Some (10%positive, ex_junk)) (Some 5%positive) 1%positive) ex_init.

Definition block_at (w : world) (p : ptr) : redisLibevEvents :=
  default ex_junk (heap w !! p).

Definition ctx_at (w : world) (ac : ctx_ptr) : redisAsyncContext :=
  default ex_ctx (ctxs w !! ac).

Definition tv0 : timeval := Timeval 0 0.

(** A client handler that disconnects: hiredis runs the cleanup hook of
    the context. *)
Definition ex_disconnect (c : ctx_ptr) : M unit := call_hook H_cleanup c tv0.


(** ** Sequences of add and del hooks *)

Inductive io_kind := Read | Write.

Definition watcher_of (k : io_kind) : wfield :=
  match k with
  | Read => W_rev
  | Write => W_wev
  end.

Inductive io_op := Add | Del.

Global Instance io_op_eq_dec : EqDecision io_op.
Proof. solve_decision. Defined.

(** [addRead], [delRead], [addWrite] or [delWrite]. *)
Definition run_io (k : io_kind) (privdata : option ptr) (o : io_op) : M unit :=
  match k, o with
  | Read, Add => redisLibevAddRead privdata
  | Read, Del => redisLibevDelRead privdata
  | Write, Add => redisLibevAddWrite privdata
  | Write, Del => redisLibevDelWrite privdata
  end.

Fixpoint run_ios (k : io_kind) (privdata : option ptr) (os : list io_op) : M unit :=
  match os with
  | [] => ret tt
  | o :: os' => run_io k privdata o ;; run_ios k privdata os'
  end.

(** The registrations ([Add]) and unregistrations ([Del]) of the watcher
    [x] that a trace holds, in order. *)
Definition io_call (x : wptr) (e : event) : option io_op :=
  match e with
  | Call_ev_io_start _ y => if decide (y = x) then Some Add else None
  | Call_ev_io_stop _ y => if decide (y = x) then Some Del else None
  | _ => None
  end.

Definition io_calls (x : wptr) (tr : list event) : list io_op := omap (io_call x) tr.

(** Registrations and unregistrations alternate. *)
Fixpoint alternating (l : list io_op) : bool :=
  match l with
  | a :: l' =>
      match l' with
      | b :: _ => negb (bool_decide (a = b)) && alternating l'
      | [] => true
      end
  | [] => true
  end.

(** The flag that the most recent call of a sequence asks for; the flag
    [fl] it started from when the sequence is empty. *)
Definition intent (fl : bool) (os : list io_op) : bool :=
  match last os with
  | Some Add => true
  | Some Del => false
  | None => fl
  end.

(** The loop calls of a sequence started with the flag [fl]: a call
    only where the request changes the flag. *)
Fixpoint expected_calls (fl : bool) (os : list io_op) : list io_op :=
  match os with
  | [] => []
  | Add :: os' => if fl then expected_calls true os' else Add :: expected_calls true os'
  | Del :: os' => if fl then Del :: expected_calls false os' else expected_calls false os'
  end.

(** ** Reachable stores *)

(** libev refreshes the cached clock of a loop ([time_update]). *)
Definition set_clock (l : loop_ptr) (now : Q) : M unit :=
  let* lp := get_loop l in
  put_loop l {| mn_now := now; started := started lp |}.

(** The operations on the adapter, and the clock of a loop moving. *)
Inductive op :=
| Op_attach (nx : option (positive * redisLibevEvents)) (loop_ : option loop_ptr)
    (ac : ctx_ptr)
| Op_addRead (privdata : option ptr)
| Op_delRead (privdata : option ptr)
| Op_addWrite (privdata : option ptr)
| Op_delWrite (privdata : option ptr)
| Op_scheduleTimer (privdata : option ptr) (tv : timeval)
| Op_setPriority (ac : ctx_ptr) (pri : Z)
| Op_cleanup (privdata : option ptr)
| Op_clock (l : loop_ptr) (now : Q).

Definition run_op (o : op) : M unit :=
  match o with
  | Op_attach nx loop_ ac => let* _ := redisLibevAttach nx loop_ ac in ret tt
  | Op_addRead d => redisLibevAddRead d
  | Op_delRead d => redisLibevDelRead d
  | Op_addWrite d => redisLibevAddWrite d
  | Op_delWrite d => redisLibevDelWrite d
  | Op_scheduleTimer d tv => redisLibevSetTimeout d tv
  | Op_setPriority ac pri => redisLibevSetPriority ac pri
  | Op_cleanup d => redisLibevCleanup d
  | Op_clock l now => set_clock l now
  end.

(** The allocator never hands out a block that is live. *)
Definition fresh_alloc (w : world) (o : op) : Prop :=
  match o with
  | Op_attach (Some (p, _)) _ _ => heap w !! p = None
  | _ => True
  end.

(** The stores reached from one with no adapter block and no watcher
    started, by operations that do not fault. *)
Inductive reachable : world -> Prop :=
| reach_init w :
    heap w = ∅ -> (forall l x, ~ reg (loops w) l x) -> reachable w
| reach_step w o w' :
    reachable w -> fresh_alloc w o -> run_op o w = Done tt w' -> reachable w'.

(** The watcher in field [f] of the block at [p] is started on the
    block's loop. *)
Definition registered (w : world) (p : ptr) (f : wfield) : Prop :=
  exists b l, heap w !! p = Some b /\ loop b = Some l /\ reg (loops w) l (p, f).

(** The invariant as the specification states it. *)
Definition spec_flags_mirror_registration (w : world) : Prop :=
  forall p b,
    heap w !! p = Some b ->
    (reading b = true <-> registered w p W_rev) /\
    (writing b = true <-> registered w p W_wev) /\
    (timing b = true <-> registered w p W_timer).

(** [ev_io_start] has cleared the [EV__IOFDSET] mark of [w]. *)
Definition fdset_cleared (w : ev_io) : Prop :=
  Z.land (events w) (Z.lnot Libev.EV__IOFDSET) = events w.

(** A block whose flags agree with libev's [active] marks. *)
Definition wf_block (b : redisLibevEvents) : Prop :=
  reading b = active (io_base (rev b)) /\
  writing b = active (io_base (wev b)) /\
  active (tm_base (timer b)) = timing b && Libev.tstamp_true (repeat (timer b)) /\
  (loop b = None -> forall f, active (base_of f b) = false) /\
  (active (io_base (rev b)) = true -> fdset_cleared (rev b)) /\
  (active (io_base (wev b)) = true -> fdset_cleared (wev b)).

Definition Inv (w : world) : Prop :=
  (forall p b, heap w !! p = Some b -> wf_block b) /\
  (forall l p f,
      reg (loops w) l (p, f) <->
      exists b, heap w !! p = Some b /\ loop b = Some l /\ active (base_of f b) = true).

(** The attached context with a timer of zero seconds scheduled. *)
Definition ex_timer0 : world :=
  after (redisLibevSetTimeout (Some 10%positive) tv0) ex_attached.

(** The started watchers of the block at [p] are those that are active
    in [b], on the loop of [b]. *)
Definition agrees (p : ptr) (b : redisLibevEvents) (L : gmap positive ev_loop) : Prop :=
  forall l f, reg L l (p, f) <-> loop b = Some l /\ active (base_of f b) = true.

(** [L'] and [L] have the same watchers of other blocks started. *)
Definition same_others (p : ptr) (L L' : gmap positive ev_loop) : Prop :=
  forall l q f, q <> p -> (reg L' l (q, f) <-> reg L l (q, f)).

(** The attached context with the read watcher started. *)
Definition ex_reading : world :=
  after (redisLibevAddRead (Some 10%positive)) ex_attached.

(** No call to libev in a trace. *)
Definition is_loop_call (x : event) : bool :=
  match x with
  | Call_ev_io_start _ _ | Call_ev_io_stop _ _
  | Call_ev_timer_stop _ _ | Call_ev_timer_again _ _ => true
  | _ => false
  end.

(** The deadline of the timer is what it was: the timer keeps its
    remaining duration. *)
Definition spec_setPriority_keeps_deadline (w : world) (ac : ctx_ptr) (pri : Z) : Prop :=
  forall x p b w' b',
    ctxs w !! ac = Some x -> ev_data (ev x) = Some p -> heap w !! p = Some b ->
    redisLibevSetPriority ac pri w = Done tt w' -> heap w' !! p = Some b' ->
    (at_ (timer b') == at_ (timer b))%Q.

(** The attached context with a timer of ten seconds scheduled when the
    clock of the loop shows 0, and then the clock at 9. *)
Definition tv10 : timeval := Timeval 10 0.

Definition ex_timer10 : world :=
  after (redisLibevSetTimeout (Some 10%positive) tv10) ex_attached.

Definition ex_timer10_late : world := after (set_clock 5%positive 9) ex_timer10.

(** The timer of the block at [p] is started and its deadline is not
    after the clock of its loop: it fires at the next iteration. *)
Definition fires_asap (w : world) (p : ptr) : Prop :=
  exists b l,
    heap w !! p = Some b /\ loop b = Some l /\
    reg (loops w) l (p, W_timer) /\
    (at_ (timer b) <= mn_now (loop_at w l))%Q.

(** The duration as the specification has it: seconds plus fractional
    seconds. *)
Definition spec_duration (tv : timeval) : Q :=
  (inject_Z (tv_sec tv) + inject_Z (tv_usec tv) / 1000000)%Q.

(** A zero or negative duration means "fire as soon as possible". *)
Definition spec_nonpositive_fires_asap (w : world) (p : ptr) (tv : timeval) : Prop :=
  (spec_duration tv <= 0)%Q ->
  forall w', redisLibevSetTimeout (Some p) tv w = Done tt w' -> fires_asap w' p.

(** [scheduleTimer] with [tv1], the clock of the loop moving to [now],
    [scheduleTimer] with [tv2]. *)
Definition schedule_twice (p : ptr) (l : loop_ptr) (tv1 : timeval) (now : Q)
    (tv2 : timeval) : M unit :=
  redisLibevSetTimeout (Some p) tv1 ;;
  set_clock l now ;;
  redisLibevSetTimeout (Some p) tv2.

(** The hook table that [redisLibevAttach] leaves in the context, for
    the block at [p]. *)
Definition installed_hooks (p : ptr) : ev_hooks :=
  {| ev_data := Some p;
     addRead := Some FN_AddRead; delRead := Some FN_DelRead;
     addWrite := Some FN_AddWrite; delWrite := Some FN_DelWrite;
     cleanup := Some FN_Cleanup; scheduleTimer := Some FN_SetTimeout |}.

(** A store of false to [timing], or a call of [ev_timer_stop]. *)
Definition clears_timing (x : event) : bool :=
  match x with
  | St_timing _ false | Call_ev_timer_stop _ _ => true
  | _ => false
  end.

(** ** What the hooks do to a block, to the loops and to the trace *)

Definition flag_of (f : wfield) (b : redisLibevEvents) : bool :=
  match f with
  | W_rev => reading b
  | W_wev => writing b
  | W_timer => timing b
  end.

Definition set_flag (f : wfield) (v : bool) (b : redisLibevEvents) : redisLibevEvents :=
  match f with
  | W_rev => set_reading v b
  | W_wev => set_writing v b
  | W_timer => set_timing v b
  end.

Definition St_flag (f : wfield) (p : ptr) (v : bool) : event :=
  match f with
  | W_rev => St_reading p v
  | W_wev => St_writing p v
  | W_timer => St_timing p v
  end.

(** [redisLibevAddRead] ([f] is [W_rev]) and [redisLibevAddWrite]
    ([W_wev]). *)
Definition add_block (f : wfield) (b : redisLibevEvents) : redisLibevEvents :=
  match loop b with
  | Some _ => if flag_of f b then b else io_start_block f (set_flag f true b)
  | None => b
  end.

Definition add_loops (f : wfield) (p : ptr) (b : redisLibevEvents)
    (L : gmap positive ev_loop) : gmap positive ev_loop :=
  match loop b with
  | Some l => if flag_of f b then L else io_start_loops l (p, f) (set_flag f true b) L
  | None => L
  end.

Definition add_trace (f : wfield) (p : ptr) (b : redisLibevEvents) : list event :=
  match loop b with
  | Some l => if flag_of f b then [] else [St_flag f p true; Call_ev_io_start l (p, f)]
  | None => []
  end.

(** [redisLibevDelRead] and [redisLibevDelWrite]. *)
Definition del_block (f : wfield) (b : redisLibevEvents) : redisLibevEvents :=
  if flag_of f b then
    match loop b with
    | Some _ => io_stop_block f (set_flag f false b)
    | None => set_flag f false b
    end
  else b.

Definition del_loops (f : wfield) (p : ptr) (b : redisLibevEvents)
    (L : gmap positive ev_loop) : gmap positive ev_loop :=
  if flag_of f b then
    match loop b with
    | Some l => io_stop_loops l (p, f) (set_flag f false b) L
    | None => L
    end
  else L.

Definition del_trace (f : wfield) (p : ptr) (b : redisLibevEvents) : list event :=
  if flag_of f b then
    St_flag f p false ::
    match loop b with
    | Some l => [Call_ev_io_stop l (p, f)]
    | None => []
    end
  else [].

(** [redisLibevSetTimeout]: the block before [ev_timer_again]. *)
Definition setTimeout_armed (p : ptr) (tv : timeval) (b : redisLibevEvents)
  : redisLibevEvents :=
  map_timer (Libev.tm_with_repeat (timeval_seconds tv))
    (if timing b then b
     else map_base W_timer (Libev.set_data (Some p))
            (map_base W_timer (Libev.ev_init FN_Timeout) (set_timing true b))).

Definition setTimeout_block (p : ptr) (tv : timeval) (L : gmap positive ev_loop)
    (b : redisLibevEvents) : redisLibevEvents :=
  match loop b with
  | Some l => timer_again_block (mn_now (loop_in L l)) (setTimeout_armed p tv b)
  | None => b
  end.

Definition setTimeout_loops (p : ptr) (tv : timeval) (b : redisLibevEvents)
    (L : gmap positive ev_loop) : gmap positive ev_loop :=
  match loop b with
  | Some l => timer_again_loops l (p, W_timer) (setTimeout_armed p tv b) L
  | None => L
  end.

Definition setTimeout_trace (p : ptr) (tv : timeval) (b : redisLibevEvents) : list event :=
  match loop b with
  | Some l =>
      (if timing b then []
       else [St_timing p true; Call_ev_init (p, W_timer) FN_Timeout;
             St_data (p, W_timer) (Some p)])
      ++ [St_repeat p (timeval_seconds tv); Call_ev_timer_again l (p, W_timer)]
  | None => []
  end.

(** [redisLibevSetPriority] on the state [ac->ev.data]: the block after
    the read watcher, after the write watcher, after the timer. *)
Definition setPriority_io (f : wfield) (pri : Z) (b : redisLibevEvents)
  : redisLibevEvents :=
  if flag_of f b then
    io_start_block f (map_base f (Libev.ev_set_priority pri) (io_stop_block f b))
  else map_base f (Libev.ev_set_priority pri) b.

Definition setPriority_io_loops (l : loop_ptr) (f : wfield) (p : ptr) (pri : Z)
    (b : redisLibevEvents) (L : gmap positive ev_loop) : gmap positive ev_loop :=
  if flag_of f b then
    io_start_loops l (p, f) (map_base f (Libev.ev_set_priority pri) (io_stop_block f b))
      (io_stop_loops l (p, f) b L)
  else L.

Definition setPriority_timer (now : Q) (pri : Z) (b : redisLibevEvents)
  : redisLibevEvents :=
  if timing b then
    timer_again_block now
      (map_base W_timer (Libev.ev_set_priority pri) (timer_stop_block now b))
  else map_base W_timer (Libev.ev_set_priority pri) b.

Definition setPriority_timer_loops (l : loop_ptr) (p : ptr) (now : Q) (pri : Z)
    (b : redisLibevEvents) (L : gmap positive ev_loop) : gmap positive ev_loop :=
  if timing b then
    timer_again_loops l (p, W_timer)
      (map_base W_timer (Libev.ev_set_priority pri) (timer_stop_block now b))
      (io_stop_loops l (p, W_timer) b L)
  else L.

Definition setPriority_block (pri : Z) (L : gmap positive ev_loop)
    (b : redisLibevEvents) : redisLibevEvents :=
  match loop b with
  | Some l =>
      setPriority_timer (mn_now (loop_in L l)) pri
        (setPriority_io W_wev pri (setPriority_io W_rev pri (set_priority pri b)))
  | None => b
  end.

Definition setPriority_loops (p : ptr) (pri : Z) (b : redisLibevEvents)
    (L : gmap positive ev_loop) : gmap positive ev_loop :=
  match loop b with
  | Some l =>
      let b1 := set_priority pri b in
      let b2 := setPriority_io W_rev pri b1 in
      let b3 := setPriority_io W_wev pri b2 in
      setPriority_timer_loops l p (mn_now (loop_in L l)) pri b3
        (setPriority_io_loops l W_wev p pri b2
           (setPriority_io_loops l W_rev p pri b1 L))
  | None => L
  end.

Definition setPriority_io_trace (l : loop_ptr) (f : wfield) (p : ptr) (pri : Z)
    (b : redisLibevEvents) : list event :=
  if flag_of f b then
    [Call_ev_io_stop l (p, f); Call_ev_set_priority (p, f) pri;
     Call_ev_io_start l (p, f)]
  else [Call_ev_set_priority (p, f) pri].

Definition setPriority_trace (p : ptr) (pri : Z) (b : redisLibevEvents) : list event :=
  match loop b with
  | Some l =>
      [St_priority p pri]
      ++ setPriority_io_trace l W_rev p pri b
      ++ setPriority_io_trace l W_wev p pri b
      ++ (if timing b then
            [Call_ev_timer_stop l (p, W_timer); Call_ev_set_priority (p, W_timer) pri;
             Call_ev_timer_again l (p, W_timer)]
          else [Call_ev_set_priority (p, W_timer) pri])
  | None => []
  end.

(** [redisLibevAttach] when it succeeds: the new block and the context. *)
Definition attach_block (p : ptr) (junk : redisLibevEvents) (loop_ : option loop_ptr)
    (ac : ctx_ptr) (fd_ : Z) : redisLibevEvents :=
  {| context := Some ac; loop := loop_;
     reading := false; writing := false; timing := false;
     rev := {| io_base := {| active := false; w_priority := 0; data := Some p;
                             cb := Some FN_ReadEvent |};
               fd := fd_; events := Z.lor Libev.EV_READ Libev.EV__IOFDSET |};
     wev := {| io_base := {| active := false; w_priority := 0; data := Some p;
                             cb := Some FN_WriteEvent |};
               fd := fd_; events := Z.lor Libev.EV_WRITE Libev.EV__IOFDSET |};
     timer := {| tm_base := {| active := false; w_priority := 0; data := Some p;
                               cb := Some FN_Timeout |};
                 at_ := at_ (timer junk); repeat := repeat (timer junk) |};
     priority := 0 |}.

Definition attach_ctx (p : ptr) (x : redisAsyncContext) : redisAsyncContext :=
  {| c_fd := c_fd x;
     ev := {| ev_data := Some p;
              addRead := Some FN_AddRead; delRead := Some FN_DelRead;
              addWrite := Some FN_AddWrite; delWrite := Some FN_DelWrite;
              cleanup := Some FN_Cleanup; scheduleTimer := Some FN_SetTimeout |} |}.

Definition attach_trace (p : ptr) (loop_ : option loop_ptr) (ac : ctx_ptr) (fd_ : Z)
  : list event :=
  [Call_Newx p; St_context p (Some ac); St_loop p loop_;
   St_timing p false; St_writing p false; St_reading p false; St_priority p 0;
   St_data (p, W_rev) (Some p); St_data (p, W_wev) (Some p);
   St_ev_hook ac H_addRead FN_AddRead; St_ev_hook ac H_delRead FN_DelRead;
   St_ev_hook ac H_addWrite FN_AddWrite; St_ev_hook ac H_delWrite FN_DelWrite;
   St_ev_hook ac H_cleanup FN_Cleanup; St_ev_hook ac H_scheduleTimer FN_SetTimeout;
   St_ev_data ac (Some p);
   Call_ev_io_init (p, W_rev) FN_ReadEvent fd_ Libev.EV_READ;
   Call_ev_io_init (p, W_wev) FN_WriteEvent fd_ Libev.EV_WRITE;
   Call_ev_init (p, W_timer) FN_Timeout; St_data (p, W_timer) (Some p)].

(** One add or del hook on the watcher [f]. *)
Definition io_block (f : wfield) (o : io_op) (b : redisLibevEvents) : redisLibevEvents :=
  match o with
  | Add => add_block f b
  | Del => del_block f b
  end.

Definition io_loops (f : wfield) (o : io_op) (p : ptr) (b : redisLibevEvents)
    (L : gmap positive ev_loop) : gmap positive ev_loop :=
  match o with
  | Add => add_loops f p b L
  | Del => del_loops f p b L
  end.

Definition io_trace (f : wfield) (o : io_op) (p : ptr) (b : redisLibevEvents)
  : list event :=
  match o with
  | Add => add_trace f p b
  | Del => del_trace f p b
  end.


(** * Further vocabulary *)

(** ** [redisLibevStopTimer] on a block *)

Definition stopTimer_block (L : gmap positive ev_loop) (b : redisLibevEvents)
  : redisLibevEvents :=
  if timing b then
    match loop b with
    | Some l => timer_stop_block (mn_now (loop_in L l)) (set_timing false b)
    | None => set_timing false b
    end
  else b.

Definition stopTimer_loops (p : ptr) (b : redisLibevEvents) (L : gmap positive ev_loop)
  : gmap positive ev_loop :=
  if timing b then
    match loop b with
    | Some l => io_stop_loops l (p, W_timer) (set_timing false b) L
    | None => L
    end
  else L.

Definition stopTimer_trace (p : ptr) (b : redisLibevEvents) : list event :=
  if timing b then
    St_timing p false ::
    match loop b with
    | Some l => [Call_ev_timer_stop l (p, W_timer)]
    | None => []
    end
  else [].

(** ** Ownership *)

(** The watchers of the block at [p] point back at the block and carry
    the adapter's callbacks. *)
Definition own_block (p : ptr) (b : redisLibevEvents) : Prop :=
  (forall f, data (base_of f b) = Some p) /\
  cb (io_base (rev b)) = Some FN_ReadEvent /\
  cb (io_base (wev b)) = Some FN_WriteEvent /\
  cb (tm_base (timer b)) = Some FN_Timeout.

(** Every live block is owned by a live context: the block refers to
    the context, the context's back-reference is the block, and both
    I/O watchers watch the context's descriptor. *)
Definition owned (w : world) : Prop :=
  forall p b,
    heap w !! p = Some b ->
    own_block p b /\
    exists ac x,
      context b = Some ac /\ ctxs w !! ac = Some x /\ ev_data (ev x) = Some p /\
      fd (rev b) = c_fd x /\ fd (wev b) = c_fd x.

(** ** Which block an operation works on *)

Definition acts_on (w : world) (o : op) : option ptr :=
  match o with
  | Op_attach (Some (p, _)) _ _ => Some p
  | Op_attach None _ _ => None
  | Op_addRead d | Op_delRead d | Op_addWrite d | Op_delWrite d
  | Op_scheduleTimer d _ | Op_cleanup d => d
  | Op_setPriority ac _ =>
      match ctxs w !! ac with
      | Some x => ev_data (ev x)
      | None => None
      end
  | Op_clock _ _ => None
  end.

(** ** Sequences used in the statements *)

(** [redisLibevAttach] and then the first [scheduleTimer]. *)
Definition attach_then_schedule (p : ptr) (junk : redisLibevEvents) (l : loop_ptr)
    (ac : ctx_ptr) (tv : timeval) : M unit :=
  let* _ := redisLibevAttach (Some (p, junk)) (Some l) ac in
  redisLibevSetTimeout (Some p) tv.

(** [redisLibevAttach] and then the cleanup hook of the context. *)
Definition attach_then_cleanup (p : ptr) (junk : redisLibevEvents)
    (loop_ : option loop_ptr) (ac : ctx_ptr) : M unit :=
  let* _ := redisLibevAttach (Some (p, junk)) loop_ ac in
  call_hook H_cleanup ac tv0.

(** ** More concrete runs *)

(** Other storage that [Newx] may hand out. *)
Definition ex_junk' : redisLibevEvents :=
  {| context := None; loop := Some 3%positive;
     reading := false; writing := true; timing := true;
     rev := Ev_io (Ev_watcher false (-5) None (Some FN_Timeout)) 8 9;
     wev := Ev_io (Ev_watcher true 0 (Some 1%positive) None) 0 1;
     timer := Ev_timer (Ev_watcher true 1 (Some 2%positive) (Some FN_AddRead)) (7 # 3) (-1);
     priority := -3 |}.

(** Two client contexts, at addresses 1 and 2, nothing attached. *)
Definition ex_init2 : world :=
  World ∅ {[ 1%positive := ex_ctx; 2%positive := RedisAsyncContext 8 (ev ex_ctx) ]} ∅ [].

(** Both attached to the loop at 5, with blocks at 10 and 20; the first
    reads, the second has a timer of ten seconds. *)
Definition ex_two_a : world :=
  after (redisLibevAttach (Some (10%positive, ex_junk)) (Some 5%positive) 1%positive)
    ex_init2.

Definition ex_two_b : world :=
  after (redisLibevAttach (Some (20%positive, ex_junk')) (Some 5%positive) 2%positive)
    ex_two_a.

Definition ex_two_c : world := after (redisLibevAddRead (Some 10%positive)) ex_two_b.

Definition ex_two : world := after (redisLibevSetTimeout (Some 20%positive) tv10) ex_two_c.

(** The attached context after its cleanup hook has run. *)
Definition ex_cleaned : world := after (call_hook H_cleanup 1%positive tv0) ex_attached.

(** ** Hooks and the blocks they reach *)

(** The owner of every live block holds the hook table that
    [redisLibevAttach] wrote for that block. *)
Definition hooked (w : world) : Prop :=
  forall p b ac x,
    heap w !! p = Some b -> context b = Some ac -> ctxs w !! ac = Some x ->
    ev x = installed_hooks p.

(** The operation that a slot of the installed table stands for. *)
Definition hook_op (s : hook_slot) (p : ptr) (tv : timeval) : op :=
  match s with
  | H_addRead => Op_addRead (Some p)
  | H_delRead => Op_delRead (Some p)
  | H_addWrite => Op_addWrite (Some p)
  | H_delWrite => Op_delWrite (Some p)
  | H_cleanup => Op_cleanup (Some p)
  | H_scheduleTimer => Op_scheduleTimer (Some p) tv
  end.

(** The context that an operation writes to. *)
Definition ctx_touched (w : world) (o : op) : option ctx_ptr :=
  match o with
  | Op_attach _ _ ac => Some ac
  | Op_cleanup (Some p) =>
      match heap w !! p with
      | Some b => context b
      | None => None
      end
  | _ => None
  end.

(** The other I/O watcher. *)
Definition other_io (k : io_kind) : wfield :=
  match k with
  | Read => W_wev
  | Write => W_rev
  end.

(** ** Frames *)

(** The blocks and the started watchers that a step does not act on. *)
Definition block_frame (w w' : world) (q : ptr) : Prop :=
  heap w' !! q = heap w !! q /\
  forall l f, reg (loops w') l (q, f) <-> reg (loops w) l (q, f).

(** The contexts that a step does not write to, and the descriptors. *)
Definition ctx_frame (w w' : world) (t : option ctx_ptr) : Prop :=
  (forall c, t <> Some c -> ctxs w' !! c = ctxs w !! c) /\
  (forall c x, ctxs w !! c = Some x ->
               exists x', ctxs w' !! c = Some x' /\ c_fd x' = c_fd x).

(** ** Where the stores and the calls of an operation go *)

(** The event [e] writes to the block at [p], calls libev on a watcher
    of that block (an I/O function on an I/O watcher, a timer function
    on the timer) and on the loop [l], or writes to the context [c]. *)
Definition event_in (p : ptr) (l : option loop_ptr) (c : option ctx_ptr) (e : event)
  : Prop :=
  match e with
  | St_context q _ | St_loop q _ | St_reading q _ | St_writing q _ | St_timing q _
  | St_priority q _ | St_repeat q _ | Call_Newx q | Call_Safefree q _ => q = p
  | St_data x _ | Call_ev_init x _ | Call_ev_set_priority x _ => x.1 = p
  | Call_ev_io_init x _ _ _ => x.1 = p /\ x.2 <> W_timer
  | St_ev_data ac _ | St_ev_hook ac _ _ => c = Some ac
  | Call_ev_io_start l' x | Call_ev_io_stop l' x =>
      x.1 = p /\ x.2 <> W_timer /\ l = Some l'
  | Call_ev_timer_stop l' x | Call_ev_timer_again l' x =>
      x = (p, W_timer) /\ l = Some l'
  end.

(** The block an operation is given, with the loop and the context
    that the block names before the operation; for an attach, the new
    block with the loop and the context of the call. *)
Definition op_view (w : world) (o : op)
  : option (ptr * option loop_ptr * option ctx_ptr) :=
  match o with
  | Op_attach (Some (p, _)) loop_ ac => Some (p, loop_, Some ac)
  | Op_attach None _ _ => None
  | Op_clock _ _ => None
  | _ =>
      match acts_on w o with
      | Some p =>
          match heap w !! p with
          | Some b => Some (p, loop b, context b)
          | None => None
          end
      | None => None
      end
  end.

(** * The conversion of a [timeval]

    ** Rounding keeps the sign *)

Lemma rne_ge_div n d : (0 < d)%Z -> (n / d <= Double.rne n d)%Z.
Proof.
  intros Hd. unfold Double.rne.
  destruct (2 * (n mod d) ?= d)%Z; [destruct (Z.even _)| |]; lia.
Qed.

Lemma rne_nonneg n d : (0 <= n)%Z -> (0 < d)%Z -> (0 <= Double.rne n d)%Z.
Proof.
  intros Hn Hd. pose proof (rne_ge_div n d Hd). pose proof (Z.div_pos n d Hn Hd). lia.
Qed.

Lemma rne_half n d : (0 < d <= n)%Z -> (n <= 2 * (Double.rne n d * d))%Z.
Proof.
  intros [Hd Hn]. pose proof (rne_ge_div n d Hd) as Hr.
  pose proof (Z.div_mod n d ltac:(lia)) as Hdm.
  pose proof (Z.mod_pos_bound n d Hd) as Hm.
  assert (1 <= n / d)%Z by (apply Z.div_le_lower_bound; lia).
  nia.
Qed.

Lemma ilog2_lower n d :
  if (0 <=? Double.ilog2 n d)%Z
  then (Zpos d * 2 ^ Double.ilog2 n d <= Zpos n)%Z
  else (Zpos d <= Zpos n * 2 ^ (- Double.ilog2 n d))%Z.
Proof.
  unfold Double.ilog2.
  pose proof (Z.log2_spec (Zpos n) ltac:(lia)) as [Hn1 Hn2].
  pose proof (Z.log2_spec (Zpos d) ltac:(lia)) as [Hd1 Hd2].
  pose proof (Z.log2_nonneg (Zpos n)) as Ha.
  pose proof (Z.log2_nonneg (Zpos d)) as Hb.
  set (a := Z.log2 (Zpos n)) in *. set (b := Z.log2 (Zpos d)) in *.
  destruct (0 <=? a - b)%Z eqn:Hk.
  - apply Z.leb_le in Hk.
    destruct (Zpos d * 2 ^ (a - b) <=? Zpos n)%Z eqn:Ht.
    + rewrite (proj2 (Z.leb_le _ _) Hk). by apply Z.leb_le.
    + apply Z.leb_gt in Ht.
      destruct (0 <=? a - b - 1)%Z eqn:Hk1.
      * apply Z.leb_le in Hk1.
        assert (2 ^ Z.succ b * 2 ^ (a - b - 1) = 2 ^ a)%Z as E.
        { rewrite <- Z.pow_add_r by lia. f_equal. lia. }
        assert (0 < 2 ^ (a - b - 1))%Z by (apply Z.pow_pos_nonneg; lia).
        nia.
      * apply Z.leb_gt in Hk1. assert (a - b = 0)%Z as E by lia.
        replace (- (a - b - 1))%Z with 1%Z by lia.
        rewrite E in Ht. change (2 ^ 0)%Z with 1%Z in Ht.
        replace (Z.succ b) with (a + 1)%Z in Hd2 by lia.
        rewrite Z.pow_add_r in Hd2 by lia. change (2 ^ 1)%Z with 2%Z in *. lia.
  - apply Z.leb_gt in Hk.
    destruct (Zpos d <=? Zpos n * 2 ^ (- (a - b)))%Z eqn:Ht.
    + rewrite (proj2 (Z.leb_gt _ _) Hk). by apply Z.leb_le.
    + assert ((0 <=? a - b - 1)%Z = false) as -> by (apply Z.leb_gt; lia).
      assert (2 ^ a * 2 ^ (- (a - b - 1)) = 2 ^ Z.succ b)%Z as E.
      { rewrite <- Z.pow_add_r by lia. f_equal. lia. }
      assert (0 < 2 ^ (- (a - b - 1)))%Z by (apply Z.pow_pos_nonneg; lia).
      nia.
Qed.

Lemma round_pos_half n d :
  (Zpos d <= Zpos n * 2 ^ 1074)%Z ->
  (Zpos n # d <= 2 * Double.round_pos n d)%Q.
Proof.
  intros Hmin. unfold Double.round_pos, Double.prec, Double.emin.
  pose proof (ilog2_lower n d) as HL.
  set (il := Double.ilog2 n d) in *.
  set (e := Z.max (il - (53 - 1)) (-1074)).
  destruct (0 <=? e)%Z eqn:He.
  - apply Z.leb_le in He. assert (e = il - 52)%Z as Ee by lia.
    assert ((0 <=? il)%Z = true) as Hil by (apply Z.leb_le; lia).
    rewrite Hil in HL.
    assert (2 ^ e <= 2 ^ il)%Z by (apply Z.pow_le_mono_r; lia).
    assert (0 < 2 ^ e)%Z by (apply Z.pow_pos_nonneg; lia).
    pose proof (rne_half (Zpos n) (Zpos d * 2 ^ e) ltac:(nia)) as Hh.
    unfold Qle. cbn [Qnum Qden Qmult inject_Z]. nia.
  - apply Z.leb_gt in He.
    assert (0 < 2 ^ (- e))%Z as Hp by (apply Z.pow_pos_nonneg; lia).
    assert (Zpos d <= Zpos n * 2 ^ (- e))%Z as Hd.
    { destruct (Z.max_spec (il - (53 - 1)) (-1074)) as [[_ Hm]|[_ Hm]]; fold e in Hm.
      - rewrite Hm. exact Hmin.
      - destruct (0 <=? il)%Z eqn:Hil.
        + apply Z.leb_le in Hil.
          assert (0 < 2 ^ il)%Z by (apply Z.pow_pos_nonneg; lia). nia.
        + apply Z.leb_gt in Hil.
          replace (- e)%Z with (- il + 52)%Z by lia.
          rewrite Z.pow_add_r by lia.
          assert (0 < 2 ^ 52)%Z by (apply Z.pow_pos_nonneg; lia).
          assert (0 < 2 ^ (- il))%Z by (apply Z.pow_pos_nonneg; lia). nia. }
    pose proof (rne_half (Zpos n * 2 ^ (- e)) (Zpos d) ltac:(lia)) as Hh.
    rewrite Qred_correct.
    unfold Qle. cbn [Qnum Qden Qmult]. rewrite Pos.mul_1_l, Z2Pos.id by exact Hp. nia.
Qed.

Lemma round_pos_nonneg n d : (0 <= Double.round_pos n d)%Q.
Proof.
  unfold Double.round_pos. destruct (0 <=? _)%Z eqn:He.
  - apply Z.leb_le in He.
    assert (0 < 2 ^ Z.max (Double.ilog2 n d - (Double.prec - 1)) Double.emin)%Z as Hp
      by (apply Z.pow_pos_nonneg; lia).
    pose proof (rne_nonneg (Zpos n) (Zpos d * 2 ^ Z.max (Double.ilog2 n d - (Double.prec - 1)) Double.emin)
                  ltac:(lia) ltac:(nia)).
    unfold Qle. cbn [Qnum Qden inject_Z]. nia.
  - rewrite Qred_correct.
    assert (0 < 2 ^ (- Z.max (Double.ilog2 n d - (Double.prec - 1)) Double.emin))%Z as Hp.
    { apply Z.leb_gt in He. apply Z.pow_pos_nonneg; lia. }
    pose proof (rne_nonneg (Zpos n * 2 ^ (- Z.max (Double.ilog2 n d - (Double.prec - 1)) Double.emin))
                  (Zpos d) ltac:(nia) ltac:(lia)).
    unfold Qle. cbn [Qnum Qden]. lia.
Qed.

Lemma round_nonneg x : (0 <= x)%Q -> (0 <= Double.round x)%Q.
Proof.
  destruct x as [[|n|n] d]; intros Hx; unfold Double.round; cbn [Qnum Qden].
  - apply Qle_refl.
  - apply round_pos_nonneg.
  - unfold Qle in Hx. cbn in Hx. lia.
Qed.

(** A rational that is at least [1 / q], above the smallest double,
    loses at most half of its value. *)
Lemma round_lower x (q : positive) :
  (Zpos q <= 2 ^ 1074)%Z -> (1 # q <= x)%Q -> (1 # (2 * q) <= Double.round x)%Q.
Proof.
  intros Hq Hx. destruct x as [[|n|n] d]; unfold Qle in Hx; cbn in Hx; try lia.
  unfold Double.round. cbn [Qnum Qden].
  assert (Zpos d <= Zpos n * 2 ^ 1074)%Z as Hmin by nia.
  pose proof (round_pos_half n d Hmin) as Hh.
  assert (1 # q <= Zpos n # d)%Q as Hx' by (unfold Qle; cbn; lia).
  assert ((1 # (2 * q)) == (1 # 2) * (1 # q))%Q as E.
  { unfold Qeq, Qmult. cbn. lia. }
  rewrite E. clear E Hx Hmin.
  generalize dependent (Double.round_pos n d). generalize dependent (Z.pos n # d)%Q.
  generalize (1 # q)%Q. intros a b Hab r Hr. lra.
Qed.

Lemma small_above_min (q : positive) : (Zpos q <= 2 ^ 30)%Z -> (Zpos q <= 2 ^ 1074)%Z.
Proof.
  intros H. etransitivity; [exact H|]. apply Z.pow_le_mono_r; lia.
Qed.

Lemma timeval_seconds_sign tv :
  (0 <= tv_sec tv)%Z -> (0 <= tv_usec tv)%Z ->
  (0 <= timeval_seconds tv)%Q /\
  ((timeval_seconds tv == 0)%Q <-> tv_sec tv = 0%Z /\ tv_usec tv = 0%Z).
Proof.
  destruct tv as [s u]. cbn [tv_sec tv_usec]. intros Hs Hu.
  unfold timeval_seconds, Double.add, Double.div, Double.of_long. cbn [tv_sec tv_usec].
  unfold Qdiv. change (/ 1000000)%Q with (1 # 1000000)%Q.
  assert (0 <= Double.round (inject_Z s))%Q as Ha.
  { apply round_nonneg. unfold Qle. cbn. lia. }
  assert (0 <= Double.round (inject_Z u))%Q as Hb0.
  { apply round_nonneg. unfold Qle. cbn. lia. }
  assert (0 <= Double.round (Double.round (inject_Z u) * (1 # 1000000)))%Q as Hb.
  { apply round_nonneg. lra. }
  split; [apply round_nonneg; lra|].
  split.
  - intros Hz.
    destruct (Z.eq_dec s 0%Z) as [->|Hs0].
    + destruct (Z.eq_dec u 0%Z) as [->|Hu0]; [done|]. exfalso.
      assert (1 # 2 <= Double.round (inject_Z u))%Q as H1.
      { apply (round_lower _ 1%positive); [by apply small_above_min|]. unfold Qle. cbn. lia. }
      assert (1 # 4000000 <= Double.round (Double.round (inject_Z u) * (1 # 1000000)))%Q as H2.
      { apply (round_lower _ 2000000%positive); [by apply small_above_min|]. lra. }
      assert (1 # 8000000
              <= Double.round (Double.round (inject_Z 0%Z)
                               + Double.round (Double.round (inject_Z u) * (1 # 1000000))))%Q as H3.
      { apply (round_lower _ 4000000%positive); [by apply small_above_min|]. lra. }
      lra.
    + exfalso.
      assert (1 # 2 <= Double.round (inject_Z s))%Q as H1.
      { apply (round_lower _ 1%positive); [by apply small_above_min|]. unfold Qle. cbn. lia. }
      assert (1 # 4
              <= Double.round (Double.round (inject_Z s)
                               + Double.round (Double.round (inject_Z u) * (1 # 1000000))))%Q as H3.
      { apply (round_lower _ 2%positive); [by apply small_above_min|]. lra. }
      lra.
  - intros [-> ->]. reflexivity.
Qed.

(** The conversion is not the exact sum: a tenth of a second is stored
    as the double nearest to 1/10, and a sum may cancel to zero. *)
Lemma timeval_seconds_rounds :
  timeval_seconds (Timeval 0 100000) = (3602879701896397 # 36028797018963968)%Q /\
  timeval_seconds (Timeval 17179869184 (-17179869184000001)) = 0%Q /\
  timeval_seconds (Timeval 2 500000) = (5 # 2)%Q.
Proof. repeat split; vm_compute; reflexivity. Qed.
(** * Reasoning about computations *)

(** Computations are run on a store whose block at [p] is in view: the
    heap is written [<[p:=b]> h]. *)
Section Run.

Context (p : positive) (h : gmap positive redisLibevEvents).
Context (C : gmap positive redisAsyncContext) (L : gmap positive ev_loop).

Lemma load_ins {A} (f : redisLibevEvents -> A) b Lg :
  load p f (World (<[p:=b]> h) C L Lg) = Done (f b) (World (<[p:=b]> h) C L Lg).
Proof. unfold load; cbn [heap]. by rewrite lookup_insert_eq. Qed.

Lemma update_ins f b Lg :
  update p f (World (<[p:=b]> h) C L Lg) = Done tt (World (<[p:=f b]> h) C L Lg).
Proof. unfold update; cbn [heap ctxs loops log]. by rewrite lookup_insert_eq, insert_insert_eq. Qed.

Lemma Safefree_ins b Lg :
  Safefree p (World (<[p:=b]> h) C L Lg)
  = Done tt (World (delete p h) C L (Lg ++ [Call_Safefree p b])).
Proof.
  unfold Safefree; cbn [heap ctxs loops log].
  by rewrite lookup_insert_eq, delete_insert_eq.
Qed.

End Run.

(** Symbolic execution: unfold the monad and the stores, and resolve
    the accesses to the block in view. *)
Ltac mrun :=
  repeat (progress
    (unfold bindM, ret, emit, fault, get_loop, put_loop, loop_at,
       store_context, store_loop, store_reading, store_writing, store_timing,
       store_priority, store_data, store_repeat, ev_init, ev_set_priority;
     cbn [heap ctxs loops log fst snd negb];
     rewrite ?load_ins, ?update_ins, ?Safefree_ins)).

Lemma loop_in_insert L l l' x :
  loop_in (<[l:=x]> L) l' = if decide (l = l') then x else loop_in L l'.
Proof. unfold loop_in. rewrite lookup_insert. by case_decide. Qed.

Lemma mn_now_loops_add L l x l' :
  mn_now (loop_in (loops_add l x L) l') = mn_now (loop_in L l').
Proof. unfold loops_add. rewrite loop_in_insert. case_decide; by subst. Qed.

Lemma mn_now_loops_del L l x l' :
  mn_now (loop_in (loops_del l x L) l') = mn_now (loop_in L l').
Proof. unfold loops_del. rewrite loop_in_insert. case_decide; by subst. Qed.

Section RunLibev.

Context (p : positive) (h : gmap positive redisLibevEvents).
Context (C : gmap positive redisAsyncContext).

Lemma ev_io_start_ins l f b L Lg :
  f ≠ W_timer ->
  ev_io_start l (p, f) (World (<[p:=b]> h) C L Lg)
  = Done tt (World (<[p:=io_start_block f b]> h) C (io_start_loops l (p, f) b L)
               (Lg ++ [Call_ev_io_start l (p, f)])).
Proof.
  intros Hf. unfold ev_io_start, io_start_block, io_start_loops, loop_add.
  destruct f; [| |done]; mrun; destruct (active _); mrun; reflexivity.
Qed.

Lemma ev_io_stop_ins l f b L Lg :
  f ≠ W_timer ->
  ev_io_stop l (p, f) (World (<[p:=b]> h) C L Lg)
  = Done tt (World (<[p:=io_stop_block f b]> h) C (io_stop_loops l (p, f) b L)
               (Lg ++ [Call_ev_io_stop l (p, f)])).
Proof.
  intros Hf. unfold ev_io_stop, io_stop_block, io_stop_loops, loop_del.
  destruct f; [| |done]; mrun; destruct (active _); mrun; reflexivity.
Qed.

Lemma timer_start_ins l b L Lg :
  timer_start l p (World (<[p:=b]> h) C L Lg)
  = Done tt (World (<[p:=timer_start_block (mn_now (loop_in L l)) b]> h) C
               (if active (tm_base (timer b)) then L else loops_add l (p, W_timer) L) Lg).
Proof.
  unfold timer_start, timer_start_block, loop_add.
  mrun; destruct (active _); mrun; reflexivity.
Qed.

Lemma timer_stop_ins l b L Lg :
  timer_stop l p (World (<[p:=b]> h) C L Lg)
  = Done tt (World (<[p:=timer_stop_block (mn_now (loop_in L l)) b]> h) C
               (if active (tm_base (timer b)) then loops_del l (p, W_timer) L else L) Lg).
Proof.
  unfold timer_stop, timer_stop_block, loop_del.
  mrun; destruct (active _); mrun; [|reflexivity].
  fold (loops_del l (p, W_timer) L).
  by rewrite mn_now_loops_del.
Qed.

Lemma ev_timer_stop_ins l b L Lg :
  ev_timer_stop l (p, W_timer) (World (<[p:=b]> h) C L Lg)
  = Done tt (World (<[p:=timer_stop_block (mn_now (loop_in L l)) b]> h) C
               (io_stop_loops l (p, W_timer) b L)
               (Lg ++ [Call_ev_timer_stop l (p, W_timer)])).
Proof. unfold ev_timer_stop. mrun. by rewrite timer_stop_ins. Qed.

Lemma ev_timer_again_ins l b L Lg :
  ev_timer_again l (p, W_timer) (World (<[p:=b]> h) C L Lg)
  = Done tt (World (<[p:=timer_again_block (mn_now (loop_in L l)) b]> h) C
               (timer_again_loops l (p, W_timer) b L)
               (Lg ++ [Call_ev_timer_again l (p, W_timer)])).
Proof.
  unfold ev_timer_again, timer_again_block, timer_again_loops.
  mrun. destruct (active (tm_base (timer b))) eqn:Ha;
    destruct (Libev.tstamp_true _) eqn:Hr; mrun;
    rewrite ?timer_stop_ins, ?timer_start_ins;
    cbn [map_timer timer set_timer Libev.tm_with_at tm_base];
    rewrite ?Ha; reflexivity.
Qed.

End RunLibev.

Section RunCtx.

Context (h : gmap positive redisLibevEvents).
Context (c : positive) (C : gmap positive redisAsyncContext).
Context (L : gmap positive ev_loop).

Lemma load_ctx_ins {A} (f : redisAsyncContext -> A) x Lg :
  load_ctx c f (World h (<[c:=x]> C) L Lg) = Done (f x) (World h (<[c:=x]> C) L Lg).
Proof. unfold load_ctx; cbn [ctxs]. by rewrite lookup_insert_eq. Qed.

Lemma update_ctx_ins f x Lg :
  update_ctx c f (World h (<[c:=x]> C) L Lg) = Done tt (World h (<[c:=f x]> C) L Lg).
Proof.
  unfold update_ctx; cbn [heap ctxs loops log].
  by rewrite lookup_insert_eq, insert_insert_eq.
Qed.

End RunCtx.

(** Symbolic execution of the adapter's functions: [mrun] and the
    libev primitives by their characterisation. *)
Ltac arun :=
  repeat (progress
    (mrun;
     unfold store_ev_data, store_hook;
     rewrite ?load_ctx_ins, ?update_ctx_ins;
     rewrite ?ev_io_start_ins, ?ev_io_stop_ins by discriminate;
     rewrite ?ev_timer_stop_ins, ?ev_timer_again_ins)).

Lemma mn_now_io_stop_loops L l x b l' :
  mn_now (loop_in (io_stop_loops l x b L) l') = mn_now (loop_in L l').
Proof. unfold io_stop_loops. destruct (active _); [apply mn_now_loops_del | done]. Qed.

Lemma mn_now_io_start_loops L l x b l' :
  mn_now (loop_in (io_start_loops l x b L) l') = mn_now (loop_in L l').
Proof. unfold io_start_loops. destruct (active _); [done | apply mn_now_loops_add]. Qed.

Lemma mn_now_timer_again_loops L l x b l' :
  mn_now (loop_in (timer_again_loops l x b L) l') = mn_now (loop_in L l').
Proof.
  unfold timer_again_loops.
  destruct (active _), (Libev.tstamp_true _);
    auto using mn_now_loops_del, mn_now_loops_add.
Qed.

Lemma cleanup_run p b h C L Lg :
  (forall c, context b = Some c -> is_Some (C !! c)) ->
  redisLibevCleanup (Some p) (World (<[p:=b]> h) C L Lg)
  = Done tt (World (delete p h) (cleanup_ctxs b C) (cleanup_loops p b L)
               (Lg ++ cleanup_trace p b (cleanup_released L b))).
Proof.
  intros Hc. unfold redisLibevCleanup, cleanup_ctxs, cleanup_loops, cleanup_trace,
    cleanup_released, cleanup_stopped.
  arun. destruct (context b) as [c|] eqn:Hctx.
  - destruct (Hc c eq_refl) as [x Hx].
    rewrite Hx. rewrite <- (insert_id C c x Hx) at 1.
    arun. destruct (loop b) as [l|] eqn:Hl; arun;
      rewrite ?mn_now_io_stop_loops; cbn [app]; rewrite <- ?app_assoc; reflexivity.
  - arun. destruct (loop b) as [l|] eqn:Hl; arun;
      rewrite ?mn_now_io_stop_loops; cbn [app]; rewrite <- ?app_assoc; reflexivity.
Qed.

(** * Properties *)

Lemma run_focus {A} (m : M A) w p b :
  heap w !! p = Some b ->
  m w = m (World (<[p:=b]> (heap w)) (ctxs w) (loops w) (log w)).
Proof. intros H. destruct w as [h C L Lg]; cbn. by rewrite (insert_id h p b H). Qed.

Lemma trace_since_app w w' tr : log w' = log w ++ tr -> trace_since w w' = tr.
Proof. unfold trace_since. intros ->. by rewrite drop_app_length. Qed.

Lemma nulled_before_unregistered_spec tr :
  nulled_before_unregistered tr = true ->
  forall (i j : nat) x y,
    tr !! i = Some x -> is_unregister x = true ->
    tr !! j = Some y -> is_backref_null y = true ->
    (j < i)%nat.
Proof.
  induction tr as [|a tr IH]; intros Hb i j x y Hi Hx Hj Hy; [done|].
  cbn in Hb. destruct (is_unregister a) eqn:Ha.
  - destruct j as [|j].
    + cbn in Hj. injection Hj as ->.
      destruct y; try discriminate; destruct a; discriminate.
    + cbn in Hj. rewrite forallb_forall in Hb.
      assert (In y tr) as Hin.
      { apply list_elem_of_In, list_elem_of_lookup. eauto. }
      apply Hb in Hin. rewrite Hy in Hin. discriminate.
  - destruct i as [|i].
    + cbn in Hi. injection Hi as ->. congruence.
    + destruct j as [|j]; [lia|]. cbn in Hi, Hj.
      specialize (IH Hb i j x y Hi Hx Hj Hy). lia.
Qed.

Lemma cleanup_trace_order p b b' :
  nulled_before_unregistered (cleanup_trace p b b') = true.
Proof. unfold cleanup_trace. destruct (context b), (loop b); reflexivity. Qed.

Lemma cleanup_run_at w p b :
  heap w !! p = Some b ->
  (forall c, context b = Some c -> is_Some (ctxs w !! c)) ->
  redisLibevCleanup (Some p) w
  = Done tt (World (delete p (heap w)) (cleanup_ctxs b (ctxs w))
               (cleanup_loops p b (loops w))
               (log w ++ cleanup_trace p b (cleanup_released (loops w) b))).
Proof.
  intros H Hc. rewrite (run_focus _ w p b H). by rewrite cleanup_run.
Qed.

(** What the released block holds. *)
Lemma cleanup_released_fields L b :
  let b' := cleanup_released L b in
  reading b' = false /\ writing b' = false /\ timing b' = false /\
  context b' = None /\ loop b' = None /\
  (forall f, data (base_of f b') = None).
Proof.
  destruct b as [c l r wr t [[a1 ? ? ?] ? ?] [[a2 ? ? ?] ? ?] [[a3 ? ? ?] ? ?] ?].
  unfold cleanup_released, cleanup_stopped, cleanup_detached, timer_stop_block,
    io_stop_block.
  destruct l, a1, a2, a3; cbn; repeat split; intros []; reflexivity.
Qed.

(** C1 (as amended).  On a live block, [redisLibevCleanup] performs
    exactly this sequence of effects: the client context's hook-table
    back-reference is cleared first (when the block's context is not
    null), then [loop] and [context] of the block are nulled, then the
    three watchers' back-references, then (when the captured loop is not
    null) the read, write and timer watchers are unregistered, then the
    three flags are cleared, then the block is released.  Every
    back-reference is nulled before any watcher is unregistered. *)
Theorem cleanup_order (w : world) (p : ptr) (b : redisLibevEvents) :
  heap w !! p = Some b ->
  (forall c, context b = Some c -> is_Some (ctxs w !! c)) ->
  exists w' b',
    redisLibevCleanup (Some p) w = Done tt w' /\
    trace_since w w'
    = match context b with
      | Some c => [St_ev_data c None]
      | None => []
      end
      ++ [St_loop p None; St_context p None;
          St_data (p, W_rev) None; St_data (p, W_wev) None; St_data (p, W_timer) None]
      ++ match loop b with
         | Some l =>
             [Call_ev_io_stop l (p, W_rev); Call_ev_io_stop l (p, W_wev);
              Call_ev_timer_stop l (p, W_timer)]
         | None => []
         end
      ++ [St_reading p false; St_writing p false; St_timing p false;
          Call_Safefree p b'] /\
    heap w' = delete p (heap w) /\
    (forall (i j : nat) x y,
        trace_since w w' !! i = Some x -> is_unregister x = true ->
        trace_since w w' !! j = Some y -> is_backref_null y = true ->
        (j < i)%nat).
Proof.
  intros H Hc. eexists _, (cleanup_released (loops w) b).
  split; [apply (cleanup_run_at w p b H Hc)|].
  rewrite (trace_since_app w _ (cleanup_trace p b (cleanup_released (loops w) b)))
    by reflexivity.
  split; [reflexivity|]. split; [reflexivity|].
  apply nulled_before_unregistered_spec, cleanup_trace_order.
Qed.

Lemma ex_attached_block :
  heap ex_attached !! 10%positive = Some (block_at ex_attached 10%positive).
Proof. vm_compute. reflexivity. Qed.

Lemma cleanup_order_witness :
  exists w' b',
    redisLibevCleanup (Some 10%positive) ex_attached = Done tt w' /\
    trace_since ex_attached w'
    = [St_ev_data 1%positive None;
       St_loop 10%positive None; St_context 10%positive None;
       St_data (10%positive, W_rev) None; St_data (10%positive, W_wev) None;
       St_data (10%positive, W_timer) None;
       Call_ev_io_stop 5%positive (10%positive, W_rev);
       Call_ev_io_stop 5%positive (10%positive, W_wev);
       Call_ev_timer_stop 5%positive (10%positive, W_timer);
       St_reading 10%positive false; St_writing 10%positive false;
       St_timing 10%positive false; Call_Safefree 10%positive b'].
Proof.
  destruct (cleanup_order ex_attached 10%positive (block_at ex_attached 10%positive))
    as (w' & b' & Hrun & Htr & _).
  - vm_compute. reflexivity.
  - intros c Hc. vm_compute in Hc. injection Hc as <-. vm_compute. eauto.
  - exists w', b'. split; [exact Hrun|exact Htr].
Defined.

(** C1 (as stated) fails: on the attached context, the store that
    clears the context's hook-table back-reference comes before the
    store that nulls [state.context], not after it. *)
Lemma cleanup_order_counterexample : ~ spec_cleanup_order ex_attached 10%positive.
Proof.
  intros Hspec.
  assert (redisLibevCleanup (Some 10%positive) ex_attached = Done tt
            (World (delete 10%positive (heap ex_attached))
               (cleanup_ctxs (block_at ex_attached 10%positive) (ctxs ex_attached))
               (cleanup_loops 10%positive (block_at ex_attached 10%positive)
                  (loops ex_attached))
               (log ex_attached
                ++ cleanup_trace 10%positive (block_at ex_attached 10%positive)
                     (cleanup_released (loops ex_attached)
                        (block_at ex_attached 10%positive))))) as Hrun.
  { apply (cleanup_run_at ex_attached 10%positive _ ex_attached_block).
    intros c Hc. vm_compute in Hc. injection Hc as <-. vm_compute. eauto. }
  destruct (Hspec _ 1%positive _ ex_attached_block eq_refl Hrun)
    as (i & j & Hij & Hi & Hj).
  unfold trace_since in Hi, Hj; cbn [log] in Hi, Hj.
  rewrite drop_app_length in Hi, Hj.
  unfold cleanup_trace in Hi, Hj.
    change (context (block_at ex_attached 10%positive)) with (Some 1%positive) in Hi, Hj.
    change (loop (block_at ex_attached 10%positive)) with (Some 5%positive) in Hi, Hj.
    cbn [app] in Hi, Hj.
    destruct j as [|j]; [lia|].
    do 13 (destruct j as [|j]; [discriminate Hj|]).
    discriminate Hj.
Qed.

(** ** The fired handlers *)

Section FiredProps.

Variable hR hW hT : positive -> M unit.



(** Otherwise the fired handler is the client handler: the call is the
    last thing it does, and its outcome is the handler's outcome. *)
Lemma fired_tail_call w q f bq e b c lp rv :
  heap w !! q = Some bq ->
  data (base_of f bq) = Some e ->
  heap w !! e = Some b ->
  context b = Some c ->
  redisLibevReadEvent hR lp (q, f) rv w = hR c w /\
  redisLibevWriteEvent hW lp (q, f) rv w = hW c w /\
  redisLibevTimeout hT lp (q, f) rv w = hT c w.
Proof.
  intros Hq Hd He Hc.
  unfold redisLibevReadEvent, redisLibevWriteEvent, redisLibevTimeout, bindM, load.
  cbn [fst snd]. rewrite Hq, Hd, He, Hc. done.
Qed.


End FiredProps.

(** Every watcher of a block that [redisLibevCleanup] has detached has
    a null back-reference, up to the release of the block. *)
Lemma cleanup_stages_data b now L f :
  data (base_of f (cleanup_detached b)) = None /\
  data (base_of f (cleanup_stopped now b)) = None /\
  data (base_of f (cleanup_released L b)) = None.
Proof.
  split; [|split]; [| |apply cleanup_released_fields].
  - destruct f; reflexivity.
  - destruct b as [c l r wr t [[a1 ? ? ?] ? ?] [[a2 ? ? ?] ? ?] [[a3 ? ? ?] ? ?] ?].
    unfold cleanup_stopped, cleanup_detached, timer_stop_block, io_stop_block.
    destruct a1, a2, a3, f; reflexivity.
Qed.

(** ** Cleanup through the hook table *)

Lemma cleanup_null w : redisLibevCleanup None w = Done tt w.
Proof. reflexivity. Qed.

Lemma repeatM_unfold n m w :
  repeatM (S n) m w = match m w with Done _ w' => repeatM n m w' | Fault => Fault end.
Proof. reflexivity. Qed.

(** A dispatch of the cleanup hook on a context whose back-reference is
    already null changes nothing. *)
Lemma call_hook_cleanup_detached w ac x tv :
  ctxs w !! ac = Some x ->
  cleanup (ev x) = Some FN_Cleanup ->
  ev_data (ev x) = None ->
  call_hook H_cleanup ac tv w = Done tt w.
Proof.
  intros Hx Hf Hd. unfold call_hook, bindM, load_ctx.
  rewrite Hx. cbv beta iota. cbn [slot]. rewrite Hx. cbv beta iota. rewrite Hf, Hd. reflexivity.
Qed.

Lemma call_hook_cleanup_attached w ac x p tv :
  ctxs w !! ac = Some x ->
  cleanup (ev x) = Some FN_Cleanup ->
  ev_data (ev x) = Some p ->
  call_hook H_cleanup ac tv w = redisLibevCleanup (Some p) w.
Proof.
  intros Hx Hf Hd. unfold call_hook, bindM, load_ctx.
  rewrite Hx. cbv beta iota. cbn [slot]. rewrite Hx. cbv beta iota. rewrite Hf, Hd. reflexivity.
Qed.

Lemma repeatM_noop n m w : m w = Done tt w -> repeatM n m w = Done tt w.
Proof.
  intros H. induction n as [|n IH]; [reflexivity|].
  rewrite repeatM_unfold, H. exact IH.
Qed.

Lemma filter_release_cleanup_trace p b b' :
  length (List.filter is_release (cleanup_trace p b b')) = 1%nat.
Proof. unfold cleanup_trace. destruct (context b), (loop b); reflexivity. Qed.

(** C3.  [redisLibevCleanup] on a null state changes nothing.  On a
    context whose cleanup hook is installed, whose back-reference is a
    live block that refers back to the context, dispatching the cleanup
    hook any number [S n] of times ends in the same store and the same
    trace as dispatching it once: the first dispatch clears the
    back-reference, the later ones receive null.  After it the block is
    gone, it was released exactly once, and it held false flags and
    null [context] and [loop] when it was released. *)
Theorem cleanup_idempotent :
  (forall w, redisLibevCleanup None w = Done tt w) /\
  (forall (w : world) (ac : ctx_ptr) (x : redisAsyncContext) (p : ptr)
          (b : redisLibevEvents) (tv : timeval) (n : nat),
      ctxs w !! ac = Some x ->
      cleanup (ev x) = Some FN_Cleanup ->
      ev_data (ev x) = Some p ->
      heap w !! p = Some b ->
      context b = Some ac ->
      exists w' b',
        call_hook H_cleanup ac tv w = Done tt w' /\
        repeatM (S n) (call_hook H_cleanup ac tv) w = Done tt w' /\
        heap w' = delete p (heap w) /\
        ctxs w' !! ac = Some (set_ev_data None x) /\
        length (List.filter is_release (trace_since w w')) = 1%nat /\
        last (trace_since w w') = Some (Call_Safefree p b') /\
        reading b' = false /\ writing b' = false /\ timing b' = false /\
        context b' = None /\ loop b' = None).
Proof.
  split; [exact cleanup_null|].
  intros w ac x p b tv n Hx Hf Hd Hp Hc.
  assert (forall c, context b = Some c -> is_Some (ctxs w !! c)) as Hctx.
  { intros c Hc'. rewrite Hc in Hc'. injection Hc' as <-. eauto. }
  pose proof (cleanup_run_at w p b Hp Hctx) as Hrun.
  set (w' := World _ _ _ _) in Hrun.
  assert (ctxs w' !! ac = Some (set_ev_data None x)) as Hx'.
  { subst w'. cbn [ctxs]. unfold cleanup_ctxs. rewrite Hc, Hx.
    apply lookup_insert_eq. }
  assert (call_hook H_cleanup ac tv w = Done tt w') as Hone.
  { by rewrite (call_hook_cleanup_attached w ac x p tv Hx Hf Hd). }
  exists w', (cleanup_released (loops w) b).
  split; [exact Hone|]. split.
  { rewrite repeatM_unfold, Hone. apply repeatM_noop.
    by apply (call_hook_cleanup_detached w' ac (set_ev_data None x) tv Hx'). }
  split; [reflexivity|]. split; [exact Hx'|].
  rewrite (trace_since_app w w' _ eq_refl).
  split; [apply filter_release_cleanup_trace|].
  split.
  { unfold cleanup_trace. destruct (context b), (loop b); reflexivity. }
  pose proof (cleanup_released_fields (loops w) b) as (H1 & H2 & H3 & H4 & H5 & _).
  auto.
Qed.

Lemma cleanup_idempotent_witness :
  exists w' b',
    call_hook H_cleanup 1%positive tv0 ex_attached = Done tt w' /\
    repeatM 3 (call_hook H_cleanup 1%positive tv0) ex_attached = Done tt w' /\
    heap w' !! 10%positive = None /\
    last (trace_since ex_attached w') = Some (Call_Safefree 10%positive b') /\
    reading b' = false /\ writing b' = false /\ timing b' = false.
Proof.
  destruct cleanup_idempotent as [_ H].
  destruct (H ex_attached 1%positive (ctx_at ex_attached 1%positive) 10%positive
              (block_at ex_attached 10%positive) tv0 2%nat)
    as (w' & b' & H1 & H2 & H3 & _ & _ & H6 & H7 & H8 & H9 & _);
    [vm_compute; reflexivity ..|].
  exists w', b'. rewrite H3, lookup_delete_eq. auto 10.
Defined.

(** ** The hooks on a block in view *)

Section RunHooks.

Context (p : positive) (h : gmap positive redisLibevEvents).
Context (C : gmap positive redisAsyncContext) (L : gmap positive ev_loop).

Lemma AddRead_run b Lg :
  redisLibevAddRead (Some p) (World (<[p:=b]> h) C L Lg)
  = Done tt (World (<[p:=add_block W_rev b]> h) C (add_loops W_rev p b L)
               (Lg ++ add_trace W_rev p b)).
Proof.
  unfold redisLibevAddRead, add_block, add_loops, add_trace. arun.
  destruct (loop b); [|by rewrite app_nil_r]. arun. cbn [flag_of].
  destruct (reading b); arun; [by rewrite app_nil_r|].
  by rewrite <- app_assoc.
Qed.

Lemma AddWrite_run b Lg :
  redisLibevAddWrite (Some p) (World (<[p:=b]> h) C L Lg)
  = Done tt (World (<[p:=add_block W_wev b]> h) C (add_loops W_wev p b L)
               (Lg ++ add_trace W_wev p b)).
Proof.
  unfold redisLibevAddWrite, add_block, add_loops, add_trace. arun.
  destruct (loop b); [|by rewrite app_nil_r]. arun. cbn [flag_of].
  destruct (writing b); arun; [by rewrite app_nil_r|].
  by rewrite <- app_assoc.
Qed.

Lemma DelRead_run b Lg :
  redisLibevDelRead (Some p) (World (<[p:=b]> h) C L Lg)
  = Done tt (World (<[p:=del_block W_rev b]> h) C (del_loops W_rev p b L)
               (Lg ++ del_trace W_rev p b)).
Proof.
  unfold redisLibevDelRead, del_block, del_loops, del_trace. arun. cbn [flag_of].
  destruct (reading b); arun; [|by rewrite app_nil_r].
  destruct (loop b); arun; by rewrite <- ?app_assoc.
Qed.

Lemma DelWrite_run b Lg :
  redisLibevDelWrite (Some p) (World (<[p:=b]> h) C L Lg)
  = Done tt (World (<[p:=del_block W_wev b]> h) C (del_loops W_wev p b L)
               (Lg ++ del_trace W_wev p b)).
Proof.
  unfold redisLibevDelWrite, del_block, del_loops, del_trace. arun. cbn [flag_of].
  destruct (writing b); arun; [|by rewrite app_nil_r].
  destruct (loop b); arun; by rewrite <- ?app_assoc.
Qed.

Lemma SetTimeout_run tv b Lg :
  redisLibevSetTimeout (Some p) tv (World (<[p:=b]> h) C L Lg)
  = Done tt (World (<[p:=setTimeout_block p tv L b]> h) C (setTimeout_loops p tv b L)
               (Lg ++ setTimeout_trace p tv b)).
Proof.
  unfold redisLibevSetTimeout, setTimeout_block, setTimeout_loops, setTimeout_trace,
    setTimeout_armed.
  arun. destruct (loop b); [|by rewrite app_nil_r]. arun.
  destruct (timing b); arun; cbn [app]; by rewrite <- ?app_assoc.
Qed.

End RunHooks.

(** ** The libev primitives leave the adapter's own fields alone *)

Ltac frame_if :=
  intros;
  unfold io_start_block, io_stop_block, timer_start_block, timer_stop_block,
    timer_again_block, timer_start_block, timer_stop_block;
  repeat match goal with
         | |- context [if ?c then _ else _] => destruct c
         end;
  try match goal with
      | f : wfield |- _ => destruct f
      end;
  reflexivity.

Lemma loop_io_start_block f b : loop (io_start_block f b) = loop b.
Proof. frame_if. Qed.
Lemma reading_io_start_block f b : reading (io_start_block f b) = reading b.
Proof. frame_if. Qed.
Lemma writing_io_start_block f b : writing (io_start_block f b) = writing b.
Proof. frame_if. Qed.
Lemma timing_io_start_block f b : timing (io_start_block f b) = timing b.
Proof. frame_if. Qed.

Lemma loop_io_stop_block f b : loop (io_stop_block f b) = loop b.
Proof. frame_if. Qed.
Lemma reading_io_stop_block f b : reading (io_stop_block f b) = reading b.
Proof. frame_if. Qed.
Lemma writing_io_stop_block f b : writing (io_stop_block f b) = writing b.
Proof. frame_if. Qed.
Lemma timing_io_stop_block f b : timing (io_stop_block f b) = timing b.
Proof. frame_if. Qed.

Lemma loop_timer_stop_block now b : loop (timer_stop_block now b) = loop b.
Proof. frame_if. Qed.
Lemma reading_timer_stop_block now b : reading (timer_stop_block now b) = reading b.
Proof. frame_if. Qed.
Lemma writing_timer_stop_block now b : writing (timer_stop_block now b) = writing b.
Proof. frame_if. Qed.
Lemma timing_timer_stop_block now b : timing (timer_stop_block now b) = timing b.
Proof. frame_if. Qed.

Lemma loop_timer_again_block now b : loop (timer_again_block now b) = loop b.
Proof. frame_if. Qed.
Lemma reading_timer_again_block now b : reading (timer_again_block now b) = reading b.
Proof. frame_if. Qed.
Lemma writing_timer_again_block now b : writing (timer_again_block now b) = writing b.
Proof. frame_if. Qed.
Lemma timing_timer_again_block now b : timing (timer_again_block now b) = timing b.
Proof. frame_if. Qed.

Lemma loop_map_base f g b : loop (map_base f g b) = loop b.
Proof. by destruct f. Qed.
Lemma reading_map_base f g b : reading (map_base f g b) = reading b.
Proof. by destruct f. Qed.
Lemma writing_map_base f g b : writing (map_base f g b) = writing b.
Proof. by destruct f. Qed.
Lemma timing_map_base f g b : timing (map_base f g b) = timing b.
Proof. by destruct f. Qed.


Create Rewrite HintDb header.

#[export] Hint Rewrite
  loop_io_start_block reading_io_start_block writing_io_start_block
  timing_io_start_block
  loop_io_stop_block reading_io_stop_block writing_io_stop_block timing_io_stop_block
  loop_timer_stop_block reading_timer_stop_block writing_timer_stop_block
  timing_timer_stop_block
  loop_timer_again_block reading_timer_again_block writing_timer_again_block
  timing_timer_again_block
  loop_map_base reading_map_base writing_map_base timing_map_base : header.

(** The adapter's own fields of a block after stores and libev calls. *)
Ltac hdr :=
  repeat (progress
    (autorewrite with header;
     cbn [context loop reading writing timing priority
          set_context set_loop set_reading set_writing set_timing set_priority
          set_rev set_wev set_timer map_timer flag_of set_flag])).

Ltac arun' := repeat (progress (arun; hdr)).

Section RunPriority.

Context (p : positive) (h : gmap positive redisLibevEvents).
Context (C : gmap positive redisAsyncContext) (L : gmap positive ev_loop).

Lemma load_ctx_at {A} (f : redisAsyncContext -> A) ac x hp Lg :
  C !! ac = Some x ->
  load_ctx ac f (World hp C L Lg) = Done (f x) (World hp C L Lg).
Proof. intros H. unfold load_ctx; cbn [ctxs]. by rewrite H. Qed.

Lemma SetPriority_run ac x pri b Lg :
  C !! ac = Some x ->
  ev_data (ev x) = Some p ->
  redisLibevSetPriority ac pri (World (<[p:=b]> h) C L Lg)
  = Done tt (World (<[p:=setPriority_block pri L b]> h) C (setPriority_loops p pri b L)
               (Lg ++ setPriority_trace p pri b)).
Proof.
  intros Hx Hd.
  unfold redisLibevSetPriority, setPriority_block, setPriority_loops, setPriority_trace,
    setPriority_timer, setPriority_timer_loops, setPriority_io, setPriority_io_loops,
    setPriority_io_trace.
  unfold bindM at 1. rewrite (load_ctx_at _ ac x _ _ Hx), Hd.
  arun'. destruct (loop b) as [l|]; [|by rewrite app_nil_r].
  arun'. destruct (reading b); arun'; destruct (writing b); arun';
    destruct (timing b); arun';
    repeat (rewrite mn_now_io_start_loops || rewrite mn_now_io_stop_loops);
    rewrite <- ?app_assoc; cbn [app]; reflexivity.
Qed.

Lemma SetPriority_null ac x pri w :
  ctxs w !! ac = Some x ->
  ev_data (ev x) = None ->
  redisLibevSetPriority ac pri w = Done tt w.
Proof.
  intros Hx Hd. unfold redisLibevSetPriority, bindM, load_ctx. by rewrite Hx, Hd.
Qed.

End RunPriority.

(** ** [redisLibevAttach] *)

Lemma Attach_run_ins p junk loop_ ac x h C L Lg :
  ev_data (ev x) = None ->
  redisLibevAttach (Some (p, junk)) loop_ ac (World h (<[ac:=x]> C) L Lg)
  = Done REDIS_OK
      (World (<[p:=attach_block p junk loop_ ac (c_fd x)]> h)
         (<[ac:=attach_ctx p x]> C) L
         (Lg ++ attach_trace p loop_ ac (c_fd x))).
Proof.
  intros Hd. unfold redisLibevAttach, attach_trace.
  arun. rewrite Hd. unfold Newx_block. arun.
  unfold ev_io_init. arun. rewrite <- !app_assoc. cbn [app].
  destruct junk as [? ? ? ? ? [[? ? ? ?] ? ?] [[? ? ? ?] ? ?] [[? ? ? ?] ? ?] ?].
  destruct x as [? [? ? ? ? ? ? ?]]. reflexivity.
Qed.

Lemma Attach_run w p junk loop_ ac x :
  ctxs w !! ac = Some x ->
  ev_data (ev x) = None ->
  redisLibevAttach (Some (p, junk)) loop_ ac w
  = Done REDIS_OK
      (World (<[p:=attach_block p junk loop_ ac (c_fd x)]> (heap w))
         (<[ac:=attach_ctx p x]> (ctxs w)) (loops w)
         (log w ++ attach_trace p loop_ ac (c_fd x))).
Proof.
  intros Hx Hd. destruct w as [h C L Lg]. cbn [heap ctxs loops log] in *.
  rewrite <- (insert_id C ac x Hx) at 1. by apply Attach_run_ins.
Qed.

Lemma Attach_attached w nx loop_ ac x p :
  ctxs w !! ac = Some x ->
  ev_data (ev x) = Some p ->
  redisLibevAttach nx loop_ ac w = Done REDIS_ERR w.
Proof.
  intros Hx Hd. unfold redisLibevAttach, bindM, load_ctx. by rewrite Hx, Hd.
Qed.

Lemma Attach_no_memory w loop_ ac x :
  ctxs w !! ac = Some x ->
  ev_data (ev x) = None ->
  redisLibevAttach None loop_ ac w = Done REDIS_ERR w.
Proof.
  intros Hx Hd. unfold redisLibevAttach, bindM, load_ctx. by rewrite Hx, Hd.
Qed.

(** C5.  On a live client context, [redisLibevAttach] returns
    [REDIS_ERR] and leaves the whole store as it is when the context's
    hook-table back-reference is not null, and also when it is null but
    the allocator gives no block; these are its only failures.
    Otherwise it returns [REDIS_OK], the back-reference points at the
    new block, the six hooks are installed, and the block has its three
    flags false and refers to the context and the loop. *)
Theorem attach_outcomes (w : world) (nx : option (positive * redisLibevEvents))
    (loop_ : option loop_ptr) (ac : ctx_ptr) (x : redisAsyncContext) :
  ctxs w !! ac = Some x ->
  (ev_data (ev x) <> None -> redisLibevAttach nx loop_ ac w = Done REDIS_ERR w) /\
  (ev_data (ev x) = None -> nx = None ->
     redisLibevAttach nx loop_ ac w = Done REDIS_ERR w) /\
  (forall p junk,
     ev_data (ev x) = None -> nx = Some (p, junk) ->
     exists w' b' x',
       redisLibevAttach nx loop_ ac w = Done REDIS_OK w' /\
       heap w' !! p = Some b' /\
       ctxs w' !! ac = Some x' /\
       ev_data (ev x') = Some p /\
       reading b' = false /\ writing b' = false /\ timing b' = false /\
       context b' = Some ac /\ loop b' = loop_ /\
       (forall s, exists f, slot s (ev x') = Some f)) /\
  (forall r w',
     redisLibevAttach nx loop_ ac w = Done r w' -> r <> REDIS_OK ->
     (ev_data (ev x) <> None \/ nx = None) /\ w' = w).
Proof.
  intros Hx. split; [|split; [|split]].
  - intros Hd. destruct (ev_data (ev x)) as [p|] eqn:Hp; [|done].
    by apply (Attach_attached w nx loop_ ac x p).
  - intros Hd ->. by apply (Attach_no_memory w loop_ ac x).
  - intros p junk Hd ->.
    eexists _, (attach_block p junk loop_ ac (c_fd x)), (attach_ctx p x).
    split; [by apply Attach_run|].
    cbn [heap ctxs]. rewrite !lookup_insert_eq.
    repeat split. intros []; cbn; eauto.
  - intros r w' Hrun Hr.
    destruct (ev_data (ev x)) as [p|] eqn:Hp.
    + rewrite (Attach_attached w nx loop_ ac x p Hx Hp) in Hrun.
      injection Hrun as <- <-. split; [by left|done].
    + destruct nx as [[p junk]|].
      * rewrite (Attach_run w p junk loop_ ac x Hx Hp) in Hrun.
        injection Hrun as <- <-. done.
      * rewrite (Attach_no_memory w loop_ ac x Hx Hp) in Hrun.
        injection Hrun as <- <-. split; [by right|done].
Qed.

Lemma attach_outcomes_witness :
  ctxs ex_attached !! 1%positive = Some (ctx_at ex_attached 1%positive) /\
  redisLibevAttach (Some (11%positive, ex_junk)) (Some 5%positive) 1%positive ex_attached
  = Done REDIS_ERR ex_attached.
Proof.
  split; [vm_compute; reflexivity|].
  destruct (attach_outcomes ex_attached (Some (11%positive, ex_junk)) (Some 5%positive)
              1%positive (ctx_at ex_attached 1%positive)) as [H _].
  - vm_compute. reflexivity.
  - apply H. vm_compute. discriminate.
Defined.

(** ** Sequences of [addRead]/[delRead] and of [addWrite]/[delWrite] *)

Lemma run_io_at k o w p b :
  heap w !! p = Some b ->
  run_io k (Some p) o w
  = Done tt (World (<[p:=io_block (watcher_of k) o b]> (heap w)) (ctxs w)
               (io_loops (watcher_of k) o p b (loops w))
               (log w ++ io_trace (watcher_of k) o p b)).
Proof.
  intros H. rewrite (run_focus _ w p b H).
  destruct k, o; cbn [run_io watcher_of io_block io_loops io_trace];
    by rewrite ?AddRead_run, ?DelRead_run, ?AddWrite_run, ?DelWrite_run.
Qed.

Lemma io_block_loop k o b : loop (io_block (watcher_of k) o b) = loop b.
Proof.
  destruct k, o; cbn [io_block watcher_of]; unfold add_block, del_block;
    repeat match goal with
           | |- context [match ?c with _ => _ end] => destruct c eqn:?
           end; hdr; congruence.
Qed.

Lemma io_block_flag k o b l :
  loop b = Some l ->
  flag_of (watcher_of k) (io_block (watcher_of k) o b)
  = match o with Add => true | Del => false end.
Proof.
  intros Hl.
  destruct k, o; cbn [io_block watcher_of]; unfold add_block, del_block; rewrite Hl;
    cbn [flag_of]; repeat match goal with
           | |- context [if ?c then _ else _] => destruct c eqn:?
           end; hdr; congruence.
Qed.

Lemma io_trace_calls k o p b l :
  loop b = Some l ->
  io_calls (p, watcher_of k) (io_trace (watcher_of k) o p b)
  = expected_calls (flag_of (watcher_of k) b) [o].
Proof.
  intros Hl.
  destruct k, o; cbn [io_trace watcher_of]; unfold add_trace, del_trace; rewrite Hl;
    cbn [flag_of expected_calls];
    repeat match goal with
           | |- context [if ?c then _ else _] => destruct c eqn:?
           end;
    cbn [io_calls omap list_omap io_call St_flag]; rewrite ?decide_True by done;
    reflexivity.
Qed.

Lemma expected_calls_cons fl o os :
  expected_calls fl (o :: os)
  = expected_calls fl [o] ++ expected_calls (match o with Add => true | Del => false end) os.
Proof. destruct o, fl; reflexivity. Qed.

Lemma intent_cons fl o os :
  intent fl (o :: os) = intent (match o with Add => true | Del => false end) os.
Proof.
  unfold intent. destruct os as [|o' os]; [by destruct o|].
  change (last (o :: o' :: os)) with (last (o' :: os)).
  destruct (last (o' :: os)) as [[]|] eqn:Hl; try reflexivity.
  by apply last_None in Hl.
Qed.

Lemma alternating_expected_calls fl os :
  alternating (expected_calls fl os) = true /\
  head (expected_calls fl os) <> Some (if fl then Add else Del).
Proof.
  revert fl. induction os as [|o os IH]; intros fl; [by destruct fl|].
  destruct o, fl; cbn [expected_calls]; try apply IH.
  - destruct (IH true) as [Ha Hh]. split; [|done].
    cbn [alternating]. destruct (expected_calls true os) as [|[] ?]; try done.
  - destruct (IH false) as [Ha Hh]. split; [|done].
    cbn [alternating]. destruct (expected_calls false os) as [|[] ?]; try done.
Qed.

Lemma run_ios_spec k os :
  forall w p b l,
    heap w !! p = Some b -> loop b = Some l ->
    exists w' b' tr,
      run_ios k (Some p) os w = Done tt w' /\
      heap w' !! p = Some b' /\ loop b' = Some l /\
      log w' = log w ++ tr /\
      flag_of (watcher_of k) b' = intent (flag_of (watcher_of k) b) os /\
      io_calls (p, watcher_of k) tr = expected_calls (flag_of (watcher_of k) b) os.
Proof.
  induction os as [|o os IH]; intros w p b l Hp Hl.
  - exists w, b, []. rewrite app_nil_r. by repeat split.
  - cbn [run_ios]. unfold bindM. rewrite (run_io_at k o w p b Hp).
    set (w1 := World _ _ _ _).
    destruct (IH w1 p (io_block (watcher_of k) o b) l) as (w' & b' & tr & H1 & H2 & H3 & H4 & H5 & H6).
    { subst w1. cbn [heap]. apply lookup_insert_eq. }
    { by rewrite io_block_loop. }
    exists w', b', (io_trace (watcher_of k) o p b ++ tr).
    split; [exact H1|]. split; [exact H2|]. split; [exact H3|].
    split; [rewrite H4; subst w1; cbn [log]; by rewrite app_assoc|].
    rewrite (io_block_flag k o b l Hl) in H5, H6.
    split.
    + by rewrite intent_cons.
    + assert (forall t1 t2, io_calls (p, watcher_of k) (t1 ++ t2)
                = io_calls (p, watcher_of k) t1 ++ io_calls (p, watcher_of k) t2) as Happ.
      { intros t1 t2. unfold io_calls. apply omap_app. }
      rewrite Happ, H6, (io_trace_calls k o p b l Hl).
      by rewrite (expected_calls_cons _ o os).
Qed.

Lemma del_noop k w p b :
  heap w !! p = Some b ->
  flag_of (watcher_of k) b = false ->
  run_io k (Some p) Del w = Done tt w.
Proof.
  intros Hp Hf. rewrite (run_io_at k Del w p b Hp).
  cbn [io_block io_loops io_trace]. unfold del_block, del_loops, del_trace.
  rewrite Hf, app_nil_r, (insert_id _ _ _ Hp). by destruct w.
Qed.

(** C6.  Take a live block with a non-null loop and any sequence [os]
    of add and del calls for one of its two I/O watchers (reads or
    writes).  The sequence runs to the end; afterwards the flag is true
    exactly when the most recent call was an add (it keeps its value
    when the sequence is empty); the [ev_io_start] and [ev_io_stop]
    calls made on the watcher alternate, and the first one is not a
    start when the flag was already true nor a stop when it was false,
    so the watcher is never registered twice without an unregistration
    in between.  Two adds in a row from a false flag make exactly one
    [ev_io_start]; a del when the flag is false changes nothing and
    calls nothing. *)
Theorem add_del_sequences (k : io_kind) (os : list io_op) (w : world) (p : ptr)
    (b : redisLibevEvents) (l : loop_ptr) :
  heap w !! p = Some b ->
  loop b = Some l ->
  (exists w' b',
      run_ios k (Some p) os w = Done tt w' /\
      heap w' !! p = Some b' /\
      flag_of (watcher_of k) b' = intent (flag_of (watcher_of k) b) os /\
      io_calls (p, watcher_of k) (trace_since w w')
      = expected_calls (flag_of (watcher_of k) b) os /\
      alternating (io_calls (p, watcher_of k) (trace_since w w')) = true /\
      head (io_calls (p, watcher_of k) (trace_since w w'))
      <> Some (if flag_of (watcher_of k) b then Add else Del)) /\
  (flag_of (watcher_of k) b = false ->
   exists w',
     run_ios k (Some p) [Add; Add] w = Done tt w' /\
     io_calls (p, watcher_of k) (trace_since w w') = [Add]) /\
  (flag_of (watcher_of k) b = false -> run_io k (Some p) Del w = Done tt w).
Proof.
  intros Hp Hl. split; [|split].
  - destruct (run_ios_spec k os w p b l Hp Hl) as (w' & b' & tr & H1 & H2 & _ & H4 & H5 & H6).
    exists w', b'. rewrite (trace_since_app w w' tr H4), H6.
    destruct (alternating_expected_calls (flag_of (watcher_of k) b) os) as [Ha Hh].
    by repeat split.
  - intros Hf.
    destruct (run_ios_spec k [Add; Add] w p b l Hp Hl) as (w' & b' & tr & H1 & _ & _ & H4 & _ & H6).
    exists w'. rewrite (trace_since_app w w' tr H4), H6, Hf. by split.
  - intros Hf. by apply (del_noop k w p b).
Qed.

Lemma add_del_sequences_witness :
  exists w' b',
    run_ios Read (Some 10%positive) [Add; Add; Del; Del; Add] ex_attached = Done tt w' /\
    heap w' !! 10%positive = Some b' /\
    reading b' = true /\
    io_calls (10%positive, W_rev) (trace_since ex_attached w') = [Add; Del; Add].
Proof.
  destruct (add_del_sequences Read [Add; Add; Del; Del; Add] ex_attached 10%positive
              (block_at ex_attached 10%positive) 5%positive)
    as [(w' & b' & H1 & H2 & H3 & H4 & _) _];
    [vm_compute; reflexivity ..|].
  exists w', b'. repeat split; assumption.
Defined.

(** ** Registration in the loops *)

Lemma reg_insert L l lp l' y :
  reg (<[l:=lp]> L) l' y <-> if decide (l = l') then y ∈ started lp else reg L l' y.
Proof. unfold reg. rewrite loop_in_insert. by case_decide. Qed.

Lemma reg_loops_add L l x l' y :
  reg (loops_add l x L) l' y <-> (l' = l /\ y = x) \/ reg L l' y.
Proof.
  unfold loops_add. rewrite reg_insert. case_decide; cbn [started].
  - subst. unfold reg. set_solver.
  - naive_solver.
Qed.

Lemma reg_loops_del L l x l' y :
  reg (loops_del l x L) l' y <-> reg L l' y /\ ~ (l' = l /\ y = x).
Proof.
  unfold loops_del. rewrite reg_insert. case_decide; cbn [started].
  - subst. unfold reg. set_solver.
  - naive_solver.
Qed.

(** Evaluation of the block transformers on a block given by its
    fields.  The evaluation is lazy: the transformers nest, and
    unfolding them from the outside would copy their arguments. *)
Ltac blk :=
  lazy beta iota zeta delta
      [context loop reading writing timing rev wev timer priority
       active w_priority data cb io_base fd events tm_base at_ repeat
       set_context set_loop set_reading set_writing set_timing set_priority
       set_rev set_wev set_timer map_timer map_base map_io with_base base_of
       flag_of set_flag
       Libev.ev_init Libev.ev_set_priority Libev.set_data Libev.pri_adjust
       Libev.ev_start Libev.ev_stop Libev.io_with_base Libev.tm_with_base
       Libev.tm_with_at Libev.tm_with_repeat Libev.clear_fdset
       io_start_block io_stop_block timer_start_block timer_stop_block
       timer_again_block io_start_loops io_stop_loops timer_again_loops
       add_block add_loops del_block del_loops
       setTimeout_armed setTimeout_block setTimeout_loops
       setPriority_io setPriority_io_loops setPriority_timer setPriority_timer_loops
       setPriority_block setPriority_loops
       cleanup_detached cleanup_stopped cleanup_released cleanup_loops
       fst snd];
  cbn [andb negb].

Ltac blk_in H :=
  lazy beta iota zeta delta
      [context loop reading writing timing rev wev timer priority
       active w_priority data cb io_base fd events tm_base at_ repeat
       set_context set_loop set_reading set_writing set_timing set_priority
       set_rev set_wev set_timer map_timer map_base map_io with_base base_of
       flag_of set_flag
       Libev.ev_init Libev.ev_set_priority Libev.set_data Libev.pri_adjust
       Libev.ev_start Libev.ev_stop Libev.io_with_base Libev.tm_with_base
       Libev.tm_with_at Libev.tm_with_repeat Libev.clear_fdset
       io_start_block io_stop_block timer_start_block timer_stop_block
       timer_again_block io_start_loops io_stop_loops timer_again_loops
       add_block add_loops del_block del_loops
       setTimeout_armed setTimeout_block setTimeout_loops
       setPriority_io setPriority_io_loops setPriority_timer setPriority_timer_loops
       setPriority_block setPriority_loops
       cleanup_detached cleanup_stopped cleanup_released cleanup_loops
       fst snd] in H;
  cbn [andb negb] in H.

Ltac blk_all :=
  lazy beta iota zeta delta
      [context loop reading writing timing rev wev timer priority
       active w_priority data cb io_base fd events tm_base at_ repeat
       set_context set_loop set_reading set_writing set_timing set_priority
       set_rev set_wev set_timer map_timer map_base map_io with_base base_of
       flag_of set_flag
       Libev.ev_init Libev.ev_set_priority Libev.set_data Libev.pri_adjust
       Libev.ev_start Libev.ev_stop Libev.io_with_base Libev.tm_with_base
       Libev.tm_with_at Libev.tm_with_repeat Libev.clear_fdset
       io_start_block io_stop_block timer_start_block timer_stop_block
       timer_again_block io_start_loops io_stop_loops timer_again_loops
       add_block add_loops del_block del_loops
       setTimeout_armed setTimeout_block setTimeout_loops
       setPriority_io setPriority_io_loops setPriority_timer setPriority_timer_loops
       setPriority_block setPriority_loops
       cleanup_detached cleanup_stopped cleanup_released cleanup_loops
       fst snd] in *;
  cbn [andb negb] in *.

(** A block given by its fields, with hypotheses to match. *)
Ltac open_block b :=
  destruct b as [?c ?lo ?r ?wr ?t [[?a1 ?p1 ?d1 ?cb1] ?fd1 ?e1]
                   [[?a2 ?p2 ?d2 ?cb2] ?fd2 ?e2] [[?a3 ?p3 ?d3 ?cb3] ?at3 ?rp3] ?pr].

(** Case analysis on every test that is in the way. *)
Ltac split_ifs :=
  repeat (blk;
          match goal with
          | H : ?c = _ |- context [if ?c then _ else _] => rewrite H
          | |- context [if ?c then _ else _] => destruct c eqn:?
          | |- context [match ?c with Some _ => _ | None => _ end] => destruct c eqn:?
          end);
  blk.

(** ** Each operation keeps the flags, the marks and the loops agreeing *)

Lemma same_others_refl p L : same_others p L L.
Proof. by intros l q f _. Qed.

Lemma same_others_trans p L1 L2 L3 :
  same_others p L1 L2 -> same_others p L2 L3 -> same_others p L1 L3.
Proof. intros H1 H2 l q f Hq. by rewrite (H2 l q f Hq), (H1 l q f Hq). Qed.

Lemma same_others_add p L l f : same_others p L (loops_add l (p, f) L).
Proof. intros l' q f' Hq. rewrite reg_loops_add. naive_solver. Qed.

Lemma same_others_del p L l f : same_others p L (loops_del l (p, f) L).
Proof. intros l' q f' Hq. rewrite reg_loops_del. naive_solver. Qed.

Lemma same_others_io_start p L l f b : same_others p L (io_start_loops l (p, f) b L).
Proof.
  unfold io_start_loops. destruct (active _);
    auto using same_others_refl, same_others_add.
Qed.

Lemma same_others_io_stop p L l f b : same_others p L (io_stop_loops l (p, f) b L).
Proof.
  unfold io_stop_loops. destruct (active _);
    auto using same_others_refl, same_others_del.
Qed.

Lemma same_others_timer_again p L l f b :
  same_others p L (timer_again_loops l (p, f) b L).
Proof.
  unfold timer_again_loops. destruct (active _), (Libev.tstamp_true _);
    auto using same_others_refl, same_others_add, same_others_del.
Qed.

Ltac others :=
  repeat match goal with
         | |- same_others _ _ (if ?c then _ else _) => destruct c
         | |- same_others _ _ (match ?c with Some _ => _ | None => _ end) => destruct c
         | |- same_others _ ?L ?L => apply same_others_refl
         | |- same_others _ _ (io_start_loops _ _ _ _) =>
             eapply same_others_trans; [|apply same_others_io_start]
         | |- same_others _ _ (io_stop_loops _ _ _ _) =>
             eapply same_others_trans; [|apply same_others_io_stop]
         | |- same_others _ _ (timer_again_loops _ _ _ _) =>
             eapply same_others_trans; [|apply same_others_timer_again]
         end.

(** Start from a well-formed block that agrees with the loops, given by
    its fields, with every flag and mark decided. *)
Ltac open_wf b Hwf :=
  open_block b;
  destruct Hwf as (Hw1 & Hw2 & Hw3 & Hw4 & Hw5 & Hw6);
  unfold fdset_cleared in Hw5, Hw6;
  blk_in Hw1; blk_in Hw2; blk_in Hw3; blk_in Hw4; blk_in Hw5; blk_in Hw6;
  match type of Hw3 with
  | _ = ?t && Libev.tstamp_true ?q =>
      destruct t; destruct (Libev.tstamp_true q) eqn:?; cbn [andb] in Hw3
  end;
  subst;
  match goal with
  | Hw4 : ?lo = None -> _ |- _ =>
      destruct lo;
      [clear Hw4
      |pose proof (Hw4 eq_refl W_rev) as Hn1; pose proof (Hw4 eq_refl W_wev) as Hn2;
       pose proof (Hw4 eq_refl W_timer) as Hn3; clear Hw4;
       blk_in Hn1; blk_in Hn2; blk_in Hn3; try discriminate; subst]
  end;
  repeat match goal with
         | a : bool |- _ => destruct a
         end;
  repeat match goal with
         | H : true = true -> _ |- _ => specialize (H eq_refl)
         | H : false = true -> _ |- _ => clear H
         end.

Lemma land_twice e m : Z.land (Z.land e m) m = Z.land e m.
Proof. by rewrite <- Z.land_assoc, Z.land_diag. Qed.

(** The well-formedness of a block given by its fields. *)
Ltac close_wf :=
  unfold wf_block, fdset_cleared; split_ifs;
  repeat split; try done; try (by intros _ []);
  try (intros _; first [assumption | apply land_twice]);
  congruence.

Ltac close_agrees Hag :=
  intros l' f';
  repeat (rewrite reg_loops_add || rewrite reg_loops_del);
  rewrite ?(Hag l' f');
  destruct f'; blk; naive_solver.

Lemma add_keeps f p b L :
  f <> W_timer -> wf_block b -> agrees p b L ->
  wf_block (add_block f b) /\ agrees p (add_block f b) (add_loops f p b L) /\
  same_others p L (add_loops f p b L).
Proof.
  intros Hf Hwf Hag. split; [|split].
  - unfold agrees in Hag; open_wf b Hwf; destruct f; try done; close_wf.
  - unfold agrees in Hag; open_wf b Hwf; destruct f; try done; unfold agrees; split_ifs;
      close_agrees Hag.
  - unfold add_loops. others.
Qed.

Lemma del_keeps f p b L :
  f <> W_timer -> wf_block b -> agrees p b L ->
  wf_block (del_block f b) /\ agrees p (del_block f b) (del_loops f p b L) /\
  same_others p L (del_loops f p b L).
Proof.
  intros Hf Hwf Hag. split; [|split].
  - unfold agrees in Hag; open_wf b Hwf; destruct f; try done; close_wf.
  - unfold agrees in Hag; open_wf b Hwf; destruct f; try done; unfold agrees; split_ifs;
      close_agrees Hag.
  - unfold del_loops. others.
Qed.

Lemma setTimeout_keeps p tv b L :
  wf_block b -> agrees p b L ->
  wf_block (setTimeout_block p tv L b) /\
  agrees p (setTimeout_block p tv L b) (setTimeout_loops p tv b L) /\
  same_others p L (setTimeout_loops p tv b L).
Proof.
  intros Hwf Hag. split; [|split].
  - unfold agrees in Hag; open_wf b Hwf; close_wf.
  - unfold agrees in Hag; open_wf b Hwf; unfold agrees; split_ifs; close_agrees Hag.
  - unfold setTimeout_loops. others.
Qed.

Lemma setPriority_keeps p pri b L :
  wf_block b -> agrees p b L ->
  wf_block (setPriority_block pri L b) /\
  agrees p (setPriority_block pri L b) (setPriority_loops p pri b L) /\
  same_others p L (setPriority_loops p pri b L).
Proof.
  intros Hwf Hag. split; [|split].
  - unfold agrees in Hag; open_wf b Hwf; close_wf.
  - unfold agrees in Hag; open_wf b Hwf; unfold agrees; split_ifs; close_agrees Hag.
  - unfold setPriority_loops, setPriority_timer_loops, setPriority_io_loops. others.
Qed.

Lemma cleanup_keeps p b L :
  wf_block b -> agrees p b L ->
  (forall l f, ~ reg (cleanup_loops p b L) l (p, f)) /\
  same_others p L (cleanup_loops p b L).
Proof.
  intros Hwf Hag. split.
  - unfold agrees in Hag; open_wf b Hwf; split_ifs; intros l' f';
      repeat (rewrite reg_loops_add || rewrite reg_loops_del);
      rewrite ?(Hag l' f');
      destruct f'; blk; naive_solver.
  - unfold cleanup_loops. others.
Qed.

(** ** The invariant of reachable stores *)

Lemma Inv_agrees w p b :
  Inv w -> heap w !! p = Some b -> wf_block b /\ agrees p b (loops w).
Proof.
  intros [HA HB] Hp. split; [by apply (HA p)|].
  intros l f. rewrite HB. split.
  - intros (b' & Hb' & Hl & Ha). rewrite Hp in Hb'. by injection Hb' as <-.
  - intros [Hl Ha]. by exists b.
Qed.

Lemma Inv_update w p b' C' L' Lg' :
  Inv w -> wf_block b' -> agrees p b' L' -> same_others p (loops w) L' ->
  Inv (World (<[p:=b']> (heap w)) C' L' Lg').
Proof.
  intros [HA HB] Hwf Hag Hso. split; cbn [heap loops].
  - intros q b. rewrite lookup_insert. case_decide.
    + by intros [= <-].
    + apply HA.
  - intros l q f. destruct (decide (q = p)) as [->|Hq].
    + rewrite (Hag l f), lookup_insert_eq. split.
      * intros [Hl Ha]. by exists b'.
      * by intros (b & [= <-] & Hl & Ha).
    + rewrite (Hso l q f Hq), HB. by rewrite lookup_insert_ne.
Qed.

Lemma Inv_delete w p C' L' Lg' :
  Inv w -> (forall l f, ~ reg L' l (p, f)) -> same_others p (loops w) L' ->
  Inv (World (delete p (heap w)) C' L' Lg').
Proof.
  intros [HA HB] Hno Hso. split; cbn [heap loops].
  - intros q b. rewrite lookup_delete. case_decide; [done|]. apply HA.
  - intros l q f. destruct (decide (q = p)) as [->|Hq].
    + rewrite lookup_delete_eq. split; [by intros ?%Hno|by intros (b & ? & _)].
    + rewrite (Hso l q f Hq), HB. by rewrite lookup_delete_ne.
Qed.

Lemma Inv_same_heap w C' Lg' :
  Inv w -> Inv (World (heap w) C' (loops w) Lg').
Proof. by intros [HA HB]. Qed.

(** A hook called on a block that is not live faults. *)
Lemma dangling_faults w p :
  heap w !! p = None ->
  redisLibevAddRead (Some p) w = Fault /\ redisLibevDelRead (Some p) w = Fault /\
  redisLibevAddWrite (Some p) w = Fault /\ redisLibevDelWrite (Some p) w = Fault /\
  redisLibevCleanup (Some p) w = Fault /\
  (forall tv, redisLibevSetTimeout (Some p) tv w = Fault).
Proof.
  intros H.
  unfold redisLibevAddRead, redisLibevDelRead, redisLibevAddWrite, redisLibevDelWrite,
    redisLibevCleanup, redisLibevSetTimeout, bindM, load.
  by rewrite H.
Qed.

Lemma SetTimeout_run_at w p b tv :
  heap w !! p = Some b ->
  redisLibevSetTimeout (Some p) tv w
  = Done tt (World (<[p:=setTimeout_block p tv (loops w) b]> (heap w)) (ctxs w)
               (setTimeout_loops p tv b (loops w))
               (log w ++ setTimeout_trace p tv b)).
Proof. intros H. rewrite (run_focus _ w p b H). by rewrite SetTimeout_run. Qed.

Lemma SetPriority_run_at w ac x p b pri :
  ctxs w !! ac = Some x ->
  ev_data (ev x) = Some p ->
  heap w !! p = Some b ->
  redisLibevSetPriority ac pri w
  = Done tt (World (<[p:=setPriority_block pri (loops w) b]> (heap w)) (ctxs w)
               (setPriority_loops p pri b (loops w))
               (log w ++ setPriority_trace p pri b)).
Proof.
  intros Hx Hd H. rewrite (run_focus _ w p b H).
  by rewrite (SetPriority_run p (heap w) (ctxs w) (loops w) ac x pri b (log w) Hx Hd).
Qed.

Lemma cleanup_fault w p b c :
  heap w !! p = Some b -> context b = Some c -> ctxs w !! c = None ->
  redisLibevCleanup (Some p) w = Fault.
Proof.
  intros Hp Hc Hx.
  unfold redisLibevCleanup, bindM, load, store_ev_data.
  rewrite Hp, Hc. unfold bindM, update_ctx. by rewrite Hx.
Qed.

Lemma wf_attach_block p junk loop_ ac fd_ : wf_block (attach_block p junk loop_ ac fd_).
Proof. repeat split; try done. by intros _ []. Qed.

Lemma Inv_step w o w' :
  Inv w -> fresh_alloc w o -> run_op o w = Done tt w' -> Inv w'.
Proof.
  intros HI Hfresh Hrun.
  destruct o as [nx loop_ ac|d|d|d|d|d tv|ac pri|d|l now]; cbn [run_op] in Hrun.
  - (* attach *)
    unfold bindM in Hrun.
    destruct (ctxs w !! ac) as [x|] eqn:Hx;
      [|by unfold redisLibevAttach, bindM, load_ctx in Hrun; rewrite Hx in Hrun].
    destruct (ev_data (ev x)) as [p|] eqn:Hd.
    { rewrite (Attach_attached w nx loop_ ac x p Hx Hd) in Hrun.
      by injection Hrun as <-. }
    destruct nx as [[p junk]|].
    + rewrite (Attach_run w p junk loop_ ac x Hx Hd) in Hrun.
      injection Hrun as <-. cbn [fresh_alloc] in Hfresh.
      apply Inv_update; [done|apply wf_attach_block| |apply same_others_refl].
      intros l f. destruct HI as [_ HB]. rewrite HB. split.
      * intros (b & Hb & _). congruence.
      * intros [_ Ha]. by destruct f.
    + rewrite (Attach_no_memory w loop_ ac x Hx Hd) in Hrun.
      by injection Hrun as <-.
  - (* addRead *)
    destruct d as [p|]; [|by injection Hrun as <-].
    destruct (heap w !! p) as [b|] eqn:Hp;
      [|by rewrite (proj1 (dangling_faults w p Hp)) in Hrun].
    pose proof (run_io_at Read Add w p b Hp) as E; cbn [run_io] in E.
    rewrite E in Hrun; clear E. injection Hrun as <-.
    destruct (Inv_agrees w p b HI Hp) as [Hwf Hag].
    destruct (add_keeps W_rev p b (loops w)) as (H1 & H2 & H3); try done.
    by apply Inv_update.
  - (* delRead *)
    destruct d as [p|]; [|by injection Hrun as <-].
    destruct (heap w !! p) as [b|] eqn:Hp;
      [|by rewrite (proj1 (proj2 (dangling_faults w p Hp))) in Hrun].
    pose proof (run_io_at Read Del w p b Hp) as E; cbn [run_io] in E.
    rewrite E in Hrun; clear E. injection Hrun as <-.
    destruct (Inv_agrees w p b HI Hp) as [Hwf Hag].
    destruct (del_keeps W_rev p b (loops w)) as (H1 & H2 & H3); try done.
    by apply Inv_update.
  - (* addWrite *)
    destruct d as [p|]; [|by injection Hrun as <-].
    destruct (heap w !! p) as [b|] eqn:Hp;
      [|by rewrite (proj1 (proj2 (proj2 (dangling_faults w p Hp)))) in Hrun].
    pose proof (run_io_at Write Add w p b Hp) as E; cbn [run_io] in E.
    rewrite E in Hrun; clear E. injection Hrun as <-.
    destruct (Inv_agrees w p b HI Hp) as [Hwf Hag].
    destruct (add_keeps W_wev p b (loops w)) as (H1 & H2 & H3); try done.
    by apply Inv_update.
  - (* delWrite *)
    destruct d as [p|]; [|by injection Hrun as <-].
    destruct (heap w !! p) as [b|] eqn:Hp;
      [|by rewrite (proj1 (proj2 (proj2 (proj2 (dangling_faults w p Hp))))) in Hrun].
    pose proof (run_io_at Write Del w p b Hp) as E; cbn [run_io] in E.
    rewrite E in Hrun; clear E. injection Hrun as <-.
    destruct (Inv_agrees w p b HI Hp) as [Hwf Hag].
    destruct (del_keeps W_wev p b (loops w)) as (H1 & H2 & H3); try done.
    by apply Inv_update.
  - (* scheduleTimer *)
    destruct d as [p|]; [|by injection Hrun as <-].
    destruct (heap w !! p) as [b|] eqn:Hp.
    2:{ destruct (dangling_faults w p Hp) as (_ & _ & _ & _ & _ & Hf).
        by rewrite Hf in Hrun. }
    rewrite (SetTimeout_run_at w p b tv Hp) in Hrun. injection Hrun as <-.
    destruct (Inv_agrees w p b HI Hp) as [Hwf Hag].
    destruct (setTimeout_keeps p tv b (loops w)) as (H1 & H2 & H3); try done.
    by apply Inv_update.
  - (* setPriority *)
    destruct (ctxs w !! ac) as [x|] eqn:Hx;
      [|by unfold redisLibevSetPriority, bindM, load_ctx in Hrun; rewrite Hx in Hrun].
    destruct (ev_data (ev x)) as [p|] eqn:Hd.
    2:{ rewrite (SetPriority_null ac x pri w Hx Hd) in Hrun. by injection Hrun as <-. }
    destruct (heap w !! p) as [b|] eqn:Hp.
    2:{ unfold redisLibevSetPriority, bindM, load_ctx, load in Hrun.
        by rewrite Hx, Hd, Hp in Hrun. }
    rewrite (SetPriority_run_at w ac x p b pri Hx Hd Hp) in Hrun. injection Hrun as <-.
    destruct (Inv_agrees w p b HI Hp) as [Hwf Hag].
    destruct (setPriority_keeps p pri b (loops w)) as (H1 & H2 & H3); try done.
    by apply Inv_update.
  - (* cleanup *)
    destruct d as [p|]; [|by injection Hrun as <-].
    destruct (heap w !! p) as [b|] eqn:Hp.
    2:{ destruct (dangling_faults w p Hp) as (_ & _ & _ & _ & Hf & _).
        by rewrite Hf in Hrun. }
    assert (forall c, context b = Some c -> is_Some (ctxs w !! c)) as Hc.
    { intros c Hc. destruct (ctxs w !! c) eqn:Hx; [eauto|].
      by rewrite (cleanup_fault w p b c Hp Hc Hx) in Hrun. }
    rewrite (cleanup_run_at w p b Hp Hc) in Hrun. injection Hrun as <-.
    destruct (Inv_agrees w p b HI Hp) as [Hwf Hag].
    destruct (cleanup_keeps p b (loops w)) as (H1 & H2); try done.
    by apply Inv_delete.
  - (* the clock *)
    unfold set_clock, bindM, get_loop, put_loop in Hrun. injection Hrun as <-.
    destruct HI as [HA HB]. split; cbn [heap loops]; [done|].
    intros l' q f. rewrite <- HB, reg_insert. case_decide; [by subst|done].
Qed.

Lemma reachable_Inv w : reachable w -> Inv w.
Proof.
  induction 1 as [w Hh Hl|w o w' _ IH Hf Hrun].
  - split.
    + intros p b. by rewrite Hh, lookup_empty.
    + intros l p f. split; [by intros ?%Hl|].
      intros (b & Hb & _). by rewrite Hh, lookup_empty in Hb.
  - by apply (Inv_step w o w').
Qed.

Lemma Inv_registered w p b f :
  Inv w -> heap w !! p = Some b ->
  (active (base_of f b) = true <-> registered w p f).
Proof.
  intros HI Hp. destruct (Inv_agrees w p b HI Hp) as [(_ & _ & _ & Hw4 & _) Hag].
  split.
  - intros Ha. destruct (loop b) as [l|] eqn:Hl.
    + exists b, l. repeat split; try done. apply Hag. by split.
    + rewrite (Hw4 eq_refl f) in Ha. discriminate.
  - intros (b' & l & Hb' & Hl & Hrg). apply Hag in Hrg. tauto.
Qed.

(** ** Flags and registration *)

Lemma reachable_ex_init : reachable ex_init.
Proof.
  apply reach_init; [reflexivity|].
  intros l x. unfold reg, loop_in. cbn [loops ex_init].
  rewrite lookup_empty. cbn. set_solver.
Qed.

Lemma reachable_ex_attached : reachable ex_attached.
Proof.
  apply (reach_step ex_init
           (Op_attach (Some (10%positive, ex_junk)) (Some 5%positive) 1%positive));
    [apply reachable_ex_init|reflexivity|].
  vm_compute. reflexivity.
Qed.

Lemma reachable_ex_reading : reachable ex_reading.
Proof.
  apply (reach_step ex_attached (Op_addRead (Some 10%positive)));
    [apply reachable_ex_attached|exact I|].
  vm_compute. reflexivity.
Qed.

Lemma reachable_ex_timer0 : reachable ex_timer0.
Proof.
  apply (reach_step ex_attached (Op_scheduleTimer (Some 10%positive) tv0));
    [apply reachable_ex_attached|exact I|].
  vm_compute. reflexivity.
Qed.

Lemma del_on_null_loop k w p b :
  heap w !! p = Some b -> loop b = None ->
  exists w' b',
    run_io k (Some p) Del w = Done tt w' /\
    heap w' !! p = Some b' /\ flag_of (watcher_of k) b' = false /\
    loops w' = loops w /\
    List.filter is_loop_call (trace_since w w') = [].
Proof.
  intros Hp Hl. rewrite (run_io_at k Del w p b Hp).
  eexists _, _. split; [reflexivity|]. cbn [heap loops].
  rewrite lookup_insert_eq.
  split; [reflexivity|].
  rewrite (trace_since_app w _ (io_trace (watcher_of k) Del p b)) by reflexivity.
  cbn [io_block io_loops io_trace]. unfold del_block, del_loops, del_trace.
  rewrite Hl. destruct k; cbn [watcher_of flag_of];
    destruct (reading b) eqn:?, (writing b) eqn:?; hdr; by repeat split.
Qed.

Lemma add_on_null_loop k w p b :
  heap w !! p = Some b -> loop b = None ->
  run_io k (Some p) Add w = Done tt w.
Proof.
  intros Hp Hl. rewrite (run_io_at k Add w p b Hp).
  cbn [io_block io_loops io_trace]. unfold add_block, add_loops, add_trace.
  rewrite Hl, app_nil_r, (insert_id _ _ _ Hp). by destruct w.
Qed.

(** C4 (as amended).  In every store reachable through attach,
    addRead, addWrite, delRead, delWrite, scheduleTimer, setPriority
    and cleanup (and the loop's clock moving), for every live block:
    [reading] is true exactly when the read watcher is started on the
    block's loop, [writing] exactly when the write watcher is; the
    timer is started on the block's loop exactly when [timing] is true
    and the timer's [repeat] is not zero; and a watcher of the block is
    started on no other loop.  On any live block whose loop is null,
    delRead and delWrite leave the flag false without calling libev,
    and addRead and addWrite change nothing. *)
Theorem flags_mirror_registration (w : world) (p : ptr) (b : redisLibevEvents) :
  reachable w ->
  heap w !! p = Some b ->
  (reading b = true <-> registered w p W_rev) /\
  (writing b = true <-> registered w p W_wev) /\
  (timing b = true /\ Libev.tstamp_true (repeat (timer b)) = true
   <-> registered w p W_timer) /\
  (forall l f, reg (loops w) l (p, f) -> loop b = Some l) /\
  (forall k w0 p0 b0,
      heap w0 !! p0 = Some b0 -> loop b0 = None ->
      (exists w' b',
          run_io k (Some p0) Del w0 = Done tt w' /\
          heap w' !! p0 = Some b' /\ flag_of (watcher_of k) b' = false /\
          loops w' = loops w0 /\
          List.filter is_loop_call (trace_since w0 w') = []) /\
      run_io k (Some p0) Add w0 = Done tt w0).
Proof.
  intros Hr Hp. apply reachable_Inv in Hr.
  destruct (Inv_agrees w p b Hr Hp) as [(Hw1 & Hw2 & Hw3 & Hw4 & _) Hag].
  pose proof (fun f => Inv_registered w p b f Hr Hp) as Hreg.
  split; [|split; [|split; [|split]]].
  - rewrite <- (Hreg W_rev), Hw1. reflexivity.
  - rewrite <- (Hreg W_wev), Hw2. reflexivity.
  - rewrite <- (Hreg W_timer). cbn [base_of]. rewrite Hw3.
    destruct (timing b), (Libev.tstamp_true _); cbn; intuition congruence.
  - intros l f Hrg. apply Hag in Hrg. tauto.
  - intros k w0 p0 b0 Hp0 Hl0. split.
    + by apply (del_on_null_loop k w0 p0 b0).
    + by apply (add_on_null_loop k w0 p0 b0).
Qed.

Lemma flags_mirror_registration_witness :
  reading (block_at ex_reading 10%positive) = true /\
  registered ex_reading 10%positive W_rev /\
  ~ registered ex_reading 10%positive W_wev.
Proof.
  destruct (flags_mirror_registration ex_reading 10%positive
              (block_at ex_reading 10%positive) reachable_ex_reading)
    as (H1 & H2 & _); [vm_compute; reflexivity|].
  split; [vm_compute; reflexivity|]. split.
  - apply H1. vm_compute. reflexivity.
  - intros H. apply H2 in H. vm_compute in H. discriminate.
Defined.

(** C4 (as stated) fails: after [scheduleTimer] with a zero duration
    the block has [timing] true, and its timer is not started:
    [ev_timer_again] does not start a timer whose [repeat] is zero. *)
Lemma flags_mirror_registration_counterexample :
  reachable ex_timer0 /\ ~ spec_flags_mirror_registration ex_timer0.
Proof.
  split; [apply reachable_ex_timer0|].
  intros Hspec.
  destruct (Hspec 10%positive (block_at ex_timer0 10%positive)) as (_ & _ & Ht & _);
    [vm_compute; reflexivity|].
  destruct Ht as (b & l & Hb & Hl & Hrg); [vm_compute; reflexivity|].
  assert (b = block_at ex_timer0 10%positive) as ->.
  { vm_compute in Hb. injection Hb as <-. vm_compute. reflexivity. }
  vm_compute in Hl. injection Hl as <-.
  revert Hrg.
  apply (proj1 (bool_decide_eq_false
                  (reg (loops ex_timer0) 5%positive (10%positive, W_timer)))).
  vm_compute. reflexivity.
Qed.

(** ** [redisLibevSetPriority] *)

(** The block after [redisLibevSetPriority], field by field. *)
Lemma setPriority_block_fields pri L b l :
  wf_block b -> loop b = Some l ->
  let b' := setPriority_block pri L b in
  priority b' = pri /\
  context b' = context b /\ loop b' = loop b /\
  reading b' = reading b /\ writing b' = writing b /\ timing b' = timing b /\
  (forall f,
      active (base_of f b') = active (base_of f b) /\
      data (base_of f b') = data (base_of f b) /\
      cb (base_of f b') = cb (base_of f b) /\
      w_priority (base_of f b')
      = if active (base_of f b) then Libev.clamp_pri pri else pri) /\
  fd (rev b') = fd (rev b) /\ events (rev b') = events (rev b) /\
  fd (wev b') = fd (wev b) /\ events (wev b') = events (wev b) /\
  repeat (timer b') = repeat (timer b) /\
  at_ (timer b')
  = if active (tm_base (timer b)) then (repeat (timer b) + mn_now (loop_in L l))%Q
    else at_ (timer b).
Proof.
  intros Hwf Hl. open_wf b Hwf; try discriminate; injection Hl as ->;
    split_ifs;
    repeat match goal with
           | |- _ /\ _ => split
           | |- forall f : wfield, _ => intros []
           end; first [reflexivity | assumption].
Qed.

Lemma mn_now_setPriority_loops p pri b L l :
  mn_now (loop_in (setPriority_loops p pri b L) l) = mn_now (loop_in L l).
Proof.
  unfold setPriority_loops, setPriority_timer_loops, setPriority_io_loops.
  repeat match goal with
         | |- context [if ?c then _ else _] => destruct c
         | |- context [match ?c with Some _ => _ | None => _ end] => destruct c
         end;
    repeat (rewrite mn_now_io_start_loops || rewrite mn_now_io_stop_loops
            || rewrite mn_now_timer_again_loops);
    reflexivity.
Qed.

(** C7 (as amended).  [redisLibevSetPriority] changes nothing when the
    context has no state or the state's loop is null.  Otherwise, in a
    reachable store, it stores the priority in the block; leaves
    [context], [loop], the three flags and, for each watcher, its
    active mark, back-reference, callback, descriptor, events and
    [repeat] as they were; leaves every loop with the same watchers
    started and the same clock; gives an unregistered watcher the new
    priority, and a registered one the new priority clamped by libev on
    restart, stopping and restarting it; and re-arms a running timer
    with its full [repeat]: its deadline becomes the loop's clock plus
    [repeat].  The context is not written. *)
Theorem setPriority_frame (w : world) (ac : ctx_ptr) (x : redisAsyncContext) (pri : Z) :
  reachable w ->
  ctxs w !! ac = Some x ->
  (ev_data (ev x) = None -> redisLibevSetPriority ac pri w = Done tt w) /\
  (forall p b,
      ev_data (ev x) = Some p -> heap w !! p = Some b -> loop b = None ->
      redisLibevSetPriority ac pri w = Done tt w) /\
  (forall p b l,
      ev_data (ev x) = Some p -> heap w !! p = Some b -> loop b = Some l ->
      exists w' b',
        redisLibevSetPriority ac pri w = Done tt w' /\
        heap w' = <[p:=b']> (heap w) /\ ctxs w' = ctxs w /\
        trace_since w w' = setPriority_trace p pri b /\
        (forall l' y, reg (loops w') l' y <-> reg (loops w) l' y) /\
        (forall l', mn_now (loop_at w' l') = mn_now (loop_at w l')) /\
        priority b' = pri /\
        context b' = context b /\ loop b' = loop b /\
        reading b' = reading b /\ writing b' = writing b /\ timing b' = timing b /\
        (forall f,
            active (base_of f b') = active (base_of f b) /\
            data (base_of f b') = data (base_of f b) /\
            cb (base_of f b') = cb (base_of f b) /\
            w_priority (base_of f b')
            = if active (base_of f b) then Libev.clamp_pri pri else pri) /\
        fd (rev b') = fd (rev b) /\ events (rev b') = events (rev b) /\
        fd (wev b') = fd (wev b) /\ events (wev b') = events (wev b) /\
        repeat (timer b') = repeat (timer b) /\
        at_ (timer b')
        = if active (tm_base (timer b))
          then (repeat (timer b) + mn_now (loop_at w l))%Q
          else at_ (timer b)).
Proof.
  intros Hr Hx. apply reachable_Inv in Hr. split; [|split].
  - intros Hd. by apply (SetPriority_null ac x pri w).
  - intros p b Hd Hp Hl. rewrite (SetPriority_run_at w ac x p b pri Hx Hd Hp).
    unfold setPriority_block, setPriority_loops, setPriority_trace.
    rewrite Hl, app_nil_r, (insert_id _ _ _ Hp). by destruct w.
  - intros p b l Hd Hp Hl.
    destruct (Inv_agrees w p b Hr Hp) as [Hwf Hag].
    destruct (setPriority_keeps p pri b (loops w) Hwf Hag) as (_ & Hag' & Hso).
    pose proof (setPriority_block_fields pri (loops w) b l Hwf Hl) as Hf.
    cbv zeta in Hf.
    eexists _, (setPriority_block pri (loops w) b).
    split; [apply (SetPriority_run_at w ac x p b pri Hx Hd Hp)|].
    split; [reflexivity|]. split; [reflexivity|].
    split; [by apply trace_since_app|].
    split.
    { cbn [loops]. intros l' [q f]. destruct (decide (q = p)) as [->|Hq].
      - rewrite (Hag' l' f), (Hag l' f).
        destruct Hf as (_ & _ & -> & _ & _ & _ & Hw & _).
        destruct (Hw f) as (-> & _). reflexivity.
      - by apply Hso. }
    split.
    { intros l'. unfold loop_at. cbn [loops]. apply mn_now_setPriority_loops. }
    exact Hf.
Qed.

Lemma reachable_ex_timer10_late : reachable ex_timer10_late.
Proof.
  apply (reach_step ex_timer10 (Op_clock 5%positive 9)); [|exact I|].
  - apply (reach_step ex_attached (Op_scheduleTimer (Some 10%positive) tv10));
      [apply reachable_ex_attached|exact I|].
    vm_compute. reflexivity.
  - vm_compute. reflexivity.
Qed.

Lemma setPriority_frame_witness :
  exists w' b',
    redisLibevSetPriority 1%positive 1 ex_reading = Done tt w' /\
    heap w' = <[10%positive:=b']> (heap ex_reading) /\
    priority b' = 1%Z /\ reading b' = true /\ writing b' = false /\
    w_priority (io_base (rev b')) = 1%Z /\
    active (io_base (rev b')) = true /\ active (io_base (wev b')) = false.
Proof.
  destruct (setPriority_frame ex_reading 1%positive (ctx_at ex_reading 1%positive) 1
              reachable_ex_reading) as (_ & _ & H); [vm_compute; reflexivity|].
  destruct (H 10%positive (block_at ex_reading 10%positive) 5%positive)
    as (w' & b' & H1 & H2 & _ & _ & _ & _ & H3 & _ & _ & H4 & H5 & _ & H6 & _);
    [vm_compute; reflexivity ..|].
  exists w', b'.
  destruct (H6 W_rev) as (Ha1 & _ & _ & Hp1). destruct (H6 W_wev) as (Ha2 & _).
  repeat split; try assumption.
Defined.

(** C7 (as stated) fails: a timer armed for ten seconds when the clock
    showed 0 has the deadline 10; a priority change when the clock shows
    9 moves the deadline to 19, it does not keep the remaining second. *)
Lemma setPriority_frame_counterexample :
  reachable ex_timer10_late /\
  ~ spec_setPriority_keeps_deadline ex_timer10_late 1%positive 1.
Proof.
  split; [apply reachable_ex_timer10_late|].
  intros Hspec.
  specialize (Hspec (ctx_at ex_timer10_late 1%positive) 10%positive
                (block_at ex_timer10_late 10%positive)
                (after (redisLibevSetPriority 1%positive 1) ex_timer10_late)
                (block_at (after (redisLibevSetPriority 1%positive 1) ex_timer10_late)
                   10%positive)).
  assert ((at_ (timer (block_at (after (redisLibevSetPriority 1%positive 1)
                                   ex_timer10_late) 10%positive))
           == at_ (timer (block_at ex_timer10_late 10%positive)))%Q) as Heq.
  { apply Hspec; vm_compute; reflexivity. }
  vm_compute in Heq. discriminate Heq.
Qed.

(** ** [redisLibevSetTimeout] *)

Lemma setTimeout_block_fields p tv L b l :
  wf_block b -> loop b = Some l ->
  let b' := setTimeout_block p tv L b in
  timing b' = true /\
  repeat (timer b') = timeval_seconds tv /\
  active (tm_base (timer b')) = Libev.tstamp_true (timeval_seconds tv) /\
  (Libev.tstamp_true (timeval_seconds tv) = true ->
   (at_ (timer b') == mn_now (loop_in L l) + timeval_seconds tv)%Q) /\
  context b' = context b /\ loop b' = loop b /\
  reading b' = reading b /\ writing b' = writing b /\ priority b' = priority b /\
  rev b' = rev b /\ wev b' = wev b /\
  data (tm_base (timer b')) = (if timing b then data (tm_base (timer b)) else Some p).
Proof.
  intros Hwf Hl. open_wf b Hwf; try discriminate; injection Hl as ->;
    split_ifs;
    repeat match goal with
           | |- _ /\ _ => split
           | |- _ = true -> _ => intros ?
           end; try reflexivity; try discriminate; apply Qplus_comm.
Qed.

Lemma mn_now_setTimeout_loops p tv b L l :
  mn_now (loop_in (setTimeout_loops p tv b L) l) = mn_now (loop_in L l).
Proof.
  unfold setTimeout_loops. destruct (loop b); [|done].
  apply mn_now_timer_again_loops.
Qed.

Lemma setTimeout_null_loop w p b tv :
  heap w !! p = Some b -> loop b = None ->
  redisLibevSetTimeout (Some p) tv w = Done tt w.
Proof.
  intros Hp Hl. rewrite (SetTimeout_run_at w p b tv Hp).
  unfold setTimeout_block, setTimeout_loops, setTimeout_trace.
  rewrite Hl, app_nil_r, (insert_id _ _ _ Hp). by destruct w.
Qed.

(** One call on a live block with a loop, in a reachable store. *)
Lemma setTimeout_spec w p b l tv :
  reachable w -> heap w !! p = Some b -> loop b = Some l ->
  exists w' b',
    redisLibevSetTimeout (Some p) tv w = Done tt w' /\
    reachable w' /\
    heap w' = <[p:=b']> (heap w) /\ loop b' = Some l /\
    (forall l', mn_now (loop_at w' l') = mn_now (loop_at w l')) /\
    trace_since w w' = setTimeout_trace p tv b /\
    timing b' = true /\
    repeat (timer b') = timeval_seconds tv /\
    (Libev.tstamp_true (timeval_seconds tv) = true ->
     registered w' p W_timer /\
     (at_ (timer b') == mn_now (loop_at w l) + timeval_seconds tv)%Q) /\
    (Libev.tstamp_true (timeval_seconds tv) = false -> ~ registered w' p W_timer).
Proof.
  intros Hr Hp Hl.
  pose proof (SetTimeout_run_at w p b tv Hp) as Hrun.
  set (w' := World _ _ _ _) in Hrun.
  assert (reachable w') as Hr'.
  { by apply (reach_step w (Op_scheduleTimer (Some p) tv) w'). }
  destruct (Inv_agrees w p b (reachable_Inv w Hr) Hp) as [Hwf _].
  pose proof (setTimeout_block_fields p tv (loops w) b l Hwf Hl) as Hf.
  cbv zeta in Hf. destruct Hf as (H1 & H2 & H3 & H4 & _ & H5 & _).
  assert (heap w' !! p = Some (setTimeout_block p tv (loops w) b)) as Hp'.
  { subst w'. cbn [heap]. apply lookup_insert_eq. }
  pose proof (Inv_registered w' p _ W_timer (reachable_Inv w' Hr') Hp') as Hreg.
  cbn [base_of] in Hreg. rewrite H3 in Hreg.
  exists w', (setTimeout_block p tv (loops w) b).
  split; [exact Hrun|]. split; [exact Hr'|]. split; [reflexivity|].
  split; [by rewrite H5|].
  split.
  { intros l'. unfold loop_at. subst w'. cbn [loops]. apply mn_now_setTimeout_loops. }
  split; [by apply trace_since_app|].
  split; [exact H1|]. split; [exact H2|]. split.
  - intros Ht. split; [by apply Hreg|]. by apply H4.
  - intros Ht Hrg. apply Hreg in Hrg. congruence.
Qed.

(** C8 (as amended).  [redisLibevSetTimeout] changes nothing on a null
    state and on a state whose loop is null.  Otherwise, in a reachable
    store: it sets [timing], initialising the timer watcher the first
    time only; it converts the duration as C does, in [double]
    arithmetic ([tv_sec] and [tv_usec] converted, the quotient by
    1000000 and the sum each rounded to the nearest double), and stores
    the result in [repeat]; when the stored duration is not zero the
    timer is started with the deadline the loop's clock plus that
    duration, whatever deadline it had, so a second call replaces the
    remaining time of the first; a negative stored duration puts the
    deadline in the past, so the timer fires as soon as possible; and
    when the stored duration is zero the timer is not started: it is
    stopped if it was running.  For a [timeval] with no negative field
    the stored duration is not negative, and it is zero exactly when
    both fields are zero. *)
Theorem scheduleTimer_rearms (w : world) (p : ptr) (b : redisLibevEvents) (tv : timeval) :
  reachable w ->
  heap w !! p = Some b ->
  redisLibevSetTimeout None tv w = Done tt w /\
  (loop b = None -> redisLibevSetTimeout (Some p) tv w = Done tt w) /\
  (forall l,
      loop b = Some l ->
      exists w' b',
        redisLibevSetTimeout (Some p) tv w = Done tt w' /\
        heap w' = <[p:=b']> (heap w) /\
        timing b' = true /\
        trace_since w w'
        = (if timing b then []
           else [St_timing p true; Call_ev_init (p, W_timer) FN_Timeout;
                 St_data (p, W_timer) (Some p)])
          ++ [St_repeat p (timeval_seconds tv); Call_ev_timer_again l (p, W_timer)] /\
        repeat (timer b')
        = Double.add (Double.of_long (tv_sec tv))
            (Double.div (Double.of_long (tv_usec tv)) 1000000) /\
        (~ (timeval_seconds tv == 0)%Q ->
         registered w' p W_timer /\
         (at_ (timer b') == mn_now (loop_at w l) + timeval_seconds tv)%Q) /\
        ((timeval_seconds tv < 0)%Q -> fires_asap w' p) /\
        ((timeval_seconds tv == 0)%Q -> ~ registered w' p W_timer)) /\
  (forall l tv1 now tv2,
      loop b = Some l ->
      ~ (timeval_seconds tv2 == 0)%Q ->
      exists w2 b2,
        schedule_twice p l tv1 now tv2 w = Done tt w2 /\
        heap w2 !! p = Some b2 /\
        registered w2 p W_timer /\
        (at_ (timer b2) == now + timeval_seconds tv2)%Q) /\
  ((0 <= tv_sec tv)%Z -> (0 <= tv_usec tv)%Z ->
   (0 <= timeval_seconds tv)%Q /\
   ((timeval_seconds tv == 0)%Q <-> tv_sec tv = 0%Z /\ tv_usec tv = 0%Z)).
Proof.
  intros Hr Hp.
  assert (forall q, Libev.tstamp_true q = true <-> ~ (q == 0)%Q) as Htrue.
  { intros q. unfold Libev.tstamp_true. rewrite negb_true_iff.
    rewrite <- not_true_iff_false, Qeq_bool_iff. reflexivity. }
  split; [reflexivity|]. split; [by apply setTimeout_null_loop|].
  split; [|split; [|exact (timeval_seconds_sign tv)]].
  - intros l Hl.
    destruct (setTimeout_spec w p b l tv Hr Hp Hl)
      as (w' & b' & H1 & H2 & H3 & H4 & H5 & H6 & H7 & H8 & H9 & H10).
    exists w', b'. split; [exact H1|]. split; [exact H3|]. split; [exact H7|].
    split; [by rewrite H6; unfold setTimeout_trace; rewrite Hl|].
    split; [exact H8|]. split; [|split].
    + intros Hnz. apply H9. by apply Htrue.
    + intros Hneg.
      destruct H9 as [Hrg Hat].
      { apply Htrue. intros Hz. rewrite Hz in Hneg. by apply Qlt_irrefl in Hneg. }
      destruct Hrg as (b0 & l0 & Hb0 & Hl0 & Hrg).
      assert (b0 = b') as ->.
      { rewrite H3, lookup_insert_eq in Hb0. by injection Hb0. }
      assert (l0 = l) as -> by congruence.
      exists b', l. repeat split; try done.
      rewrite Hat, H5.
      rewrite <- (Qplus_0_r (mn_now (loop_at w l))) at 2.
      apply Qplus_le_r. by apply Qlt_le_weak.
    + intros Hz. apply H10. apply not_true_iff_false. intros Ht.
      by apply Htrue in Ht.
  - intros l tv1 now tv2 Hl Hnz. unfold schedule_twice, bindM.
    destruct (setTimeout_spec w p b l tv1 Hr Hp Hl)
      as (w1 & b1 & H1 & Hr1 & Hh1 & Hl1 & _).
    rewrite H1. unfold set_clock, bindM, get_loop, put_loop.
    set (w1' := World _ _ _ _).
    assert (reachable w1') as Hr1'.
    { by apply (reach_step w1 (Op_clock l now) w1'). }
    assert (heap w1' !! p = Some b1) as Hp1.
    { subst w1'. cbn [heap]. rewrite Hh1. apply lookup_insert_eq. }
    destruct (setTimeout_spec w1' p b1 l tv2 Hr1' Hp1 Hl1)
      as (w2 & b2 & H2 & _ & Hh2 & _ & _ & _ & _ & _ & H9 & _).
    exists w2, b2. split; [exact H2|].
    split; [rewrite Hh2; apply lookup_insert_eq|].
    destruct H9 as [Hrg Hat]; [by apply Htrue|].
    split; [exact Hrg|]. rewrite Hat.
    subst w1'. unfold loop_at, loop_in. cbn [loops]. rewrite lookup_insert_eq.
    reflexivity.
Qed.

Lemma scheduleTimer_rearms_witness :
  exists w2 b2,
    schedule_twice 10%positive 5%positive tv10 9 (Timeval 2 500000) ex_attached
    = Done tt w2 /\
    heap w2 !! 10%positive = Some b2 /\
    registered w2 10%positive W_timer /\
    (at_ (timer b2) == 23 # 2)%Q.
Proof.
  destruct (scheduleTimer_rearms ex_attached 10%positive
              (block_at ex_attached 10%positive) tv0 reachable_ex_attached)
    as (_ & _ & _ & H & _); [vm_compute; reflexivity|].
  destruct (H 5%positive tv10 9%Q (Timeval 2 500000)) as (w2 & b2 & H1 & H2 & H3 & H4).
  - vm_compute. reflexivity.
  - vm_compute. discriminate.
  - exists w2, b2. split; [exact H1|]. split; [exact H2|]. split; [exact H3|].
    rewrite H4. vm_compute. reflexivity.
Defined.

(** C8 (as stated) fails for a zero duration: after [scheduleTimer]
    with zero seconds the timer is not started on the loop, so it does
    not fire as soon as possible; it does not fire. *)
Lemma scheduleTimer_rearms_counterexample :
  reachable ex_attached /\ ~ spec_nonpositive_fires_asap ex_attached 10%positive tv0.
Proof.
  split; [apply reachable_ex_attached|].
  intros Hspec.
  destruct (Hspec ltac:(vm_compute; discriminate) ex_timer0)
    as (b & l & Hb & Hl & Hrg & _); [vm_compute; reflexivity|].
  assert (b = block_at ex_timer0 10%positive) as ->.
  { vm_compute in Hb. injection Hb as <-. vm_compute. reflexivity. }
  vm_compute in Hl. injection Hl as <-.
  revert Hrg.
  apply (proj1 (bool_decide_eq_false
                  (reg (loops ex_timer0) 5%positive (10%positive, W_timer)))).
  vm_compute. reflexivity.
Qed.

(** ** The timer's priority *)

Ltac decide_bools :=
  repeat match goal with
         | a : bool |- _ => destruct a
         end.

Lemma priority_then_first_schedule p pri tv L L' b l :
  loop b = Some l -> timing b = false ->
  let b1 := setPriority_block pri L b in
  let b2 := setTimeout_block p tv L' b1 in
  timing b1 = false /\ loop b1 = Some l /\ priority b1 = pri /\
  w_priority (tm_base (timer b1)) = pri /\
  w_priority (tm_base (timer b2)) = 0%Z /\ priority b2 = pri.
Proof.
  intros Hl Ht. open_block b. cbn [loop timing] in Hl, Ht. subst.
  decide_bools; split_ifs; repeat split; reflexivity.
Qed.

(** C9.  Take a live block with a loop whose [timing] is false.
    [redisLibevSetPriority] gives the timer watcher the priority and
    stores it in the block.  The first [redisLibevSetTimeout] after it
    runs [ev_init] on the timer watcher, and afterwards the timer
    watcher's priority is 0 while the block's stored priority is still
    the one that was set. *)
Theorem priority_lost_on_first_schedule (w : world) (ac : ctx_ptr)
    (x : redisAsyncContext) (p : ptr) (b : redisLibevEvents) (l : loop_ptr)
    (pri : Z) (tv : timeval) :
  ctxs w !! ac = Some x ->
  ev_data (ev x) = Some p ->
  heap w !! p = Some b ->
  loop b = Some l ->
  timing b = false ->
  exists w1 b1 w2 b2,
    redisLibevSetPriority ac pri w = Done tt w1 /\
    heap w1 !! p = Some b1 /\
    timing b1 = false /\ priority b1 = pri /\
    w_priority (tm_base (timer b1)) = pri /\
    redisLibevSetTimeout (Some p) tv w1 = Done tt w2 /\
    heap w2 !! p = Some b2 /\
    In (Call_ev_init (p, W_timer) FN_Timeout) (trace_since w1 w2) /\
    w_priority (tm_base (timer b2)) = 0%Z /\
    priority b2 = pri.
Proof.
  intros Hx Hd Hp Hl Ht.
  pose proof (SetPriority_run_at w ac x p b pri Hx Hd Hp) as H1.
  set (w1 := World _ _ _ _) in H1.
  assert (heap w1 !! p = Some (setPriority_block pri (loops w) b)) as Hp1.
  { subst w1. cbn [heap]. apply lookup_insert_eq. }
  pose proof (SetTimeout_run_at w1 p _ tv Hp1) as H2.
  set (w2 := World _ _ _ _) in H2.
  destruct (priority_then_first_schedule p pri tv (loops w) (loops w1) b l Hl Ht)
    as (Ht1 & Hl1 & Hpr1 & Hw1 & Hw2 & Hpr2).
  exists w1, (setPriority_block pri (loops w) b), w2,
    (setTimeout_block p tv (loops w1) (setPriority_block pri (loops w) b)).
  split; [exact H1|]. split; [exact Hp1|]. split; [exact Ht1|].
  split; [exact Hpr1|]. split; [exact Hw1|]. split; [exact H2|].
  split; [subst w2; cbn [heap]; apply lookup_insert_eq|].
  split.
  { rewrite (trace_since_app w1 w2 _ eq_refl).
    unfold setTimeout_trace. rewrite Hl1, Ht1. cbn. tauto. }
  split; [exact Hw2|exact Hpr2].
Qed.

Lemma priority_lost_on_first_schedule_witness :
  exists w1 b1 w2 b2,
    redisLibevSetPriority 1%positive 2 ex_attached = Done tt w1 /\
    heap w1 !! 10%positive = Some b1 /\
    w_priority (tm_base (timer b1)) = 2%Z /\
    redisLibevSetTimeout (Some 10%positive) tv10 w1 = Done tt w2 /\
    heap w2 !! 10%positive = Some b2 /\
    w_priority (tm_base (timer b2)) = 0%Z /\
    priority b2 = 2%Z.
Proof.
  destruct (priority_lost_on_first_schedule ex_attached 1%positive
              (ctx_at ex_attached 1%positive) 10%positive
              (block_at ex_attached 10%positive) 5%positive 2 tv10)
    as (w1 & b1 & w2 & b2 & H1 & H2 & _ & _ & H3 & H4 & H5 & _ & H6 & H7);
    [vm_compute; reflexivity ..|].
  exists w1, b1, w2, b2. repeat split; assumption.
Defined.

(** ** The hook table and the timer flag *)

Lemma trace_since_World w h C L tr :
  trace_since w (World h C L (log w ++ tr)) = tr.
Proof. by apply trace_since_app. Qed.

Lemma timing_io_block k o b : timing (io_block (watcher_of k) o b) = timing b.
Proof.
  destruct k, o; cbn [io_block watcher_of]; unfold add_block, del_block;
    repeat match goal with
           | |- context [match ?c with _ => _ end] => destruct c eqn:?
           end; hdr; congruence.
Qed.

Lemma io_trace_keeps_timing k o p b :
  forallb (fun e => negb (clears_timing e)) (io_trace (watcher_of k) o p b) = true.
Proof.
  destruct k, o; cbn [io_trace watcher_of]; unfold add_trace, del_trace;
    repeat match goal with
           | |- context [match ?c with _ => _ end] => destruct c eqn:?
           end; reflexivity.
Qed.

Lemma timing_setTimeout_block p tv L b :
  timing b = true -> timing (setTimeout_block p tv L b) = true.
Proof.
  intros Ht. unfold setTimeout_block, setTimeout_armed. rewrite Ht.
  destruct (loop b); hdr; done.
Qed.

Lemma setTimeout_trace_keeps_timing p tv b :
  forallb (fun e => negb (clears_timing e)) (setTimeout_trace p tv b) = true.
Proof. unfold setTimeout_trace. destruct (loop b), (timing b); reflexivity. Qed.

Lemma hook_io_keeps_timing k o w p b w' :
  heap w !! p = Some b -> timing b = true ->
  run_io k (Some p) o w = Done tt w' ->
  exists b',
    heap w' !! p = Some b' /\ timing b' = true /\
    forallb (fun e => negb (clears_timing e)) (trace_since w w') = true.
Proof.
  intros Hp Ht Hrun. rewrite (run_io_at k o w p b Hp) in Hrun.
  injection Hrun as <-. exists (io_block (watcher_of k) o b). cbn [heap].
  split; [apply lookup_insert_eq|].
  split; [by rewrite timing_io_block|].
  rewrite trace_since_World. apply io_trace_keeps_timing.
Qed.

Lemma timing_setPriority_block pri L b :
  timing (setPriority_block pri L b) = timing b.
Proof.
  unfold setPriority_block, setPriority_timer, setPriority_io.
  repeat match goal with
         | |- context [if ?c then _ else _] => destruct c eqn:?
         | |- context [match ?c with Some _ => _ | None => _ end] => destruct c eqn:?
         end; hdr; reflexivity.
Qed.

Lemma call_hook_installed s ac x p tv w :
  ctxs w !! ac = Some x ->
  ev x = installed_hooks p ->
  call_hook s ac tv w
  = match s with
    | H_addRead => redisLibevAddRead (Some p) w
    | H_delRead => redisLibevDelRead (Some p) w
    | H_addWrite => redisLibevAddWrite (Some p) w
    | H_delWrite => redisLibevDelWrite (Some p) w
    | H_cleanup => redisLibevCleanup (Some p) w
    | H_scheduleTimer => redisLibevSetTimeout (Some p) tv w
    end.
Proof.
  intros Hx He. unfold call_hook, bindM, load_ctx.
  rewrite Hx. cbv beta iota. rewrite Hx. cbv beta iota. rewrite He.
  by destruct s.
Qed.

(** C10.  When [redisLibevAttach] succeeds the context holds exactly
    the table [installed_hooks]: the six slots hold [redisLibevAddRead],
    [redisLibevDelRead], [redisLibevAddWrite], [redisLibevDelWrite],
    [redisLibevCleanup] and [redisLibevSetTimeout]; no slot holds
    [redisLibevStopTimer].  On a context with that table whose block is
    live with [timing] true, a dispatch of any hook other than cleanup
    leaves the block live with [timing] true, and neither stores false
    to [timing] nor calls [ev_timer_stop]; a dispatch of the cleanup
    hook releases the block.  [redisLibevSetPriority], which is not a
    hook, leaves [timing] as it is too. *)
Theorem timing_cleared_only_by_cleanup :
  (forall w nx loop_ ac w',
      redisLibevAttach nx loop_ ac w = Done REDIS_OK w' ->
      exists p x', ctxs w' !! ac = Some x' /\ ev x' = installed_hooks p) /\
  (forall p s,
      slot s (installed_hooks p)
      = Some match s with
             | H_addRead => FN_AddRead
             | H_delRead => FN_DelRead
             | H_addWrite => FN_AddWrite
             | H_delWrite => FN_DelWrite
             | H_cleanup => FN_Cleanup
             | H_scheduleTimer => FN_SetTimeout
             end /\
      slot s (installed_hooks p) <> Some FN_StopTimer) /\
  (forall w ac x p b s tv w',
      ctxs w !! ac = Some x ->
      ev x = installed_hooks p ->
      heap w !! p = Some b ->
      timing b = true ->
      call_hook s ac tv w = Done tt w' ->
      match s with
      | H_cleanup => heap w' !! p = None
      | _ =>
          exists b',
            heap w' !! p = Some b' /\ timing b' = true /\
            forallb (fun e => negb (clears_timing e)) (trace_since w w') = true
      end) /\
  (forall w ac x p b pri w',
      ctxs w !! ac = Some x ->
      ev_data (ev x) = Some p ->
      heap w !! p = Some b ->
      redisLibevSetPriority ac pri w = Done tt w' ->
      exists b', heap w' !! p = Some b' /\ timing b' = timing b).
Proof.
  split; [|split; [|split]].
  4:{ intros w ac x p b pri w' Hx Hd Hp Hrun.
      rewrite (SetPriority_run_at w ac x p b pri Hx Hd Hp) in Hrun.
      injection Hrun as <-. exists (setPriority_block pri (loops w) b). cbn [heap].
      split; [apply lookup_insert_eq|apply timing_setPriority_block]. }
  - intros w nx loop_ ac w' Hrun.
    destruct (ctxs w !! ac) as [x|] eqn:Hx;
      [|by unfold redisLibevAttach, bindM, load_ctx in Hrun; rewrite Hx in Hrun].
    destruct (ev_data (ev x)) as [p|] eqn:Hd.
    { by rewrite (Attach_attached w nx loop_ ac x p Hx Hd) in Hrun. }
    destruct nx as [[p junk]|].
    + rewrite (Attach_run w p junk loop_ ac x Hx Hd) in Hrun.
      injection Hrun as <-. exists p, (attach_ctx p x). cbn [ctxs].
      by rewrite lookup_insert_eq.
    + by rewrite (Attach_no_memory w loop_ ac x Hx Hd) in Hrun.
  - intros p s. by destruct s.
  - intros w ac x p b s tv w' Hx He Hp Ht Hrun.
    rewrite (call_hook_installed s ac x p tv w Hx He) in Hrun.
    destruct s.
    + exact (hook_io_keeps_timing Read Add w p b w' Hp Ht Hrun).
    + exact (hook_io_keeps_timing Read Del w p b w' Hp Ht Hrun).
    + exact (hook_io_keeps_timing Write Add w p b w' Hp Ht Hrun).
    + exact (hook_io_keeps_timing Write Del w p b w' Hp Ht Hrun).
    + assert (forall c, context b = Some c -> is_Some (ctxs w !! c)) as Hc.
      { intros c Hc. destruct (ctxs w !! c) eqn:Hx'; [eauto|].
        by rewrite (cleanup_fault w p b c Hp Hc Hx') in Hrun. }
      rewrite (cleanup_run_at w p b Hp Hc) in Hrun. injection Hrun as <-.
      cbn [heap]. apply lookup_delete_eq.
    + rewrite (SetTimeout_run_at w p b tv Hp) in Hrun. injection Hrun as <-.
      exists (setTimeout_block p tv (loops w) b). cbn [heap].
      split; [apply lookup_insert_eq|].
      split; [by apply timing_setTimeout_block|].
      rewrite trace_since_World. apply setTimeout_trace_keeps_timing.
Qed.

Lemma timing_cleared_only_by_cleanup_witness :
  (exists b',
      heap (after (call_hook H_delRead 1%positive tv0) ex_timer10) !! 10%positive
      = Some b' /\ timing b' = true) /\
  heap (after (call_hook H_cleanup 1%positive tv0) ex_timer10) !! 10%positive = None.
Proof.
  destruct timing_cleared_only_by_cleanup as (_ & _ & H & _).
  split.
  - destruct (H ex_timer10 1%positive (ctx_at ex_timer10 1%positive) 10%positive
                (block_at ex_timer10 10%positive) H_delRead tv0
                (after (call_hook H_delRead 1%positive tv0) ex_timer10))
      as (b' & H1 & H2 & _).
    + vm_compute. reflexivity.
    + vm_compute. reflexivity.
    + vm_compute. reflexivity.
    + vm_compute. reflexivity.
    + vm_compute. reflexivity.
    + exists b'. split; [exact H1|exact H2].
  - pose proof (H ex_timer10 1%positive (ctx_at ex_timer10 1%positive) 10%positive
                  (block_at ex_timer10 10%positive) H_cleanup tv0
                  (after (call_hook H_cleanup 1%positive tv0) ex_timer10)) as Hc.
    cbv iota in Hc. apply Hc.
    + vm_compute. reflexivity.
    + vm_compute. reflexivity.
    + vm_compute. reflexivity.
    + vm_compute. reflexivity.
    + vm_compute. reflexivity.
Defined.

(** * Further properties *)

(** ** [redisLibevStopTimer] *)

Lemma StopTimer_run p h C L b Lg :
  redisLibevStopTimer (Some p) (World (<[p:=b]> h) C L Lg)
  = Done tt (World (<[p:=stopTimer_block L b]> h) C (stopTimer_loops p b L)
               (Lg ++ stopTimer_trace p b)).
Proof.
  unfold redisLibevStopTimer, stopTimer_block, stopTimer_loops, stopTimer_trace.
  arun. destruct (timing b); arun; [|by rewrite app_nil_r].
  destruct (loop b); arun; by rewrite <- ?app_assoc.
Qed.

Lemma StopTimer_run_at w p b :
  heap w !! p = Some b ->
  redisLibevStopTimer (Some p) w
  = Done tt (World (<[p:=stopTimer_block (loops w) b]> (heap w)) (ctxs w)
               (stopTimer_loops p b (loops w)) (log w ++ stopTimer_trace p b)).
Proof. intros H. rewrite (run_focus _ w p b H). by rewrite StopTimer_run. Qed.

Lemma stopTimer_keeps p b L :
  wf_block b -> agrees p b L ->
  wf_block (stopTimer_block L b) /\
  agrees p (stopTimer_block L b) (stopTimer_loops p b L) /\
  same_others p L (stopTimer_loops p b L).
Proof.
  intros Hwf Hag. split; [|split].
  - unfold agrees in Hag; open_wf b Hwf; unfold stopTimer_block; close_wf.
  - unfold agrees in Hag; open_wf b Hwf;
      unfold agrees, stopTimer_block, stopTimer_loops; split_ifs; close_agrees Hag.
  - unfold stopTimer_loops. others.
Qed.

Lemma stopTimer_block_fields L b :
  let b' := stopTimer_block L b in
  timing b' = false /\
  context b' = context b /\ loop b' = loop b /\
  reading b' = reading b /\ writing b' = writing b /\ priority b' = priority b /\
  rev b' = rev b /\ wev b' = wev b /\
  repeat (timer b') = repeat (timer b) /\
  data (tm_base (timer b')) = data (tm_base (timer b)) /\
  w_priority (tm_base (timer b')) = w_priority (tm_base (timer b)) /\
  (timing b = true -> loop b <> None -> active (tm_base (timer b')) = false).
Proof.
  open_block b. unfold stopTimer_block. decide_bools; split_ifs;
    repeat split; try reflexivity; intros Ht H;
    first [reflexivity | discriminate Ht | by destruct H].
Qed.

(** X1.  [redisLibevStopTimer] does nothing on a null state and on a state
    whose [timing] is false.  On a live block of a reachable store with
    [timing] true it clears [timing]; afterwards the timer is not
    started on any loop, the flags again mirror the registrations of
    all three watchers, and the read and write watchers, [repeat] and
    the timer's back-reference and priority are as before.  When the
    block's loop is null no libev function is called. *)
Theorem stopTimer_stops (w : world) (p : ptr) (b : redisLibevEvents) :
  reachable w ->
  heap w !! p = Some b ->
  redisLibevStopTimer None w = Done tt w /\
  (timing b = false -> redisLibevStopTimer (Some p) w = Done tt w) /\
  (timing b = true ->
   exists w' b',
     redisLibevStopTimer (Some p) w = Done tt w' /\
     heap w' = <[p:=b']> (heap w) /\ ctxs w' = ctxs w /\
     Inv w' /\
     timing b' = false /\ (forall l, ~ reg (loops w') l (p, W_timer)) /\
     reading b' = reading b /\ writing b' = writing b /\
     rev b' = rev b /\ wev b' = wev b /\
     (registered w' p W_rev <-> registered w p W_rev) /\
     (registered w' p W_wev <-> registered w p W_wev) /\
     repeat (timer b') = repeat (timer b) /\
     data (tm_base (timer b')) = data (tm_base (timer b)) /\
     w_priority (tm_base (timer b')) = w_priority (tm_base (timer b)) /\
     (loop b = None -> List.filter is_loop_call (trace_since w w') = [])).
Proof.
  intros Hr Hp. apply reachable_Inv in Hr.
  split; [reflexivity|]. split.
  - intros Ht. rewrite (StopTimer_run_at w p b Hp).
    unfold stopTimer_block, stopTimer_loops, stopTimer_trace.
    rewrite Ht, app_nil_r, (insert_id _ _ _ Hp). by destruct w.
  - intros Ht.
    destruct (Inv_agrees w p b Hr Hp) as [Hwf Hag].
    destruct (stopTimer_keeps p b (loops w) Hwf Hag) as (Hwf' & Hag' & Hso).
    pose proof (stopTimer_block_fields (loops w) b) as Hf. cbv zeta in Hf.
    destruct Hf as (F1 & F2 & F3 & F4 & F5 & F6 & F7 & F8 & F9 & F10 & F11 & F12).
    pose proof (StopTimer_run_at w p b Hp) as Hrun.
    set (w' := World _ _ _ _) in Hrun.
    assert (Inv w') as HI' by (by apply Inv_update).
    assert (heap w' !! p = Some (stopTimer_block (loops w) b)) as Hp'.
    { subst w'. cbn [heap]. apply lookup_insert_eq. }
    exists w', (stopTimer_block (loops w) b).
    split; [exact Hrun|]. split; [reflexivity|]. split; [reflexivity|].
    split; [exact HI'|]. split; [exact F1|].
    split.
    { intros l Hrg. apply (Hag' l W_timer) in Hrg. destruct Hrg as [Hl Ha].
      cbn [base_of] in Ha. rewrite F12 in Ha; [discriminate|exact Ht|].
      rewrite <- F3. congruence. }
    split; [exact F4|]. split; [exact F5|]. split; [exact F7|]. split; [exact F8|].
    split.
    { rewrite <- (Inv_registered w' p _ W_rev HI' Hp'),
        <- (Inv_registered w p b W_rev Hr Hp). cbn [base_of]. by rewrite F7. }
    split.
    { rewrite <- (Inv_registered w' p _ W_wev HI' Hp'),
        <- (Inv_registered w p b W_wev Hr Hp). cbn [base_of]. by rewrite F8. }
    split; [exact F9|]. split; [exact F10|]. split; [exact F11|].
    intros Hl. rewrite (trace_since_app w w' (stopTimer_trace p b) eq_refl).
    unfold stopTimer_trace. by rewrite Ht, Hl.
Qed.

Lemma reachable_ex_timer10 : reachable ex_timer10.
Proof.
  apply (reach_step ex_attached (Op_scheduleTimer (Some 10%positive) tv10));
    [apply reachable_ex_attached|exact I|].
  vm_compute. reflexivity.
Qed.

Lemma stopTimer_stops_witness :
  registered ex_timer10 10%positive W_timer /\
  exists w' b',
    redisLibevStopTimer (Some 10%positive) ex_timer10 = Done tt w' /\
    heap w' = <[10%positive:=b']> (heap ex_timer10) /\
    timing b' = false /\
    (forall l, ~ reg (loops w') l (10%positive, W_timer)).
Proof.
  destruct (stopTimer_stops ex_timer10 10%positive (block_at ex_timer10 10%positive)
              reachable_ex_timer10) as (_ & _ & H); [vm_compute; reflexivity|].
  destruct H as (w' & b' & H1 & H2 & _ & _ & H3 & H4 & _); [vm_compute; reflexivity|].
  split.
  - exists (block_at ex_timer10 10%positive), 5%positive.
    split; [vm_compute; reflexivity|]. split; [vm_compute; reflexivity|].
    apply (proj1 (bool_decide_eq_true
                    (reg (loops ex_timer10) 5%positive (10%positive, W_timer)))).
    vm_compute. reflexivity.
  - exists w', b'. repeat split; assumption.
Defined.

(** ** Ownership in reachable stores *)

Ltac open_own b Hown :=
  open_block b;
  destruct Hown as (Hd & Hc1 & Hc2 & Hc3);
  pose proof (Hd W_rev) as Hd1; pose proof (Hd W_wev) as Hd2;
  pose proof (Hd W_timer) as Hd3; clear Hd;
  blk_in Hd1; blk_in Hd2; blk_in Hd3; blk_in Hc1; blk_in Hc2; blk_in Hc3;
  subst.

Ltac close_own :=
  decide_bools; split_ifs; unfold own_block;
  repeat match goal with
         | |- _ /\ _ => split
         | |- forall f : wfield, _ => intros []
         end; reflexivity.

Lemma io_block_own k o p b :
  own_block p b ->
  own_block p (io_block (watcher_of k) o b) /\
  context (io_block (watcher_of k) o b) = context b /\
  fd (rev (io_block (watcher_of k) o b)) = fd (rev b) /\
  fd (wev (io_block (watcher_of k) o b)) = fd (wev b).
Proof.
  intros Hown. open_own b Hown.
  destruct k, o; cbn [io_block watcher_of]; unfold add_block, del_block; close_own.
Qed.

Lemma setTimeout_block_own p tv L b :
  own_block p b ->
  own_block p (setTimeout_block p tv L b) /\
  context (setTimeout_block p tv L b) = context b /\
  fd (rev (setTimeout_block p tv L b)) = fd (rev b) /\
  fd (wev (setTimeout_block p tv L b)) = fd (wev b).
Proof.
  intros Hown. open_own b Hown.
  unfold setTimeout_block, setTimeout_armed; close_own.
Qed.

Lemma setPriority_block_own p pri L b :
  own_block p b ->
  own_block p (setPriority_block pri L b) /\
  context (setPriority_block pri L b) = context b /\
  fd (rev (setPriority_block pri L b)) = fd (rev b) /\
  fd (wev (setPriority_block pri L b)) = fd (wev b).
Proof.
  intros Hown. open_own b Hown.
  unfold setPriority_block, setPriority_timer, setPriority_io; close_own.
Qed.

Lemma owned_update w p b b' L' Lg' :
  owned w -> heap w !! p = Some b ->
  own_block p b' /\ context b' = context b /\
  fd (rev b') = fd (rev b) /\ fd (wev b') = fd (wev b) ->
  owned (World (<[p:=b']> (heap w)) (ctxs w) L' Lg').
Proof.
  intros Ho Hp (Hown & Hc & Hf1 & Hf2) q bq. cbn [heap ctxs].
  rewrite lookup_insert. case_decide as Hq.
  - intros [= <-]. subst q. split; [exact Hown|].
    destruct (Ho p b Hp) as (_ & ac & x & H1 & H2 & H3 & H4 & H5).
    exists ac, x. rewrite Hc, Hf1, Hf2. by repeat split.
  - apply Ho.
Qed.

Lemma own_attach_block p junk loop_ ac fd_ :
  own_block p (attach_block p junk loop_ ac fd_).
Proof. repeat split. by intros []. Qed.

Lemma owned_step w o w' :
  owned w -> fresh_alloc w o -> run_op o w = Done tt w' -> owned w'.
Proof.
  intros Ho Hfresh Hrun.
  destruct o as [nx loop_ ac|d|d|d|d|d tv|ac pri|d|l now]; cbn [run_op] in Hrun.
  - (* attach *)
    unfold bindM in Hrun.
    destruct (ctxs w !! ac) as [x|] eqn:Hx;
      [|by unfold redisLibevAttach, bindM, load_ctx in Hrun; rewrite Hx in Hrun].
    destruct (ev_data (ev x)) as [p|] eqn:Hd.
    { rewrite (Attach_attached w nx loop_ ac x p Hx Hd) in Hrun.
      by injection Hrun as <-. }
    destruct nx as [[p junk]|].
    + rewrite (Attach_run w p junk loop_ ac x Hx Hd) in Hrun.
      injection Hrun as <-. cbn [fresh_alloc] in Hfresh.
      intros q bq. cbn [heap ctxs]. rewrite lookup_insert. case_decide as Hq.
      * intros [= <-]. subst q. split; [apply own_attach_block|].
        exists ac, (attach_ctx p x). rewrite lookup_insert_eq. by repeat split.
      * intros Hbq. destruct (Ho q bq Hbq) as (Hown & acq & xq & H1 & H2 & H3 & H4 & H5).
        split; [exact Hown|]. exists acq, xq.
        rewrite lookup_insert_ne; [by repeat split|].
        intros <-. congruence.
    + rewrite (Attach_no_memory w loop_ ac x Hx Hd) in Hrun.
      by injection Hrun as <-.
  - destruct d as [p|]; [|by injection Hrun as <-].
    destruct (heap w !! p) as [b|] eqn:Hp;
      [|by rewrite (proj1 (dangling_faults w p Hp)) in Hrun].
    pose proof (run_io_at Read Add w p b Hp) as E; cbn [run_io] in E.
    rewrite E in Hrun; clear E. injection Hrun as <-.
    apply (owned_update w p b); [done..|].
    apply (io_block_own Read Add). by apply (Ho p b).
  - destruct d as [p|]; [|by injection Hrun as <-].
    destruct (heap w !! p) as [b|] eqn:Hp;
      [|by rewrite (proj1 (proj2 (dangling_faults w p Hp))) in Hrun].
    pose proof (run_io_at Read Del w p b Hp) as E; cbn [run_io] in E.
    rewrite E in Hrun; clear E. injection Hrun as <-.
    apply (owned_update w p b); [done..|].
    apply (io_block_own Read Del). by apply (Ho p b).
  - destruct d as [p|]; [|by injection Hrun as <-].
    destruct (heap w !! p) as [b|] eqn:Hp;
      [|by rewrite (proj1 (proj2 (proj2 (dangling_faults w p Hp)))) in Hrun].
    pose proof (run_io_at Write Add w p b Hp) as E; cbn [run_io] in E.
    rewrite E in Hrun; clear E. injection Hrun as <-.
    apply (owned_update w p b); [done..|].
    apply (io_block_own Write Add). by apply (Ho p b).
  - destruct d as [p|]; [|by injection Hrun as <-].
    destruct (heap w !! p) as [b|] eqn:Hp;
      [|by rewrite (proj1 (proj2 (proj2 (proj2 (dangling_faults w p Hp))))) in Hrun].
    pose proof (run_io_at Write Del w p b Hp) as E; cbn [run_io] in E.
    rewrite E in Hrun; clear E. injection Hrun as <-.
    apply (owned_update w p b); [done..|].
    apply (io_block_own Write Del). by apply (Ho p b).
  - destruct d as [p|]; [|by injection Hrun as <-].
    destruct (heap w !! p) as [b|] eqn:Hp.
    2:{ destruct (dangling_faults w p Hp) as (_ & _ & _ & _ & _ & Hf).
        by rewrite Hf in Hrun. }
    rewrite (SetTimeout_run_at w p b tv Hp) in Hrun. injection Hrun as <-.
    apply (owned_update w p b); [done..|].
    apply setTimeout_block_own. by apply (Ho p b).
  - destruct (ctxs w !! ac) as [x|] eqn:Hx;
      [|by unfold redisLibevSetPriority, bindM, load_ctx in Hrun; rewrite Hx in Hrun].
    destruct (ev_data (ev x)) as [p|] eqn:Hd.
    2:{ rewrite (SetPriority_null ac x pri w Hx Hd) in Hrun. by injection Hrun as <-. }
    destruct (heap w !! p) as [b|] eqn:Hp.
    2:{ unfold redisLibevSetPriority, bindM, load_ctx, load in Hrun.
        by rewrite Hx, Hd, Hp in Hrun. }
    rewrite (SetPriority_run_at w ac x p b pri Hx Hd Hp) in Hrun. injection Hrun as <-.
    apply (owned_update w p b); [done..|].
    apply setPriority_block_own. by apply (Ho p b).
  - (* cleanup *)
    destruct d as [p|]; [|by injection Hrun as <-].
    destruct (heap w !! p) as [b|] eqn:Hp.
    2:{ destruct (dangling_faults w p Hp) as (_ & _ & _ & _ & Hf & _).
        by rewrite Hf in Hrun. }
    destruct (Ho p b Hp) as (_ & ac & x & Hc & Hx & Hd & _).
    assert (forall c, context b = Some c -> is_Some (ctxs w !! c)) as Hcs.
    { intros c Hc'. rewrite Hc in Hc'. injection Hc' as <-. eauto. }
    rewrite (cleanup_run_at w p b Hp Hcs) in Hrun. injection Hrun as <-.
    intros q bq. cbn [heap ctxs]. rewrite lookup_delete. case_decide as Hq; [done|].
    intros Hbq. destruct (Ho q bq Hbq) as (Hown & acq & xq & H1 & H2 & H3 & H4 & H5).
    split; [exact Hown|]. exists acq, xq.
    unfold cleanup_ctxs. rewrite Hc, Hx.
    rewrite lookup_insert_ne; [by repeat split|].
    intros <-. congruence.
  - unfold set_clock, bindM, get_loop, put_loop in Hrun. injection Hrun as <-.
    exact Ho.
Qed.

Lemma reachable_owned w : reachable w -> owned w.
Proof.
  induction 1 as [w Hh Hl|w o w' _ IH Hf Hrun].
  - intros p b. by rewrite Hh, lookup_empty.
  - by apply (owned_step w o w').
Qed.

(** X2.  In every reachable store, each of the three watchers of a live
    block points back at the block and carries its own callback
    ([redisLibevReadEvent], [redisLibevWriteEvent],
    [redisLibevTimeout]); the block refers to a live client context
    whose hook-table back-reference is the block; and both I/O watchers
    watch that context's descriptor.  Two live blocks never share a
    context. *)
Theorem blocks_are_owned (w : world) (p : ptr) (b : redisLibevEvents) :
  reachable w ->
  heap w !! p = Some b ->
  (forall f, data (base_of f b) = Some p) /\
  cb (io_base (rev b)) = Some FN_ReadEvent /\
  cb (io_base (wev b)) = Some FN_WriteEvent /\
  cb (tm_base (timer b)) = Some FN_Timeout /\
  (exists ac x,
      context b = Some ac /\ ctxs w !! ac = Some x /\ ev_data (ev x) = Some p /\
      fd (rev b) = c_fd x /\ fd (wev b) = c_fd x) /\
  (forall q bq, heap w !! q = Some bq -> context bq = context b -> q = p).
Proof.
  intros Hr Hp. apply reachable_owned in Hr.
  destruct (Hr p b Hp) as ((H1 & H2 & H3 & H4) & ac & x & H5 & H6 & H7 & H8 & H9).
  split; [exact H1|]. split; [exact H2|]. split; [exact H3|]. split; [exact H4|].
  split; [by exists ac, x|].
  intros q bq Hq Hc.
  destruct (Hr q bq Hq) as (_ & acq & xq & G5 & G6 & G7 & _). congruence.
Qed.

Lemma reachable_ex_two : reachable ex_two.
Proof.
  apply (reach_step ex_two_c (Op_scheduleTimer (Some 20%positive) tv10));
    [|exact I|vm_compute; reflexivity].
  apply (reach_step ex_two_b (Op_addRead (Some 10%positive)));
    [|exact I|vm_compute; reflexivity].
  apply (reach_step ex_two_a
           (Op_attach (Some (20%positive, ex_junk')) (Some 5%positive) 2%positive));
    [|vm_compute; reflexivity|vm_compute; reflexivity].
  apply (reach_step ex_init2
           (Op_attach (Some (10%positive, ex_junk)) (Some 5%positive) 1%positive));
    [|reflexivity|vm_compute; reflexivity].
  apply reach_init; [reflexivity|].
  intros l x. unfold reg, loop_in. cbn [loops ex_init2].
  rewrite lookup_empty. cbn. set_solver.
Qed.

Lemma blocks_are_owned_witness :
  data (tm_base (timer (block_at ex_two 20%positive))) = Some 20%positive /\
  context (block_at ex_two 20%positive) = Some 2%positive /\
  fd (rev (block_at ex_two 20%positive)) = 8%Z.
Proof.
  destruct (blocks_are_owned ex_two 20%positive (block_at ex_two 20%positive)
              reachable_ex_two) as (H1 & _ & _ & _ & (ac & x & H2 & H3 & _ & H4 & _) & _);
    [vm_compute; reflexivity|].
  split; [exact (H1 W_timer)|]. split; vm_compute; reflexivity.
Defined.

(** ** Cleanup and firing in reachable stores *)

(** X3.  On a live block of a reachable store [redisLibevCleanup] returns:
    the block's context is live.  Afterwards the block is released, the
    context's back-reference is null while its six hooks are as they
    were, no watcher of the block is started on any loop, the watchers
    of the other blocks are started where they were, and the store is
    again reachable. *)
Theorem cleanup_of_live_block (w : world) (p : ptr) (b : redisLibevEvents) :
  reachable w ->
  heap w !! p = Some b ->
  exists w' ac x,
    redisLibevCleanup (Some p) w = Done tt w' /\
    reachable w' /\
    context b = Some ac /\ ctxs w !! ac = Some x /\
    heap w' = delete p (heap w) /\
    ctxs w' = <[ac := set_ev_data None x]> (ctxs w) /\
    (forall s, slot s (ev (set_ev_data None x)) = slot s (ev x)) /\
    (forall l f, ~ reg (loops w') l (p, f)) /\
    (forall l q f, q <> p -> (reg (loops w') l (q, f) <-> reg (loops w) l (q, f))).
Proof.
  intros Hr Hp.
  destruct (reachable_owned w Hr p b Hp) as (_ & ac & x & Hc & Hx & Hd & _).
  assert (forall c, context b = Some c -> is_Some (ctxs w !! c)) as Hcs.
  { intros c Hc'. rewrite Hc in Hc'. injection Hc' as <-. eauto. }
  pose proof (cleanup_run_at w p b Hp Hcs) as Hrun.
  set (w' := World _ _ _ _) in Hrun.
  destruct (Inv_agrees w p b (reachable_Inv w Hr) Hp) as [Hwf Hag].
  destruct (cleanup_keeps p b (loops w) Hwf Hag) as [Hno Hso].
  exists w', ac, x.
  split; [exact Hrun|].
  split; [by apply (reach_step w (Op_cleanup (Some p)) w')|].
  split; [exact Hc|]. split; [exact Hx|]. split; [reflexivity|].
  split; [subst w'; cbn [ctxs]; unfold cleanup_ctxs; by rewrite Hc, Hx|].
  split; [by intros []|].
  split; [exact Hno|exact Hso].
Qed.

Lemma cleanup_of_live_block_witness :
  exists w',
    redisLibevCleanup (Some 20%positive) ex_two = Done tt w' /\
    heap w' !! 20%positive = None /\
    (forall l f, ~ reg (loops w') l (20%positive, f)) /\
    (reg (loops w') 5%positive (10%positive, W_rev)).
Proof.
  destruct (cleanup_of_live_block ex_two 20%positive (block_at ex_two 20%positive)
              reachable_ex_two)
    as (w' & ac & x & H1 & _ & _ & _ & H2 & _ & _ & H3 & H4);
    [vm_compute; reflexivity|].
  exists w'. split; [exact H1|]. split; [rewrite H2; apply lookup_delete_eq|].
  split; [exact H3|]. apply H4; [discriminate|].
  apply (proj1 (bool_decide_eq_true
                  (reg (loops ex_two) 5%positive (10%positive, W_rev)))).
  vm_compute. reflexivity.
Defined.

(** X4.  In a reachable store, a firing of any watcher of a live block
    passes both null tests: the read, write and timeout callbacks are
    the client's [redisAsyncHandleRead], [redisAsyncHandleWrite] and
    [redisAsyncHandleTimeout] applied to the context that owns the
    block, whatever those handlers do. *)
Theorem firing_reaches_owner (hR hW hT : positive -> M unit) (w : world) (p : ptr)
    (b : redisLibevEvents) (f : wfield) (lp : loop_ptr) (rv : Z) :
  reachable w ->
  heap w !! p = Some b ->
  exists ac x,
    context b = Some ac /\ ctxs w !! ac = Some x /\ ev_data (ev x) = Some p /\
    redisLibevReadEvent hR lp (p, f) rv w = hR ac w /\
    redisLibevWriteEvent hW lp (p, f) rv w = hW ac w /\
    redisLibevTimeout hT lp (p, f) rv w = hT ac w.
Proof.
  intros Hr Hp.
  destruct (reachable_owned w Hr p b Hp) as ((Hd & _) & ac & x & Hc & Hx & He & _).
  exists ac, x. split; [exact Hc|]. split; [exact Hx|]. split; [exact He|].
  apply (fired_tail_call hR hW hT w p f b p b ac lp rv Hp (Hd f) Hp Hc).
Qed.

Lemma firing_reaches_owner_witness :
  redisLibevTimeout ex_disconnect 5%positive (20%positive, W_timer) 256 ex_two
  = ex_disconnect 2%positive ex_two.
Proof.
  destruct (firing_reaches_owner ex_disconnect ex_disconnect ex_disconnect ex_two
              20%positive (block_at ex_two 20%positive) W_timer 5%positive 256
              reachable_ex_two)
    as (ac & x & Hc & _ & _ & _ & _ & H); [vm_compute; reflexivity|].
  vm_compute in Hc. injection Hc as <-. exact H.
Defined.

(** ** What [redisLibevAttach] leaves behind *)

Lemma attach_trace_no_loop_call p loop_ ac fd_ :
  List.filter is_loop_call (attach_trace p loop_ ac fd_) = [].
Proof. reflexivity. Qed.

Lemma attach_trace_no_repeat p loop_ ac fd_ q v :
  St_repeat q v ∉ attach_trace p loop_ ac fd_.
Proof.
  unfold attach_trace. rewrite !not_elem_of_cons.
  repeat split; try discriminate. apply not_elem_of_nil.
Qed.

(** X5.  A successful [redisLibevAttach] leaves the new block with the
    context and the loop of the call, the three flags false and
    priority 0; each of its three watchers inactive, with libev
    priority 0, pointing back at the block and carrying its callback;
    and the I/O watchers on the context's descriptor for [EV_READ] and
    [EV_WRITE] (with libev's [EV__IOFDSET] mark).  The stores and calls
    it makes are those of [attach_trace], in that order: none is a
    store to the timer's [repeat], and the timer is initialised with
    [ev_init] only, so [at] and [repeat] of the timer keep what the
    storage held.  It starts no watcher: the loops are untouched and no
    libev start, stop or again function is called. *)
Theorem attach_initialises (w : world) (p : ptr) (junk : redisLibevEvents)
    (loop_ : option loop_ptr) (ac : ctx_ptr) (x : redisAsyncContext) :
  ctxs w !! ac = Some x ->
  ev_data (ev x) = None ->
  exists w' b',
    redisLibevAttach (Some (p, junk)) loop_ ac w = Done REDIS_OK w' /\
    heap w' = <[p:=b']> (heap w) /\
    loops w' = loops w /\
    trace_since w w' = attach_trace p loop_ ac (c_fd x) /\
    (forall q v, St_repeat q v ∉ trace_since w w') /\
    List.filter is_loop_call (trace_since w w') = [] /\
    context b' = Some ac /\ loop b' = loop_ /\
    reading b' = false /\ writing b' = false /\ timing b' = false /\
    priority b' = 0%Z /\
    (forall f,
        active (base_of f b') = false /\ w_priority (base_of f b') = 0%Z /\
        data (base_of f b') = Some p) /\
    cb (io_base (rev b')) = Some FN_ReadEvent /\
    cb (io_base (wev b')) = Some FN_WriteEvent /\
    cb (tm_base (timer b')) = Some FN_Timeout /\
    fd (rev b') = c_fd x /\ fd (wev b') = c_fd x /\
    events (rev b') = Z.lor Libev.EV_READ Libev.EV__IOFDSET /\
    events (wev b') = Z.lor Libev.EV_WRITE Libev.EV__IOFDSET /\
    at_ (timer b') = at_ (timer junk) /\ repeat (timer b') = repeat (timer junk).
Proof.
  intros Hx Hd.
  exists (World (<[p:=attach_block p junk loop_ ac (c_fd x)]> (heap w))
            (<[ac:=attach_ctx p x]> (ctxs w)) (loops w)
            (log w ++ attach_trace p loop_ ac (c_fd x))),
    (attach_block p junk loop_ ac (c_fd x)).
  split; [by apply Attach_run|].
  split; [reflexivity|]. split; [reflexivity|].
  split; [apply trace_since_World|].
  split; [intros q v; rewrite trace_since_World; apply attach_trace_no_repeat|].
  split; [by rewrite trace_since_World|].
  repeat split; by destruct f.
Qed.

Lemma attach_initialises_witness :
  exists w' b',
    redisLibevAttach (Some (20%positive, ex_junk')) (Some 5%positive) 2%positive ex_two_a
    = Done REDIS_OK w' /\
    heap w' = <[20%positive:=b']> (heap ex_two_a) /\
    active (io_base (wev b')) = false /\ fd (wev b') = 8%Z /\
    events (wev b') = 130%Z /\ repeat (timer b') = (-1)%Q.
Proof.
  destruct (attach_initialises ex_two_a 20%positive ex_junk' (Some 5%positive) 2%positive
              (ctx_at ex_two_a 2%positive))
    as (w' & b' & H1 & H2 & _ & _ & _ & _ & _ & _ & _ & _ & _ & _ & H3 & _ & _ & _ & _ & H4
        & _ & H5 & _ & H6); [vm_compute; reflexivity ..|].
  exists w', b'. split; [exact H1|]. split; [exact H2|].
  split; [exact (proj1 (H3 W_wev))|]. split; [exact H4|]. split; [exact H5|exact H6].
Defined.

(** X6.  What the storage that [Newx] hands out leaves behind after
    [redisLibevAttach] and a first [scheduleTimer] on a loop.  The
    timer's [repeat] is the converted duration.  When that is not zero
    the timer is started and its [at] is the loop's clock plus the
    duration, whatever the storage held; when it is zero the timer is
    not started and [at] still holds what the storage held.  Neither
    the stores and calls made nor the loops depend on the storage. *)
Theorem uninitialised_storage_is_overwritten (w : world) (p : ptr)
    (junk : redisLibevEvents) (l : loop_ptr) (ac : ctx_ptr)
    (x : redisAsyncContext) (tv : timeval) :
  ctxs w !! ac = Some x ->
  ev_data (ev x) = None ->
  exists w' b',
    attach_then_schedule p junk l ac tv w = Done tt w' /\
    heap w' = <[p:=b']> (heap w) /\
    timing b' = true /\
    repeat (timer b') = timeval_seconds tv /\
    active (tm_base (timer b')) = Libev.tstamp_true (timeval_seconds tv) /\
    (~ (timeval_seconds tv == 0)%Q ->
     (at_ (timer b') == mn_now (loop_at w l) + timeval_seconds tv)%Q /\
     loops w' = loops_add l (p, W_timer) (loops w)) /\
    ((timeval_seconds tv == 0)%Q ->
     at_ (timer b') = at_ (timer junk) /\ loops w' = loops w) /\
    trace_since w w'
    = attach_trace p (Some l) ac (c_fd x)
      ++ [St_timing p true; Call_ev_init (p, W_timer) FN_Timeout;
          St_data (p, W_timer) (Some p);
          St_repeat p (timeval_seconds tv); Call_ev_timer_again l (p, W_timer)].
Proof.
  intros Hx Hd.
  assert (attach_then_schedule p junk l ac tv w
          = Done tt (World
                       (<[p:=setTimeout_block p tv (loops w)
                               (attach_block p junk (Some l) ac (c_fd x))]> (heap w))
                       (<[ac:=attach_ctx p x]> (ctxs w))
                       (setTimeout_loops p tv
                          (attach_block p junk (Some l) ac (c_fd x)) (loops w))
                       (log w ++ attach_trace p (Some l) ac (c_fd x)
                        ++ setTimeout_trace p tv
                             (attach_block p junk (Some l) ac (c_fd x))))) as Hrun.
  { unfold attach_then_schedule, bindM.
    rewrite (Attach_run w p junk (Some l) ac x Hx Hd).
    rewrite SetTimeout_run. by rewrite <- app_assoc. }
  eexists _, _. split; [exact Hrun|]. split; [reflexivity|].
  rewrite trace_since_World. cbn [loops].
  assert (forall q, (q == 0)%Q <-> Libev.tstamp_true q = false) as Hz.
  { intros q. unfold Libev.tstamp_true. rewrite negb_false_iff.
    by rewrite Qeq_bool_iff. }
  open_block junk.
  unfold setTimeout_block, setTimeout_loops, setTimeout_trace, setTimeout_armed,
    attach_block.
  blk. unfold timer_again_block, timer_again_loops, timer_start_block. blk.
  destruct (Libev.tstamp_true (timeval_seconds tv)) eqn:Ht; blk.
  - split; [reflexivity|]. split; [reflexivity|]. split; [reflexivity|].
    split; [intros _; split; [unfold loop_at; apply Qplus_comm|reflexivity]|].
    split; [intros Hq; apply Hz in Hq; congruence|reflexivity].
  - split; [reflexivity|]. split; [reflexivity|]. split; [reflexivity|].
    split; [intros Hq; exfalso; apply Hq; by apply Hz|].
    split; [intros _; split; reflexivity|reflexivity].
Qed.

Lemma uninitialised_storage_is_overwritten_witness :
  exists w' b',
    attach_then_schedule 10%positive ex_junk' 5%positive 1%positive tv10 ex_init
    = Done tt w' /\
    heap w' = <[10%positive:=b']> (heap ex_init) /\
    (at_ (timer b') == 10)%Q /\
    loops w' = loops_add 5%positive (10%positive, W_timer) (loops ex_init).
Proof.
  destruct (uninitialised_storage_is_overwritten ex_init 10%positive ex_junk'
              5%positive 1%positive ex_ctx tv10)
    as (w' & b' & H1 & H2 & _ & _ & _ & H3 & _); [vm_compute; reflexivity|reflexivity|].
  destruct H3 as [H3 H4]; [vm_compute; discriminate|].
  exists w', b'. split; [exact H1|]. split; [exact H2|]. split; [|exact H4].
  rewrite H3. vm_compute. reflexivity.
Defined.

(** ** Attach, cleanup, attach again *)

Lemma io_stop_loops_inactive l x b L :
  active (base_of x.2 b) = false -> io_stop_loops l x b L = L.
Proof. unfold io_stop_loops. by intros ->. Qed.

Lemma cleanup_loops_attach_block p junk loop_ ac fd_ L :
  cleanup_loops p (attach_block p junk loop_ ac fd_) L = L.
Proof. unfold cleanup_loops. by destruct loop_. Qed.

(** X7.  [redisLibevAttach] on a fresh address followed by the context's
    cleanup hook puts the heap and the loops back exactly as they were;
    the context keeps the six hooks and its back-reference is null
    again, so a second [redisLibevAttach] succeeds. *)
Theorem attach_cleanup_attach (w : world) (p p2 : ptr) (junk junk2 : redisLibevEvents)
    (loop_ loop2 : option loop_ptr) (ac : ctx_ptr) (x : redisAsyncContext) :
  ctxs w !! ac = Some x ->
  ev_data (ev x) = None ->
  heap w !! p = None ->
  exists w1 x1,
    attach_then_cleanup p junk loop_ ac w = Done tt w1 /\
    heap w1 = heap w /\ loops w1 = loops w /\
    ctxs w1 = <[ac:=x1]> (ctxs w) /\
    ev x1 = {| ev_data := None;
               addRead := Some FN_AddRead; delRead := Some FN_DelRead;
               addWrite := Some FN_AddWrite; delWrite := Some FN_DelWrite;
               cleanup := Some FN_Cleanup; scheduleTimer := Some FN_SetTimeout |} /\
    c_fd x1 = c_fd x /\
    exists w2,
      redisLibevAttach (Some (p2, junk2)) loop2 ac w1 = Done REDIS_OK w2.
Proof.
  intros Hx Hd Hp.
  unfold attach_then_cleanup, bindM.
  rewrite (Attach_run w p junk loop_ ac x Hx Hd).
  set (w0 := World _ _ _ _).
  assert (ctxs w0 !! ac = Some (attach_ctx p x)) as Hx0.
  { subst w0. cbn [ctxs]. apply lookup_insert_eq. }
  rewrite (call_hook_cleanup_attached w0 ac (attach_ctx p x) p tv0 Hx0 eq_refl eq_refl).
  assert (heap w0 !! p = Some (attach_block p junk loop_ ac (c_fd x))) as Hp0.
  { subst w0. cbn [heap]. apply lookup_insert_eq. }
  rewrite (cleanup_run_at w0 p _ Hp0).
  2:{ intros c [= <-]. eauto. }
  eexists _, (set_ev_data None (attach_ctx p x)).
  split; [reflexivity|]. cbn [heap ctxs loops]. subst w0. cbn [heap ctxs loops].
  split; [by rewrite delete_insert_eq, delete_id|].
  split; [apply cleanup_loops_attach_block|].
  split.
  { unfold cleanup_ctxs. cbn [context attach_block].
    by rewrite lookup_insert_eq, insert_insert_eq. }
  split; [reflexivity|]. split; [reflexivity|].
  eexists. apply (Attach_run _ p2 junk2 loop2 ac (set_ev_data None (attach_ctx p x))).
  - cbn [ctxs]. unfold cleanup_ctxs. cbn [context attach_block].
    rewrite lookup_insert_eq. apply lookup_insert_eq.
  - reflexivity.
Qed.

Lemma attach_cleanup_attach_witness :
  exists w1,
    attach_then_cleanup 10%positive ex_junk (Some 5%positive) 1%positive ex_init
    = Done tt w1 /\
    heap w1 = heap ex_init /\ loops w1 = loops ex_init /\
    exists w2,
      redisLibevAttach (Some (10%positive, ex_junk')) None 1%positive w1
      = Done REDIS_OK w2.
Proof.
  destruct (attach_cleanup_attach ex_init 10%positive 10%positive ex_junk ex_junk'
              (Some 5%positive) None 1%positive ex_ctx)
    as (w1 & x1 & H1 & H2 & H3 & _ & _ & _ & H4); [reflexivity ..|].
  exists w1. repeat split; assumption.
Defined.

(** ** The hook table of an owner *)

Lemma hooked_update w p b b' L' Lg' :
  hooked w -> heap w !! p = Some b -> context b' = context b ->
  hooked (World (<[p:=b']> (heap w)) (ctxs w) L' Lg').
Proof.
  intros Hh Hp Hc q bq acq xq. cbn [heap ctxs].
  rewrite lookup_insert. case_decide as Hq.
  - intros [= <-]. subst q. rewrite Hc. by apply Hh.
  - apply Hh.
Qed.

Lemma hooked_step w o w' :
  owned w -> hooked w -> fresh_alloc w o -> run_op o w = Done tt w' -> hooked w'.
Proof.
  intros Ho Hh Hfresh Hrun.
  destruct o as [nx loop_ ac|d|d|d|d|d tv|ac pri|d|l now]; cbn [run_op] in Hrun.
  - (* attach *)
    unfold bindM in Hrun.
    destruct (ctxs w !! ac) as [x|] eqn:Hx;
      [|by unfold redisLibevAttach, bindM, load_ctx in Hrun; rewrite Hx in Hrun].
    destruct (ev_data (ev x)) as [p|] eqn:Hd.
    { rewrite (Attach_attached w nx loop_ ac x p Hx Hd) in Hrun.
      by injection Hrun as <-. }
    destruct nx as [[p junk]|].
    + rewrite (Attach_run w p junk loop_ ac x Hx Hd) in Hrun.
      injection Hrun as <-.
      intros q bq acq xq. cbn [heap ctxs]. rewrite lookup_insert. case_decide as Hq.
      * intros [= <-]. subst q. cbn [context attach_block]. intros [= <-].
        rewrite lookup_insert_eq. by intros [= <-].
      * intros Hbq Hcq.
        destruct (Ho q bq Hbq) as (_ & ac' & x' & H1 & H2 & H3 & _).
        rewrite lookup_insert_ne; [by apply (Hh q bq acq xq)|].
        intros <-. congruence.
    + rewrite (Attach_no_memory w loop_ ac x Hx Hd) in Hrun.
      by injection Hrun as <-.
  - destruct d as [p|]; [|by injection Hrun as <-].
    destruct (heap w !! p) as [b|] eqn:Hp;
      [|by rewrite (proj1 (dangling_faults w p Hp)) in Hrun].
    pose proof (run_io_at Read Add w p b Hp) as E; cbn [run_io] in E.
    rewrite E in Hrun; clear E. injection Hrun as <-.
    apply (hooked_update w p b); [done..|].
    eapply proj1, proj2, (io_block_own Read Add p b). by apply (Ho p b).
  - destruct d as [p|]; [|by injection Hrun as <-].
    destruct (heap w !! p) as [b|] eqn:Hp;
      [|by rewrite (proj1 (proj2 (dangling_faults w p Hp))) in Hrun].
    pose proof (run_io_at Read Del w p b Hp) as E; cbn [run_io] in E.
    rewrite E in Hrun; clear E. injection Hrun as <-.
    apply (hooked_update w p b); [done..|].
    eapply proj1, proj2, (io_block_own Read Del p b). by apply (Ho p b).
  - destruct d as [p|]; [|by injection Hrun as <-].
    destruct (heap w !! p) as [b|] eqn:Hp;
      [|by rewrite (proj1 (proj2 (proj2 (dangling_faults w p Hp)))) in Hrun].
    pose proof (run_io_at Write Add w p b Hp) as E; cbn [run_io] in E.
    rewrite E in Hrun; clear E. injection Hrun as <-.
    apply (hooked_update w p b); [done..|].
    eapply proj1, proj2, (io_block_own Write Add p b). by apply (Ho p b).
  - destruct d as [p|]; [|by injection Hrun as <-].
    destruct (heap w !! p) as [b|] eqn:Hp;
      [|by rewrite (proj1 (proj2 (proj2 (proj2 (dangling_faults w p Hp))))) in Hrun].
    pose proof (run_io_at Write Del w p b Hp) as E; cbn [run_io] in E.
    rewrite E in Hrun; clear E. injection Hrun as <-.
    apply (hooked_update w p b); [done..|].
    eapply proj1, proj2, (io_block_own Write Del p b). by apply (Ho p b).
  - destruct d as [p|]; [|by injection Hrun as <-].
    destruct (heap w !! p) as [b|] eqn:Hp.
    2:{ destruct (dangling_faults w p Hp) as (_ & _ & _ & _ & _ & Hf).
        by rewrite Hf in Hrun. }
    rewrite (SetTimeout_run_at w p b tv Hp) in Hrun. injection Hrun as <-.
    apply (hooked_update w p b); [done..|].
    eapply proj1, proj2, (setTimeout_block_own p tv (loops w) b). by apply (Ho p b).
  - destruct (ctxs w !! ac) as [x|] eqn:Hx;
      [|by unfold redisLibevSetPriority, bindM, load_ctx in Hrun; rewrite Hx in Hrun].
    destruct (ev_data (ev x)) as [p|] eqn:Hd.
    2:{ rewrite (SetPriority_null ac x pri w Hx Hd) in Hrun. by injection Hrun as <-. }
    destruct (heap w !! p) as [b|] eqn:Hp.
    2:{ unfold redisLibevSetPriority, bindM, load_ctx, load in Hrun.
        by rewrite Hx, Hd, Hp in Hrun. }
    rewrite (SetPriority_run_at w ac x p b pri Hx Hd Hp) in Hrun. injection Hrun as <-.
    apply (hooked_update w p b); [done..|].
    eapply proj1, proj2, (setPriority_block_own p pri (loops w) b). by apply (Ho p b).
  - (* cleanup *)
    destruct d as [p|]; [|by injection Hrun as <-].
    destruct (heap w !! p) as [b|] eqn:Hp.
    2:{ destruct (dangling_faults w p Hp) as (_ & _ & _ & _ & Hf & _).
        by rewrite Hf in Hrun. }
    destruct (Ho p b Hp) as (_ & ac & x & Hc & Hx & Hd & _).
    assert (forall c, context b = Some c -> is_Some (ctxs w !! c)) as Hcs.
    { intros c Hc'. rewrite Hc in Hc'. injection Hc' as <-. eauto. }
    rewrite (cleanup_run_at w p b Hp Hcs) in Hrun. injection Hrun as <-.
    intros q bq acq xq. cbn [heap ctxs]. rewrite lookup_delete. case_decide as Hq; [done|].
    intros Hbq Hcq.
    destruct (Ho q bq Hbq) as (_ & ac' & x' & H1 & H2 & H3 & _).
    unfold cleanup_ctxs. rewrite Hc, Hx.
    rewrite lookup_insert_ne; [by apply (Hh q bq acq xq)|].
    intros <-. congruence.
  - unfold set_clock, bindM, get_loop, put_loop in Hrun. injection Hrun as <-.
    exact Hh.
Qed.

Lemma reachable_hooked w : reachable w -> hooked w.
Proof.
  induction 1 as [w Hh Hl|w o w' Hr IH Hf Hrun].
  - intros p b ac x. by rewrite Hh, lookup_empty.
  - apply (hooked_step w o w'); [by apply reachable_owned|done..].
Qed.

Lemma run_hook_op_live w p b s tv :
  heap w !! p = Some b ->
  (forall c, context b = Some c -> is_Some (ctxs w !! c)) ->
  exists w', run_op (hook_op s p tv) w = Done tt w'.
Proof.
  intros Hp Hcs. destruct s; cbn [hook_op run_op]; eexists.
  - apply (run_io_at Read Add w p b Hp).
  - apply (run_io_at Read Del w p b Hp).
  - apply (run_io_at Write Add w p b Hp).
  - apply (run_io_at Write Del w p b Hp).
  - apply (cleanup_run_at w p b Hp Hcs).
  - apply (SetTimeout_run_at w p b tv Hp).
Qed.

Lemma fresh_alloc_hook_op w s p tv : fresh_alloc w (hook_op s p tv).
Proof. by destruct s. Qed.

(** X8.  In a reachable store, whichever of the six hooks hiredis calls on
    the context of a live block, the call runs the adapter function of
    that slot on exactly that block, it returns, and the store it
    leaves is again reachable. *)
Theorem hooks_reach_own_block (w : world) (p : ptr) (b : redisLibevEvents) :
  reachable w ->
  heap w !! p = Some b ->
  exists ac,
    context b = Some ac /\
    forall s tv,
      call_hook s ac tv w = run_op (hook_op s p tv) w /\
      exists w', call_hook s ac tv w = Done tt w' /\ reachable w'.
Proof.
  intros Hr Hp.
  destruct (reachable_owned w Hr p b Hp) as (_ & ac & x & Hc & Hx & Hd & _).
  pose proof (reachable_hooked w Hr p b ac x Hp Hc Hx) as He.
  exists ac. split; [exact Hc|]. intros s tv.
  assert (call_hook s ac tv w = run_op (hook_op s p tv) w) as E.
  { rewrite (call_hook_installed s ac x p tv w Hx He). by destruct s. }
  split; [exact E|]. rewrite E.
  destruct (run_hook_op_live w p b s tv Hp) as [w' Hrun].
  { intros c Hc'. rewrite Hc in Hc'. injection Hc' as <-. eauto. }
  exists w'. split; [exact Hrun|].
  apply (reach_step w (hook_op s p tv) w' Hr (fresh_alloc_hook_op w s p tv) Hrun).
Qed.

Lemma hooks_reach_own_block_witness :
  call_hook H_delRead 1%positive tv0 ex_two = redisLibevDelRead (Some 10%positive) ex_two /\
  exists w', call_hook H_delRead 1%positive tv0 ex_two = Done tt w' /\ reachable w'.
Proof.
  destruct (hooks_reach_own_block ex_two 10%positive (block_at ex_two 10%positive)
              reachable_ex_two) as (ac & Hc & H); [vm_compute; reflexivity|].
  vm_compute in Hc. injection Hc as <-. exact (H H_delRead tv0).
Defined.

Lemma call_hook_null w ac x p s tv :
  ctxs w !! ac = Some x ->
  ev x = installed_hooks p ->
  call_hook s ac tv (World (heap w) (<[ac:=set_ev_data None x]> (ctxs w)) (loops w) (log w))
  = Done tt (World (heap w) (<[ac:=set_ev_data None x]> (ctxs w)) (loops w) (log w)).
Proof.
  intros Hx He. unfold call_hook, bindM, load_ctx. cbn [ctxs].
  rewrite lookup_insert_eq. cbv beta iota. cbn [ctxs]. rewrite lookup_insert_eq.
  cbv beta iota. cbn [set_ev_data ev ev_data]. rewrite He. by destruct s.
Qed.

(** X9.  After [redisLibevCleanup] has released the block of a context in a
    reachable store, the context is inert: each of the six hooks that
    hiredis may still call on it, and [redisLibevSetPriority], return
    without changing anything.  The adapter functions called with the
    released address itself, past the hook table, access freed
    memory. *)
Theorem released_context_is_inert (w : world) (p : ptr) (b : redisLibevEvents) :
  reachable w ->
  heap w !! p = Some b ->
  exists w' ac,
    redisLibevCleanup (Some p) w = Done tt w' /\
    context b = Some ac /\
    (forall s tv, call_hook s ac tv w' = Done tt w') /\
    (forall pri, redisLibevSetPriority ac pri w' = Done tt w') /\
    (forall s tv, run_op (hook_op s p tv) w' = Fault).
Proof.
  intros Hr Hp.
  destruct (reachable_owned w Hr p b Hp) as (_ & ac & x & Hc & Hx & Hd & _).
  pose proof (reachable_hooked w Hr p b ac x Hp Hc Hx) as He.
  assert (forall c, context b = Some c -> is_Some (ctxs w !! c)) as Hcs.
  { intros c Hc'. rewrite Hc in Hc'. injection Hc' as <-. eauto. }
  eexists _, ac. split; [apply (cleanup_run_at w p b Hp Hcs)|].
  split; [exact Hc|].
  unfold cleanup_ctxs. rewrite Hc, Hx.
  set (w1 := World (delete p (heap w)) (ctxs w) (cleanup_loops p b (loops w))
               (log w ++ cleanup_trace p b (cleanup_released (loops w) b))).
  split; [|split].
  - intros s tv. apply (call_hook_null w1 ac x p s tv Hx He).
  - intros pri. apply (SetPriority_null ac (set_ev_data None x)).
    + cbn [ctxs]. apply lookup_insert_eq.
    + reflexivity.
  - intros s tv.
    match goal with |- _ ?w2 = _ =>
      destruct (dangling_faults w2 p (lookup_delete_eq _ _))
        as (F1 & F2 & F3 & F4 & F5 & F6)
    end.
    destruct s; cbn [hook_op run_op]; [exact F1|exact F2|exact F3|exact F4|exact F5|apply F6].
Qed.

Lemma released_context_is_inert_witness :
  exists w',
    redisLibevCleanup (Some 20%positive) ex_two = Done tt w' /\
    call_hook H_scheduleTimer 2%positive tv10 w' = Done tt w' /\
    redisLibevSetPriority 2%positive 2 w' = Done tt w' /\
    redisLibevCleanup (Some 20%positive) w' = Fault.
Proof.
  destruct (released_context_is_inert ex_two 20%positive (block_at ex_two 20%positive)
              reachable_ex_two) as (w' & ac & H1 & Hc & H2 & H3 & H4);
    [vm_compute; reflexivity|].
  vm_compute in Hc. injection Hc as <-.
  exists w'. split; [exact H1|]. split; [exact (H2 H_scheduleTimer tv10)|].
  split; [exact (H3 2%Z)|exact (H4 H_cleanup tv0)].
Defined.

(** ** What an operation leaves alone *)

Lemma others_add_loops f p b L : same_others p L (add_loops f p b L).
Proof. unfold add_loops. others. Qed.

Lemma others_del_loops f p b L : same_others p L (del_loops f p b L).
Proof. unfold del_loops. others. Qed.

Lemma others_io_loops k o p b L : same_others p L (io_loops (watcher_of k) o p b L).
Proof. destruct o; [apply others_add_loops|apply others_del_loops]. Qed.

Lemma others_setTimeout_loops p tv b L : same_others p L (setTimeout_loops p tv b L).
Proof. unfold setTimeout_loops. others. Qed.

Lemma others_setPriority_loops p pri b L : same_others p L (setPriority_loops p pri b L).
Proof. unfold setPriority_loops, setPriority_timer_loops, setPriority_io_loops. others. Qed.

Lemma others_cleanup_loops p b L : same_others p L (cleanup_loops p b L).
Proof. unfold cleanup_loops. others. Qed.

Lemma block_frame_refl w q : block_frame w w q.
Proof. by split. Qed.

Lemma ctx_frame_refl w t : ctx_frame w w t.
Proof. split; [done|]. intros c x Hx. by exists x. Qed.

Lemma block_frame_update w p b' C' L' Lg' q :
  q <> p -> same_others p (loops w) L' ->
  block_frame w (World (<[p:=b']> (heap w)) C' L' Lg') q.
Proof.
  intros Hq Hso. split; cbn [heap loops].
  - by rewrite lookup_insert_ne.
  - intros l f. by apply Hso.
Qed.

Lemma block_frame_delete w p C' L' Lg' q :
  q <> p -> same_others p (loops w) L' ->
  block_frame w (World (delete p (heap w)) C' L' Lg') q.
Proof.
  intros Hq Hso. split; cbn [heap loops].
  - by rewrite lookup_delete_ne.
  - intros l f. by apply Hso.
Qed.

Lemma ctx_frame_same w h L' Lg' t : ctx_frame w (World h (ctxs w) L' Lg') t.
Proof. split; [done|]. intros c x Hx. by exists x. Qed.

Lemma ctx_frame_insert w h L' Lg' ac x x' :
  ctxs w !! ac = Some x -> c_fd x' = c_fd x ->
  ctx_frame w (World h (<[ac:=x']> (ctxs w)) L' Lg') (Some ac).
Proof.
  intros Hx Hfd. split; cbn [ctxs].
  - intros c Hc. rewrite lookup_insert_ne; [done|congruence].
  - intros c y Hy. destruct (decide (c = ac)) as [->|Hne].
    + exists x'. rewrite lookup_insert_eq. split; [done|]. congruence.
    + exists y. by rewrite lookup_insert_ne.
Qed.

Lemma step_frame w o w' :
  run_op o w = Done tt w' ->
  (forall q, acts_on w o <> Some q -> block_frame w w' q) /\
  ctx_frame w w' (ctx_touched w o).
Proof.
  intros Hrun.
  destruct o as [nx loop_ ac|d|d|d|d|d tv|ac pri|d|l now]; cbn [run_op] in Hrun.
  - (* attach *)
    unfold bindM in Hrun.
    destruct (ctxs w !! ac) as [x|] eqn:Hx;
      [|by unfold redisLibevAttach, bindM, load_ctx in Hrun; rewrite Hx in Hrun].
    destruct (ev_data (ev x)) as [p|] eqn:Hd.
    { rewrite (Attach_attached w nx loop_ ac x p Hx Hd) in Hrun.
      injection Hrun as <-. split; [intros; apply block_frame_refl|apply ctx_frame_refl]. }
    destruct nx as [[p junk]|].
    + rewrite (Attach_run w p junk loop_ ac x Hx Hd) in Hrun.
      injection Hrun as <-. cbn [acts_on ctx_touched]. split.
      * intros q Hq. apply block_frame_update; [congruence|apply same_others_refl].
      * by apply (ctx_frame_insert w _ _ _ ac x).
    + rewrite (Attach_no_memory w loop_ ac x Hx Hd) in Hrun.
      injection Hrun as <-. split; [intros; apply block_frame_refl|apply ctx_frame_refl].
  - destruct d as [p|];
      [|injection Hrun as <-; split; [intros; apply block_frame_refl|apply ctx_frame_refl]].
    destruct (heap w !! p) as [b|] eqn:Hp;
      [|by rewrite (proj1 (dangling_faults w p Hp)) in Hrun].
    pose proof (run_io_at Read Add w p b Hp) as E; cbn [run_io] in E.
    rewrite E in Hrun; clear E. injection Hrun as <-. cbn [acts_on ctx_touched]. split.
    + intros q Hq. apply block_frame_update; [congruence|apply (others_io_loops Read Add)].
    + apply ctx_frame_same.
  - destruct d as [p|];
      [|injection Hrun as <-; split; [intros; apply block_frame_refl|apply ctx_frame_refl]].
    destruct (heap w !! p) as [b|] eqn:Hp;
      [|by rewrite (proj1 (proj2 (dangling_faults w p Hp))) in Hrun].
    pose proof (run_io_at Read Del w p b Hp) as E; cbn [run_io] in E.
    rewrite E in Hrun; clear E. injection Hrun as <-. cbn [acts_on ctx_touched]. split.
    + intros q Hq. apply block_frame_update; [congruence|apply (others_io_loops Read Del)].
    + apply ctx_frame_same.
  - destruct d as [p|];
      [|injection Hrun as <-; split; [intros; apply block_frame_refl|apply ctx_frame_refl]].
    destruct (heap w !! p) as [b|] eqn:Hp;
      [|by rewrite (proj1 (proj2 (proj2 (dangling_faults w p Hp)))) in Hrun].
    pose proof (run_io_at Write Add w p b Hp) as E; cbn [run_io] in E.
    rewrite E in Hrun; clear E. injection Hrun as <-. cbn [acts_on ctx_touched]. split.
    + intros q Hq. apply block_frame_update; [congruence|apply (others_io_loops Write Add)].
    + apply ctx_frame_same.
  - destruct d as [p|];
      [|injection Hrun as <-; split; [intros; apply block_frame_refl|apply ctx_frame_refl]].
    destruct (heap w !! p) as [b|] eqn:Hp;
      [|by rewrite (proj1 (proj2 (proj2 (proj2 (dangling_faults w p Hp))))) in Hrun].
    pose proof (run_io_at Write Del w p b Hp) as E; cbn [run_io] in E.
    rewrite E in Hrun; clear E. injection Hrun as <-. cbn [acts_on ctx_touched]. split.
    + intros q Hq. apply block_frame_update; [congruence|apply (others_io_loops Write Del)].
    + apply ctx_frame_same.
  - destruct d as [p|];
      [|injection Hrun as <-; split; [intros; apply block_frame_refl|apply ctx_frame_refl]].
    destruct (heap w !! p) as [b|] eqn:Hp.
    2:{ destruct (dangling_faults w p Hp) as (_ & _ & _ & _ & _ & Hf).
        by rewrite Hf in Hrun. }
    rewrite (SetTimeout_run_at w p b tv Hp) in Hrun. injection Hrun as <-.
    cbn [acts_on ctx_touched]. split.
    + intros q Hq. apply block_frame_update; [congruence|apply others_setTimeout_loops].
    + apply ctx_frame_same.
  - cbn [acts_on ctx_touched].
    destruct (ctxs w !! ac) as [x|] eqn:Hx;
      [|by unfold redisLibevSetPriority, bindM, load_ctx in Hrun; rewrite Hx in Hrun].
    destruct (ev_data (ev x)) as [p|] eqn:Hd.
    2:{ rewrite (SetPriority_null ac x pri w Hx Hd) in Hrun. injection Hrun as <-.
        split; [intros; apply block_frame_refl|apply ctx_frame_refl]. }
    destruct (heap w !! p) as [b|] eqn:Hp.
    2:{ unfold redisLibevSetPriority, bindM, load_ctx, load in Hrun.
        by rewrite Hx, Hd, Hp in Hrun. }
    rewrite (SetPriority_run_at w ac x p b pri Hx Hd Hp) in Hrun. injection Hrun as <-.
    split.
    + intros q Hq. apply block_frame_update; [congruence|apply others_setPriority_loops].
    + apply ctx_frame_same.
  - (* cleanup *)
    destruct d as [p|];
      [|injection Hrun as <-; split; [intros; apply block_frame_refl|apply ctx_frame_refl]].
    destruct (heap w !! p) as [b|] eqn:Hp.
    2:{ destruct (dangling_faults w p Hp) as (_ & _ & _ & _ & Hf & _).
        by rewrite Hf in Hrun. }
    assert (forall c, context b = Some c -> is_Some (ctxs w !! c)) as Hc.
    { intros c Hc. destruct (ctxs w !! c) eqn:Hx; [eauto|].
      by rewrite (cleanup_fault w p b c Hp Hc Hx) in Hrun. }
    rewrite (cleanup_run_at w p b Hp Hc) in Hrun. injection Hrun as <-.
    cbn [acts_on ctx_touched]. rewrite Hp. split.
    + intros q Hq. apply block_frame_delete; [congruence|apply others_cleanup_loops].
    + unfold cleanup_ctxs. destruct (context b) as [c|]; [|apply ctx_frame_same].
      destruct (Hc c eq_refl) as [x Hx]. rewrite Hx.
      by apply (ctx_frame_insert w _ _ _ c x).
  - (* the clock *)
    unfold set_clock, bindM, get_loop, put_loop in Hrun. injection Hrun as <-.
    split; [|apply ctx_frame_same].
    intros q _. split; [done|]. cbn [loops]. intros l' f.
    rewrite reg_insert. case_decide; [by subst|done].
Qed.

(** X10.  An operation on one block leaves every other block as it is and
    the watchers of every other block started exactly where they were;
    it writes to no context but, for attach and cleanup, the one it is
    about; and no operation removes a context or changes its
    descriptor.  The clock of a loop moving changes no block, no
    registration and no context. *)
Theorem ops_touch_one_block (w : world) (o : op) (w' : world) :
  run_op o w = Done tt w' ->
  (forall q,
      acts_on w o <> Some q ->
      heap w' !! q = heap w !! q /\
      forall l f, reg (loops w') l (q, f) <-> reg (loops w) l (q, f)) /\
  (forall c, ctx_touched w o <> Some c -> ctxs w' !! c = ctxs w !! c) /\
  (forall c x, ctxs w !! c = Some x ->
               exists x', ctxs w' !! c = Some x' /\ c_fd x' = c_fd x).
Proof.
  intros Hrun. destruct (step_frame w o w' Hrun) as (H1 & H2 & H3).
  split; [exact H1|]. split; [exact H2|exact H3].
Qed.

Lemma ops_touch_one_block_witness :
  exists w',
    redisLibevCleanup (Some 20%positive) ex_two = Done tt w' /\
    heap w' !! 10%positive = heap ex_two !! 10%positive /\
    ctxs w' !! 1%positive = ctxs ex_two !! 1%positive.
Proof.
  assert (heap ex_two !! 20%positive = Some (block_at ex_two 20%positive)) as Hp
    by (vm_compute; reflexivity).
  assert (forall c, context (block_at ex_two 20%positive) = Some c ->
                    is_Some (ctxs ex_two !! c)) as Hcs.
  { intros c Hc. vm_compute in Hc. injection Hc as <-. vm_compute. eauto. }
  pose proof (cleanup_run_at ex_two 20%positive _ Hp Hcs) as Hrun.
  set (w' := World _ _ _ _) in Hrun.
  exists w'. split; [exact Hrun|].
  destruct (ops_touch_one_block ex_two (Op_cleanup (Some 20%positive)) w' Hrun)
    as (H1 & H2 & _).
  split; [apply H1; discriminate|apply H2; vm_compute; discriminate].
Defined.

(** ** The read and the write side *)

Lemma io_block_frame k o b :
  let b' := io_block (watcher_of k) o b in
  context b' = context b /\ loop b' = loop b /\ priority b' = priority b /\
  timing b' = timing b /\ timer b' = timer b /\
  flag_of (other_io k) b' = flag_of (other_io k) b /\
  (match k with Read => wev b' = wev b | Write => rev b' = rev b end) /\
  (w_priority (base_of (watcher_of k) b') = w_priority (base_of (watcher_of k) b) \/
   w_priority (base_of (watcher_of k) b')
   = Libev.clamp_pri (w_priority (base_of (watcher_of k) b))) /\
  data (base_of (watcher_of k) b') = data (base_of (watcher_of k) b) /\
  cb (base_of (watcher_of k) b') = cb (base_of (watcher_of k) b) /\
  (match k with Read => fd (rev b') = fd (rev b) | Write => fd (wev b') = fd (wev b) end).
Proof.
  cbv zeta. open_block b.
  destruct k, o; cbn [io_block watcher_of other_io flag_of]; unfold add_block, del_block;
    decide_bools; split_ifs; blk; repeat split; (by left) || (by right).
Qed.

Lemma reg_io_loops k o p b L l x :
  x <> (p, watcher_of k) ->
  reg (io_loops (watcher_of k) o p b L) l x <-> reg L l x.
Proof.
  intros Hx.
  destruct k, o; cbn [io_loops watcher_of]; unfold add_loops, del_loops,
    io_start_loops, io_stop_loops; cbn [snd];
    repeat match goal with
           | |- context [if ?c then _ else _] => destruct c
           | |- context [match ?c with Some _ => _ | None => _ end] => destruct c
           end;
    rewrite ?reg_loops_add, ?reg_loops_del; naive_solver.
Qed.

(** X11.  The read side and the write side are independent.  An add or del
    hook of one I/O watcher leaves the other I/O watcher, the timer,
    the other two flags, the block's priority, context and loop as they
    were, and no watcher other than its own is started or stopped; of
    its own watcher it changes neither the descriptor, the back-pointer
    nor the callback, and the priority only in that [ev_io_start]
    brings it into libev's range. *)
Theorem io_hooks_are_independent (k : io_kind) (o : io_op) (w : world) (p : ptr)
    (b : redisLibevEvents) :
  heap w !! p = Some b ->
  exists w' b',
    run_io k (Some p) o w = Done tt w' /\
    heap w' = <[p:=b']> (heap w) /\ ctxs w' = ctxs w /\
    context b' = context b /\ loop b' = loop b /\ priority b' = priority b /\
    timing b' = timing b /\ timer b' = timer b /\
    flag_of (other_io k) b' = flag_of (other_io k) b /\
    (match k with Read => wev b' = wev b | Write => rev b' = rev b end) /\
    (w_priority (base_of (watcher_of k) b') = w_priority (base_of (watcher_of k) b) \/
     w_priority (base_of (watcher_of k) b')
     = Libev.clamp_pri (w_priority (base_of (watcher_of k) b))) /\
    data (base_of (watcher_of k) b') = data (base_of (watcher_of k) b) /\
    cb (base_of (watcher_of k) b') = cb (base_of (watcher_of k) b) /\
    (match k with Read => fd (rev b') = fd (rev b) | Write => fd (wev b') = fd (wev b) end) /\
    (forall l x, x <> (p, watcher_of k) -> (reg (loops w') l x <-> reg (loops w) l x)).
Proof.
  intros Hp. eexists _, (io_block (watcher_of k) o b).
  split; [apply (run_io_at k o w p b Hp)|].
  split; [reflexivity|]. split; [reflexivity|].
  destruct (io_block_frame k o b)
    as (H1 & H2 & H3 & H4 & H5 & H6 & H7 & H8 & H9 & H10 & H11).
  repeat (split; [assumption|]).
  intros l x Hx. cbn [loops]. by apply reg_io_loops.
Qed.

Lemma io_hooks_are_independent_witness :
  exists w' b',
    redisLibevAddWrite (Some 20%positive) ex_two = Done tt w' /\
    heap w' = <[20%positive:=b']> (heap ex_two) /\
    timer b' = timer (block_at ex_two 20%positive) /\
    rev b' = rev (block_at ex_two 20%positive) /\
    (reg (loops w') 5%positive (20%positive, W_timer)).
Proof.
  destruct (io_hooks_are_independent Write Add ex_two 20%positive
              (block_at ex_two 20%positive))
    as (w' & b' & H1 & H2 & _ & _ & _ & _ & _ & H3 & _ & H4 & _ & _ & _ & _ & H5);
    [vm_compute; reflexivity|].
  exists w', b'. split; [exact H1|]. split; [exact H2|]. split; [exact H3|].
  split; [exact H4|]. apply H5; [discriminate|].
  apply (proj1 (bool_decide_eq_true
                  (reg (loops ex_two) 5%positive (20%positive, W_timer)))).
  vm_compute. reflexivity.
Defined.

(** ** Watchers that libev may fire *)

(** X12.  In a reachable store, every watcher that is started on a loop is a
    watcher of a live block attached to that loop, whose flag for that
    watcher is set; its back-pointer is the block and the block's
    context is live, so that the callback libev runs for it passes both
    null tests. *)
Theorem started_watchers_are_live (w : world) (l : loop_ptr) (p : ptr) (f : wfield) :
  reachable w ->
  reg (loops w) l (p, f) ->
  exists b ac x,
    heap w !! p = Some b /\ loop b = Some l /\ flag_of f b = true /\
    data (base_of f b) = Some p /\
    context b = Some ac /\ ctxs w !! ac = Some x.
Proof.
  intros Hr Hreg.
  destruct (reachable_Inv w Hr) as [HA HB].
  apply HB in Hreg. destruct Hreg as (b & Hp & Hl & Ha).
  destruct (HA p b Hp) as (Hw1 & Hw2 & Hw3 & _).
  destruct (reachable_owned w Hr p b Hp) as ((Hd & _) & ac & x & Hc & Hx & _).
  exists b, ac, x. split; [exact Hp|]. split; [exact Hl|].
  split.
  { destruct f; cbn [flag_of base_of] in *; [congruence|congruence|].
    rewrite Hw3 in Ha. by apply andb_true_iff in Ha as [-> _]. }
  split; [apply Hd|]. by split.
Qed.

Lemma started_watchers_are_live_witness :
  exists b,
    heap ex_two !! 20%positive = Some b /\ loop b = Some 5%positive /\
    timing b = true /\ context b = Some 2%positive.
Proof.
  destruct (started_watchers_are_live ex_two 5%positive 20%positive W_timer
              reachable_ex_two) as (b & ac & x & H1 & H2 & H3 & _ & H4 & _).
  - apply (proj1 (bool_decide_eq_true
                    (reg (loops ex_two) 5%positive (20%positive, W_timer)))).
    vm_compute. reflexivity.
  - exists b. split; [exact H1|]. split; [exact H2|]. split; [exact H3|].
    vm_compute in H1. injection H1 as <-. reflexivity.
Defined.

(** ** Where the stores and the calls go *)

Lemma trace_since_refl w : trace_since w w = [].
Proof. unfold trace_since. apply drop_all. Qed.

Ltac events_in :=
  repeat match goal with
         | |- context [if ?c then _ else _] => destruct c
         | |- context [match ?c with Some _ => _ | None => _ end] => destruct c
         end;
  cbn [app St_flag];
  repeat first
    [ apply Forall_nil_2
    | apply Forall_cons_2; [cbn [event_in fst snd]; repeat split; done|] ].

Lemma io_trace_in k o p b :
  Forall (event_in p (loop b) (context b)) (io_trace (watcher_of k) o p b).
Proof.
  destruct k, o; cbn [io_trace watcher_of]; unfold add_trace, del_trace;
    cbn [flag_of]; events_in.
Qed.

Lemma setTimeout_trace_in p tv b :
  Forall (event_in p (loop b) (context b)) (setTimeout_trace p tv b).
Proof. unfold setTimeout_trace. events_in. Qed.

Lemma setPriority_trace_in p pri b :
  Forall (event_in p (loop b) (context b)) (setPriority_trace p pri b).
Proof.
  unfold setPriority_trace, setPriority_io_trace. cbn [flag_of]. events_in.
Qed.

Lemma cleanup_trace_in p b b' :
  Forall (event_in p (loop b) (context b)) (cleanup_trace p b b').
Proof. unfold cleanup_trace. events_in. Qed.

Lemma attach_trace_in p loop_ ac fd_ :
  Forall (event_in p loop_ (Some ac)) (attach_trace p loop_ ac fd_).
Proof. unfold attach_trace. events_in. Qed.

(** X13.  Every store and every libev or allocator call that an operation
    makes stays with the block it is given: stores go to fields of that
    block or to the hook table of the block's context; [ev_io_start]
    and [ev_io_stop] are called on the block's I/O watchers only, and
    [ev_timer_stop] and [ev_timer_again] on its timer only, always with
    the loop stored in the block; and the block released is that block.
    An operation given a null state, and an attach that gets no memory,
    make no store and no call; nor does the clock of a loop moving. *)
Theorem events_stay_in_block (w : world) (o : op) (w' : world) :
  run_op o w = Done tt w' ->
  match op_view w o with
  | Some (p, l, c) => Forall (event_in p l c) (trace_since w w')
  | None => trace_since w w' = []
  end.
Proof.
  intros Hrun.
  destruct o as [nx loop_ ac|d|d|d|d|d tv|ac pri|d|l now];
    cbn [run_op op_view acts_on] in *.
  - (* attach *)
    unfold bindM in Hrun.
    destruct (ctxs w !! ac) as [x|] eqn:Hx;
      [|by unfold redisLibevAttach, bindM, load_ctx in Hrun; rewrite Hx in Hrun].
    destruct (ev_data (ev x)) as [p|] eqn:Hd.
    { rewrite (Attach_attached w nx loop_ ac x p Hx Hd) in Hrun.
      injection Hrun as <-. rewrite trace_since_refl.
      destruct nx as [[? ?]|]; [apply Forall_nil_2|done]. }
    destruct nx as [[p junk]|].
    + rewrite (Attach_run w p junk loop_ ac x Hx Hd) in Hrun.
      injection Hrun as <-. rewrite trace_since_World. apply attach_trace_in.
    + rewrite (Attach_no_memory w loop_ ac x Hx Hd) in Hrun.
      injection Hrun as <-. apply trace_since_refl.
  - destruct d as [p|]; [|injection Hrun as <-; apply trace_since_refl].
    destruct (heap w !! p) as [b|] eqn:Hp;
      [|by rewrite (proj1 (dangling_faults w p Hp)) in Hrun].
    pose proof (run_io_at Read Add w p b Hp) as E; cbn [run_io] in E.
    rewrite E in Hrun; clear E. injection Hrun as <-.
    rewrite trace_since_World. apply (io_trace_in Read Add).
  - destruct d as [p|]; [|injection Hrun as <-; apply trace_since_refl].
    destruct (heap w !! p) as [b|] eqn:Hp;
      [|by rewrite (proj1 (proj2 (dangling_faults w p Hp))) in Hrun].
    pose proof (run_io_at Read Del w p b Hp) as E; cbn [run_io] in E.
    rewrite E in Hrun; clear E. injection Hrun as <-.
    rewrite trace_since_World. apply (io_trace_in Read Del).
  - destruct d as [p|]; [|injection Hrun as <-; apply trace_since_refl].
    destruct (heap w !! p) as [b|] eqn:Hp;
      [|by rewrite (proj1 (proj2 (proj2 (dangling_faults w p Hp)))) in Hrun].
    pose proof (run_io_at Write Add w p b Hp) as E; cbn [run_io] in E.
    rewrite E in Hrun; clear E. injection Hrun as <-.
    rewrite trace_since_World. apply (io_trace_in Write Add).
  - destruct d as [p|]; [|injection Hrun as <-; apply trace_since_refl].
    destruct (heap w !! p) as [b|] eqn:Hp;
      [|by rewrite (proj1 (proj2 (proj2 (proj2 (dangling_faults w p Hp))))) in Hrun].
    pose proof (run_io_at Write Del w p b Hp) as E; cbn [run_io] in E.
    rewrite E in Hrun; clear E. injection Hrun as <-.
    rewrite trace_since_World. apply (io_trace_in Write Del).
  - destruct d as [p|]; [|injection Hrun as <-; apply trace_since_refl].
    destruct (heap w !! p) as [b|] eqn:Hp.
    2:{ destruct (dangling_faults w p Hp) as (_ & _ & _ & _ & _ & Hf).
        by rewrite Hf in Hrun. }
    rewrite (SetTimeout_run_at w p b tv Hp) in Hrun. injection Hrun as <-.
    rewrite trace_since_World. apply setTimeout_trace_in.
  - destruct (ctxs w !! ac) as [x|] eqn:Hx;
      [|by unfold redisLibevSetPriority, bindM, load_ctx in Hrun; rewrite Hx in Hrun].
    destruct (ev_data (ev x)) as [p|] eqn:Hd.
    2:{ rewrite (SetPriority_null ac x pri w Hx Hd) in Hrun. injection Hrun as <-.
        apply trace_since_refl. }
    destruct (heap w !! p) as [b|] eqn:Hp.
    2:{ unfold redisLibevSetPriority, bindM, load_ctx, load in Hrun.
        by rewrite Hx, Hd, Hp in Hrun. }
    rewrite (SetPriority_run_at w ac x p b pri Hx Hd Hp) in Hrun. injection Hrun as <-.
    rewrite trace_since_World. apply setPriority_trace_in.
  - destruct d as [p|]; [|injection Hrun as <-; apply trace_since_refl].
    destruct (heap w !! p) as [b|] eqn:Hp.
    2:{ destruct (dangling_faults w p Hp) as (_ & _ & _ & _ & Hf & _).
        by rewrite Hf in Hrun. }
    assert (forall c, context b = Some c -> is_Some (ctxs w !! c)) as Hc.
    { intros c Hc. destruct (ctxs w !! c) eqn:Hx; [eauto|].
      by rewrite (cleanup_fault w p b c Hp Hc Hx) in Hrun. }
    rewrite (cleanup_run_at w p b Hp Hc) in Hrun. injection Hrun as <-.
    rewrite trace_since_World. apply cleanup_trace_in.
  - unfold set_clock, bindM, get_loop, put_loop in Hrun. injection Hrun as <-.
    unfold trace_since. cbn [log]. apply drop_all.
Qed.

Lemma events_stay_in_block_witness :
  exists w',
    redisLibevSetPriority 2%positive 1 ex_two = Done tt w' /\
    Forall (event_in 20%positive (Some 5%positive) (Some 2%positive))
      (trace_since ex_two w').
Proof.
  assert (exists w', redisLibevSetPriority 2%positive 1 ex_two = Done tt w')
    as [w' Hrun].
  { eexists. apply (SetPriority_run_at ex_two 2%positive (ctx_at ex_two 2%positive)
                      20%positive (block_at ex_two 20%positive));
      vm_compute; reflexivity. }
  exists w'. split; [exact Hrun|].
  exact (events_stay_in_block ex_two (Op_setPriority 2%positive 1) w' Hrun).
Defined.

(** ** The timer and the I/O watchers *)

Lemma setTimeout_block_frame p tv L b :
  let b' := setTimeout_block p tv L b in
  context b' = context b /\ loop b' = loop b /\ priority b' = priority b /\
  reading b' = reading b /\ writing b' = writing b /\
  rev b' = rev b /\ wev b' = wev b.
Proof.
  cbv zeta. open_block b. unfold setTimeout_block, setTimeout_armed.
  decide_bools; split_ifs; repeat split.
Qed.

Lemma reg_timer_again_loops l p b L l' x :
  x <> (p, W_timer) ->
  reg (timer_again_loops l (p, W_timer) b L) l' x <-> reg L l' x.
Proof.
  intros Hx. unfold timer_again_loops, io_stop_loops.
  repeat match goal with
         | |- context [if ?c then _ else _] => destruct c
         end;
    rewrite ?reg_loops_add, ?reg_loops_del; naive_solver.
Qed.

(** X14.  [redisLibevSetTimeout] on a live block returns and is confined to
    the timer: the read and write watchers, the [reading] and [writing]
    flags, the block's priority, context and loop are as they were, no
    watcher other than the timer is started or stopped, no loop's clock
    and no context is changed. *)
Theorem scheduleTimer_is_independent (w : world) (p : ptr) (b : redisLibevEvents)
    (tv : timeval) :
  heap w !! p = Some b ->
  exists w' b',
    redisLibevSetTimeout (Some p) tv w = Done tt w' /\
    heap w' = <[p:=b']> (heap w) /\ ctxs w' = ctxs w /\
    context b' = context b /\ loop b' = loop b /\ priority b' = priority b /\
    reading b' = reading b /\ writing b' = writing b /\
    rev b' = rev b /\ wev b' = wev b /\
    (forall l x, x <> (p, W_timer) -> (reg (loops w') l x <-> reg (loops w) l x)) /\
    (forall l, mn_now (loop_at w' l) = mn_now (loop_at w l)).
Proof.
  intros Hp. eexists _, (setTimeout_block p tv (loops w) b).
  split; [apply (SetTimeout_run_at w p b tv Hp)|].
  split; [reflexivity|]. split; [reflexivity|].
  destruct (setTimeout_block_frame p tv (loops w) b) as (H1 & H2 & H3 & H4 & H5 & H6 & H7).
  repeat (split; [assumption|]).
  split.
  - intros l x Hx. cbn [loops]. unfold setTimeout_loops.
    destruct (loop b); [by apply reg_timer_again_loops|done].
  - intros l. unfold loop_at. cbn [loops]. apply mn_now_setTimeout_loops.
Qed.

Lemma scheduleTimer_is_independent_witness :
  exists w' b',
    redisLibevSetTimeout (Some 10%positive) tv10 ex_two = Done tt w' /\
    heap w' = <[10%positive:=b']> (heap ex_two) /\
    rev b' = rev (block_at ex_two 10%positive) /\
    reg (loops w') 5%positive (10%positive, W_rev).
Proof.
  destruct (scheduleTimer_is_independent ex_two 10%positive
              (block_at ex_two 10%positive) tv10)
    as (w' & b' & H1 & H2 & _ & _ & _ & _ & _ & _ & H3 & _ & H4 & _);
    [vm_compute; reflexivity|].
  exists w', b'. split; [exact H1|]. split; [exact H2|]. split; [exact H3|].
  apply H4; [discriminate|].
  apply (proj1 (bool_decide_eq_true
                  (reg (loops ex_two) 5%positive (10%positive, W_rev)))).
  vm_compute. reflexivity.
Defined.

(** ** The fired handlers and cleanup *)




